(** * nnsight (Mamba interpretability fork): the run entry point, edits,
      scoped patches and the reference selective-scan recurrence.

    The development embeds
      - [src/nnsight/models/AbstractModel.py]: [AbstractModel.__init__],
        [AbstractModel.__call__], [AbstractModel.alteration] and
        [AbstractModel.modulize];
      - [src/nnsight/models/Mamba.py]: [Mamba._load_meta],
        [Mamba._load_local], [Mamba._scan], [Mamba._forward],
        [Mamba._generation], [SSM] and [MambaInterp.__init__].

    Python objects that are mutated in place (the model instance, the local
    torch module with its hook tables, the attribute tables of imported
    Python modules, the step counters of graphs) live in one explicit store,
    [World]; code runs in a state-and-exception monad over it. *)

From Stdlib Require Import ZArith Lia Ascii String.
From stdpp Require Import base tactics option list strings gmap sets functions pretty.

Local Open Scope string_scope.
Local Open Scope list_scope.
Local Open Scope nat_scope.

(* ===================================================================== *)
(** ** Python runtime: exceptions, results, context managers              *)
(* ===================================================================== *)

Module Py.

(** Exceptions that travel through the code under study. *)
Inductive Exn : Type :=
| KeyError (key : string)
| AttributeError (name : string)
| RuntimeError (msg : string)
| UnresolvedDependencyError (module_path : string)
| AlreadyAppliedError (module_path : string)
| UserException (tag : nat).

Inductive Result (A : Type) : Type :=
| Ok (a : A)
| Raised (e : Exn).
Arguments Ok {A} a.
Arguments Raised {A} e.

Definition is_ok {A} (r : Result A) : bool :=
  match r with Ok _ => true | Raised _ => false end.

(** Opaque Python values handed through unchanged (inputs, extra
    positional and keyword arguments, outputs). *)
Inductive PyVal : Type :=
| PNone
| PBool (b : bool)
| PInt (z : Z)
| PStr (s : string).

(** A computation over a store [S] that returns or raises. *)
Definition M (S A : Type) : Type := S → Result A * S.

Definition ret {S A} (a : A) : M S A := λ s, (Ok a, s).
Definition raise {S A} (e : Exn) : M S A := λ s, (Raised e, s).
Definition bind {S A B} (m : M S A) (k : A → M S B) : M S B :=
  λ s, match m s with
       | (Ok a, s') => k a s'
       | (Raised e, s') => (Raised e, s')
       end.
Definition get {S} : M S S := λ s, (Ok s, s).
Definition gets {S A} (f : S → A) : M S A := λ s, (Ok (f s), s).
Definition modify {S} (f : S → S) : M S unit := λ s, (Ok tt, f s).
Definition lift_result {S A} (r : Result A) : M S A := λ s, (r, s).

(** [with enter as x: body] — [__exit__] runs on the normal and on the
    exceptional exit of the body, and is not run when [__enter__] itself
    raises.  None of the context managers used here swallows an
    exception, so the body's exception is re-raised after [__exit__]. *)
Definition with_ {S R A} (enter : M S R) (exit : R → M S unit)
    (body : R → M S A) : M S A :=
  λ s, match enter s with
       | (Raised e, s1) => (Raised e, s1)
       | (Ok r, s1) =>
           match body r s1 with
           | (Ok a, s2) =>
               match exit r s2 with
               | (Ok _, s3) => (Ok a, s3)
               | (Raised e, s3) => (Raised e, s3)
               end
           | (Raised e, s2) =>
               match exit r s2 with
               | (Ok _, s3) => (Raised e, s3)
               | (Raised e', s3) => (Raised e', s3)
               end
           end
       end.

(** [for x in l: f x] *)
Fixpoint for_ {S A} (l : list A) (f : A → M S unit) : M S unit :=
  match l with
  | [] => ret tt
  | x :: l' => bind (f x) (λ _, for_ l' f)
  end.

(** Run a computation over a component of a larger store. *)
Definition zoom {S T A} (proj : T → S) (upd : S → T → T) (m : M S A) : M T A :=
  λ t, let '(r, s') := m (proj t) in (r, upd s' t).

End Py.
Export Py.

(** stdpp's monad notations ([x ← m; k] and [m ;; k]) are used for [M]. *)
#[export] Instance M_ret {S} : MRet (M S) := λ A, @ret S A.
#[export] Instance M_bind {S} : MBind (M S) := λ A B k m, @bind S A B m k.

(* ===================================================================== *)
(** ** Strings: [str.split("."), [:-2], ".".join]                         *)
(* ===================================================================== *)

Module PyStr.

Definition dot : ascii := "."%char.

(** [s.split(".")]: never empty; an empty field between two dots, before
    a leading dot and after a trailing dot. *)
Fixpoint split_dot (s : string) : list string :=
  match s with
  | EmptyString => [EmptyString]
  | String c s' =>
      if decide (c = dot) then EmptyString :: split_dot s'
      else match split_dot s' with
           | [] => [String c EmptyString]
           | w :: ws => String c w :: ws
           end
  end.

(** [".".join(l)] *)
Fixpoint join_dot (l : list string) : string :=
  match l with
  | [] => EmptyString
  | [w] => w
  | w :: ws => w +:+ "." +:+ join_dot ws
  end.

(** [l[:-2]]: the stop index [len(l) - 2] is clamped at [0]. *)
Definition slice_to_minus2 {A} (l : list A) : list A :=
  take (length l - 2) l.

(** The list comprehension element of [AbstractModel.__call__]:
    [".".join(name.split(".")[:-2])]. *)
Definition module_of_key (name : string) : string :=
  join_dot (slice_to_minus2 (split_dot name)).

(** A string without a dot is one path component. *)
Fixpoint dotless (s : string) : bool :=
  match s with
  | EmptyString => true
  | String c s' => if decide (c = dot) then false else dotless s'
  end.

End PyStr.
Export PyStr.

(* ===================================================================== *)
(** ** Graphs of traced operations ([..fx.Graph])                         *)
(* ===================================================================== *)

Module Fx.

Inductive OpKind : Type := CallModule | GetAttr | CallFunction | Arithmetic.

Inductive ArgRef : Type :=
| Literal (v : PyVal)
| NodeRef (name : string).

Record Node : Type := mkNode {
  node_name : string;
  op_kind : OpKind;
  target : string;
  node_args : list ArgRef;
}.

(** A graph object.  [gid] is the identity of the Python object: its
    step counter is shared mutable state and lives in the store under
    this identity.  [nodes] and [argument_node_names] are dicts, kept in
    insertion order. *)
Record Graph : Type := mkGraph {
  gid : nat;
  nodes : list Node;
  argument_node_names : list (string * list string);
}.

(** [graph.nodes[name]] *)
Definition nodes_getitem (g : Graph) (name : string) : Result Node :=
  match List.find (λ n, bool_decide (node_name n = name)) (nodes g) with
  | Some n => Ok n
  | None => Raised (KeyError name)
  end.

(** [graph.argument_node_names.keys()] *)
Definition keys (g : Graph) : list string := (argument_node_names g).*1.

(** Modelled from the spec: [Graph.create_node] is not under src/.
    Spec 4.1: the node is appended, and its name is the operation target
    plus a disambiguating counter, so repeated calls on one target give
    [t_0], [t_1], ... *)
Definition create_node (g : Graph) (op : OpKind) (tgt : string)
    (args : list ArgRef) : Graph * Node :=
  let k := length (filter (λ n, target n = tgt) (nodes g)) in
  let n := mkNode (tgt +:+ "_" +:+ pretty k) op tgt args in
  (mkGraph (gid g) (nodes g ++ [n]) (argument_node_names g), n).

(** Modelled from the spec: [Graph.compile] is not under src/.
    Spec 4.3 and 7: compilation fails with UnresolvedDependencyError when
    a module path that has to supply data is absent from the concrete
    model; the paths are those named by the keys of the
    argument_node_names table. *)
Definition compile (g : Graph) (model_paths : gset string) : Result unit :=
  match List.find (λ k, bool_decide (module_of_key k ∉ model_paths)) (keys g) with
  | Some k => Raised (UnresolvedDependencyError (module_of_key k))
  | None => Ok tt
  end.

End Fx.
Export Fx.

(* ===================================================================== *)
(** ** torch.nn.Module as far as the run entry point touches it           *)
(* ===================================================================== *)

Module Torch.

(** What a hook callback does when it fires: the three lambdas of
    [AbstractModel.__call__] call [graph.increment()] or
    [intervene(activations, module_path, graph, kind)]. *)
Inductive CbCall : Type :=
| GraphIncrement (g : nat)
| CallIntervene (module_path : string) (g : nat) (kind : string).

#[export] Instance CbCall_eq_dec : EqDecision CbCall.
Proof. solve_decision. Defined.

Inductive HookWhen : Type := ForwardPre | ForwardPost.

#[export] Instance HookWhen_eq_dec : EqDecision HookWhen.
Proof. solve_decision. Defined.

Record Hook : Type := mkHook {
  attached_to : string;
  when : HookWhen;
  calls : list CbCall;
}.

(** Module topology: the dotted paths of [named_modules()] and the
    modules whose forward has been replaced by a graph. *)
Record Tree : Type := mkTree {
  paths : gset string;
  forwards : gmap string Graph;
}.

Record TorchModule : Type := mkTorchModule {
  oid : nat;
  class_name : string;
  tree : Tree;
  requires_grad : list bool;
  training : bool;
  hooks : list (nat * Hook);
  next_handle : nat;
}.

Definition set_tree (t : Tree) (m : TorchModule) : TorchModule :=
  mkTorchModule (oid m) (class_name m) t (requires_grad m) (training m)
                (hooks m) (next_handle m).
Definition set_requires_grad (l : list bool) (m : TorchModule) : TorchModule :=
  mkTorchModule (oid m) (class_name m) (tree m) l (training m)
                (hooks m) (next_handle m).
Definition set_training (b : bool) (m : TorchModule) : TorchModule :=
  mkTorchModule (oid m) (class_name m) (tree m) (requires_grad m) b
                (hooks m) (next_handle m).

(** [for param in m.parameters(): param.requires_grad = False] *)
Definition freeze (m : TorchModule) : TorchModule :=
  set_requires_grad (const false <$> requires_grad m) m.

(** [register_forward_hook] / [register_forward_pre_hook]: the hook is
    appended to the table under a fresh handle. *)
Definition register_hook (h : Hook) (m : TorchModule) : nat * TorchModule :=
  (next_handle m,
   mkTorchModule (oid m) (class_name m) (tree m) (requires_grad m)
                 (training m) (hooks m ++ [(next_handle m, h)])
                 (S (next_handle m))).

(** [RemovableHandle.remove()] *)
Definition remove_hook (handle : nat) (m : TorchModule) : TorchModule :=
  mkTorchModule (oid m) (class_name m) (tree m) (requires_grad m)
                (training m)
                (filter (λ ih, ih.1 ≠ handle) (hooks m))
                (next_handle m).

(** Whether [h] is an activation hook of kind [w]: a pre-forward (input)
    or post-forward (output) hook whose callback is one [intervene] call. *)
Definition is_intervene_hook (w : HookWhen) (h : Hook) : bool :=
  match w, when h, calls h with
  | ForwardPre, ForwardPre, [CallIntervene _ _ _] => true
  | ForwardPost, ForwardPost, [CallIntervene _ _ _] => true
  | _, _, _ => false
  end.

(** The module paths that carry an activation hook of kind [w]. *)
Definition hooked_paths (w : HookWhen) (m : TorchModule) : gset string :=
  list_to_set (attached_to <$> List.filter (is_intervene_hook w) (hooks m).*2).

(** The hooks whose callback advances a step counter. *)
Definition is_increment_hook (h : Hook) : bool :=
  match calls h with
  | [GraphIncrement _] => true
  | _ => false
  end.

Definition increment_hooks (m : TorchModule) : list (nat * Hook) :=
  List.filter (λ ih, is_increment_hook ih.2) (hooks m).

End Torch.
Export Torch.

(* ===================================================================== *)
(** ** Scoped monkey patches ([..patching])                               *)
(* ===================================================================== *)

Module Patching.

(** The attribute tables of the imported Python modules: the object bound
    to [(module, attribute)], by name. *)
Abbreviation Namespace := (string * string → string).

Record Patch : Type := mkPatch {
  parent : string;
  replacement : string;
  key : string;
  orig : string;
}.

(** Modelled from the spec: [Patch] and [Patcher] are not under src/.
    Spec 4.2 and 9: a patcher is a reversible substitution table, applied
    by scoped acquisition; a substitution is installed on enter and the
    original binding is put back on exit.  A patch remembers the binding
    it found when it was built, and [add] on a patcher installs the patch
    as it enters the table (the patches of [Mamba._scan] are added inside
    the [with] block and have to be in force for the meta run). *)
Definition Patch_new (parent replacement key : string) : M Namespace Patch :=
  λ ns, (Ok (mkPatch parent replacement key (ns (parent, key))), ns).

Definition patch (p : Patch) : M Namespace unit :=
  modify (<[(parent p, key p) := replacement p]>).

Definition restore (p : Patch) : M Namespace unit :=
  modify (<[(parent p, key p) := orig p]>).

(** A patcher object: its table of patches. *)
Abbreviation Patcher := (list Patch).

Definition Patcher_enter (patches : Patcher) : M Namespace unit :=
  for_ patches patch.

Definition Patcher_exit (patches : Patcher) : M Namespace unit :=
  for_ patches restore.

(** Code that holds a patcher object of its own runs over the namespace
    and that object's table. *)
Abbreviation PatchStore := ((string * string → string) * list Patch)%type.

Definition on_ns {A} (m : M Namespace A) : M PatchStore A :=
  zoom fst (λ ns s, (ns, s.2)) m.

(** [patcher.add(Patch(parent, replacement, key))] *)
Definition Patcher_add (parent replacement key : string) : M PatchStore unit :=
  p ← on_ns (Patch_new parent replacement key);
  modify (λ s : PatchStore, (s.1, s.2 ++ [p]));;
  on_ns (patch p).

(** [patcher.__enter__()] and [patcher.__exit__(...)] on the held object. *)
Definition held_enter : M PatchStore unit :=
  λ s, on_ns (Patcher_enter s.2) s.
Definition held_exit : M PatchStore unit :=
  λ s, on_ns (Patcher_exit s.2) s.

(** Run code that creates a fresh [Patcher()] and drops it at the end. *)
Definition with_fresh_patcher {A} (m : M PatchStore A) : M Namespace A :=
  λ ns, let '(r, s) := m (ns, []) in (r, s.1).

End Patching.
Export Patching.

(* ===================================================================== *)
(** ** Edits ([..editing])                                                *)
(* ===================================================================== *)

Module Editing.

(** The attributes [modulize] sets on the wrapper it inserts. *)
Record Wrapper : Type := mkWrapper {
  w_module_path : string;
  w_tracer : nat;
  w_output_shape : list nat;
}.

Inductive Edit : Type :=
| WrapperModuleEdit (module_path module_name : string) (wrapper : Wrapper)
| GraphEdit (module_path : string) (graph : Graph).

Definition child_path (module_path module_name : string) : string :=
  module_path +:+ "." +:+ module_name.

(** Modelled from the spec: [Edit], [WrapperModuleEdit], [GraphEdit] and
    [Editor] are not under src/.  Spec 4.5: a module-insertion edit adds
    a pass-through wrapper submodule at a dotted path; a graph-rewrite
    edit routes the module's data through a graph; applying an edit that
    is already applied fails with AlreadyAppliedError; every edit has an
    inverse.  The module an edit names has to exist in the target. *)
Definition edit (e : Edit) (t : Tree) : Result Tree :=
  match e with
  | WrapperModuleEdit p n _ =>
      if decide (p ∈ paths t) then
        if decide (child_path p n ∈ paths t)
        then Raised (AlreadyAppliedError (child_path p n))
        else Ok (mkTree (paths t ∪ {[child_path p n]}) (forwards t))
      else Raised (AttributeError p)
  | GraphEdit p g =>
      if decide (p ∈ paths t) then
        match forwards t !! p with
        | Some _ => Raised (AlreadyAppliedError p)
        | None => Ok (mkTree (paths t) (<[p := g]> (forwards t)))
        end
      else Raised (AttributeError p)
  end.

Definition restore_edit (e : Edit) (t : Tree) : Tree :=
  match e with
  | WrapperModuleEdit p n _ => mkTree (paths t ∖ {[child_path p n]}) (forwards t)
  | GraphEdit p g => mkTree (paths t) (delete p (forwards t))
  end.

End Editing.
Export Editing.

(* ===================================================================== *)
(** ** [AbstractModel]                                                    *)
(* ===================================================================== *)

Module AbstractModel.

(** Attributes that subclasses keep on the instance. *)
Record Attrs : Type := mkAttrs {
  tokenizer : PyVal;
  config : option PyVal;
}.

(** The attributes of an [AbstractModel] instance. *)
Record Model : Type := mkModel {
  repoid_path_clsname : string;
  args : list PyVal;
  kwargs : list (string * PyVal);
  alter : bool;
  dispatched : bool;
  custom_model : bool;
  local_model : option TorchModule;
  attrs : Attrs;
  edits : list Edit;
  meta_model : Tree;
}.

(** What the run entry point and its collaborators do that can be
    observed from outside, in the order it happens. *)
Inductive Event : Type :=
| EvRunMeta (inputs : PyVal)
| EvLoadLocal (repoid : string) (a : list PyVal) (k : list (string * PyVal))
| EvEdit (e : Edit)
| EvRestore (e : Edit)
| EvCompile (g : nat) (local_oid : nat) (outcome : Result unit)
| EvRegisterHook (handle : nat) (h : Hook)
| EvRemoveHook (handle : nat)
| EvFn (inputs : PyVal) (a : list PyVal) (k : list (string * PyVal))
       (local : TorchModule) (inference_mode : bool)
| EvForward (local_oid : nat)
| EvForwardAborted (local_oid : nat).

(** The store: the instance [self], the attribute tables of the imported
    modules, the module-level alteration table, torch's inference-mode
    flag, the step counter of every graph object, the allocator of
    object identities, and the trace of events. *)
Record World : Type := mkWorld {
  self : Model;
  namespace : Namespace;
  REPOID_TO_ALTERATION : gmap string Patcher;
  inference_mode : bool;
  steps : nat → nat;
  next_oid : nat;
  log : list Event;
}.

Definition set_self (m : Model) (w : World) : World :=
  mkWorld m (namespace w) (REPOID_TO_ALTERATION w) (inference_mode w)
          (steps w) (next_oid w) (log w).
Definition set_namespace (ns : Namespace) (w : World) : World :=
  mkWorld (self w) ns (REPOID_TO_ALTERATION w) (inference_mode w)
          (steps w) (next_oid w) (log w).
Definition set_inference_mode (b : bool) (w : World) : World :=
  mkWorld (self w) (namespace w) (REPOID_TO_ALTERATION w) b
          (steps w) (next_oid w) (log w).
Definition set_steps (f : nat → nat) (w : World) : World :=
  mkWorld (self w) (namespace w) (REPOID_TO_ALTERATION w) (inference_mode w)
          f (next_oid w) (log w).
Definition set_next_oid (n : nat) (w : World) : World :=
  mkWorld (self w) (namespace w) (REPOID_TO_ALTERATION w) (inference_mode w)
          (steps w) n (log w).
Definition set_log (l : list Event) (w : World) : World :=
  mkWorld (self w) (namespace w) (REPOID_TO_ALTERATION w) (inference_mode w)
          (steps w) (next_oid w) l.

Definition set_dispatch (d c : bool) (clsname : string)
    (l : option TorchModule) (m : Model) : Model :=
  mkModel clsname (args m) (kwargs m) (alter m) d c l (attrs m) (edits m)
          (meta_model m).
Definition set_local_model (l : option TorchModule) (m : Model) : Model :=
  mkModel (repoid_path_clsname m) (args m) (kwargs m) (alter m)
          (dispatched m) (custom_model m) l (attrs m) (edits m) (meta_model m).
Definition set_attrs (a : Attrs) (m : Model) : Model :=
  mkModel (repoid_path_clsname m) (args m) (kwargs m) (alter m)
          (dispatched m) (custom_model m) (local_model m) a (edits m)
          (meta_model m).
Definition set_edits (es : list Edit) (m : Model) : Model :=
  mkModel (repoid_path_clsname m) (args m) (kwargs m) (alter m)
          (dispatched m) (custom_model m) (local_model m) (attrs m) es
          (meta_model m).
Definition set_meta_model (t : Tree) (m : Model) : Model :=
  mkModel (repoid_path_clsname m) (args m) (kwargs m) (alter m)
          (dispatched m) (custom_model m) (local_model m) (attrs m)
          (edits m) t.

Definition emit (e : Event) : M World unit :=
  modify (λ w, set_log (log w ++ [e]) w).

Definition upd_self (f : Model → Model) : M World unit :=
  modify (λ w, set_self (f (self w)) w).

(** [self.local_model], an attribute error on [None]. *)
Definition the_local : M World TorchModule :=
  λ w, match local_model (self w) with
       | Some m => (Ok m, w)
       | None => (Raised (AttributeError "local_model"), w)
       end.

Definition put_local (m : TorchModule) : M World unit :=
  upd_self (set_local_model (Some m)).

(** An in-place change of the object [self.local_model]. *)
Definition upd_local (f : TorchModule → TorchModule) : M World unit :=
  λ w, match local_model (self w) with
       | Some m => (Ok tt, set_self (set_local_model (Some (f m)) (self w)) w)
       | None => (Raised (AttributeError "local_model"), w)
       end.

Definition on_namespace {A} (m : M Namespace A) : M World A :=
  zoom namespace set_namespace m.

(** A torch module as its constructor leaves it: class, topology, the
    parameters' [requires_grad] flags and the training flag.  A module
    just built carries no hooks. *)
Record Built : Type := mkBuilt {
  built_class : string;
  built_tree : Tree;
  built_requires_grad : list bool;
  built_training : bool;
}.

Definition new_module (fresh : nat) (b : Built) : TorchModule :=
  mkTorchModule fresh (built_class b) (built_tree b) (built_requires_grad b)
                (built_training b) [] 0.

(** The abstract methods.  An implementation sees its arguments, the
    attribute tables of the imported modules (classes and functions are
    looked up there when a model is built) and the attributes subclasses
    keep on the instance. *)
Class Adapter : Type := {
  _load_meta : string → list PyVal → list (string * PyVal) →
               Namespace → Attrs → Result (Tree * Attrs);
  _load_local : string → list PyVal → list (string * PyVal) →
                Namespace → Attrs → Result Built;
  _run_meta : PyVal → Tree → M Namespace unit;
}.

(** *** Collaborators of the run entry point *)

(** [hook.register(...)] on the local model, and [handle.remove()]. *)
Definition register (h : Hook) : M World nat :=
  m ← the_local;
  upd_local (λ m, (register_hook h m).2);;
  emit (EvRegisterHook (register_hook h m).1 h);;
  mret (register_hook h m).1.

Definition handle_remove (handle : nat) : M World unit :=
  upd_local (remove_hook handle);;
  emit (EvRemoveHook handle).

(** Modelled from the spec: [_register_increment_hook] is abstract here
    and its implementation (LanguageModel) is not under src/.  Spec 6:
    [register_increment_hook(callback) -> handle], the callback fires
    once per forward pass: a post-forward hook on the root module. *)
Definition _register_increment_hook (callback : list CbCall) : M World nat :=
  register (mkHook "" ForwardPost callback).

(** [graph.increment()] *)
Definition increment (g : nat) : M World unit :=
  modify (λ w, set_steps (<[g := S (steps w g)]> (steps w)) w).

(** Modelled from the spec: [Editor] is not under src/.  Spec 4.5: the
    edits of the list are applied to the real model at entry and reverted
    at exit, in list order. *)
Definition Editor_enter (edits : list Edit) : M World unit :=
  for_ edits (λ e,
    m ← the_local;
    t ← lift_result (edit e (tree m));
    upd_local (set_tree t);;
    emit (EvEdit e)).

Definition Editor_exit (edits : list Edit) : M World unit :=
  for_ edits (λ e,
    upd_local (λ m, set_tree (restore_edit e (tree m)) m);;
    emit (EvRestore e)).

(** Modelled from the spec: [HookModel] is not under src/.  Spec 4.4: an
    input hook and an output hook are installed on each module path of
    the list; the hooks are removed when the scope is left.  The hooks
    are the two lambdas of [__call__] applied to the module's path. *)
Fixpoint HookModel_enter (module_paths : list string) (g : nat)
    : M World (list nat) :=
  match module_paths with
  | [] => mret []
  | p :: rest =>
      m ← the_local;
      (if decide (p ∈ paths (tree m)) then mret tt
       else raise (AttributeError p));;
      h1 ← register (mkHook p ForwardPre [CallIntervene p g "input"]);
      h2 ← register (mkHook p ForwardPost [CallIntervene p g "output"]);
      hs ← HookModel_enter rest g;
      mret (h1 :: h2 :: hs)
  end.

Definition HookModel_exit (handles : list nat) : M World unit :=
  for_ handles handle_remove.

(** [torch.inference_mode(mode=...)]: sets the flag for the scope and
    puts the previous value back. *)
Definition inference_mode_enter (mode : bool) : M World bool :=
  prev ← gets inference_mode;
  modify (set_inference_mode mode);;
  mret prev.

Definition inference_mode_exit (prev : bool) : M World unit :=
  modify (set_inference_mode prev).

(** [self.alteration() if self.alter else Patcher()] with
    [alteration() = REPOID_TO_ALTERATION.get(self.repoid_path_clsname, Patcher())] *)
Definition alteration_or_empty : M World Patcher :=
  λ w, (Ok (if alter (self w)
            then default [] (REPOID_TO_ALTERATION w !! repoid_path_clsname (self w))
            else []), w).

(** *** The user function

    The callable handed to [__call__] drives the local model: it performs
    forward passes, then returns a value or raises.  A forward pass can
    itself raise part-way (a hook's node evaluation fails); the root
    module's post-forward hooks have then not fired. *)
Inductive Script : Type :=
| Return (out : PyVal)
| Throw (e : Exn)
| Forward (k : Script)
| ForwardAbort (e : Exn).

Abbreviation UserFn := (PyVal → list PyVal → list (string * PyVal) → Script).

Definition fire (c : CbCall) : M World unit :=
  match c with
  | GraphIncrement g => increment g
  | CallIntervene _ _ _ => mret tt
  end.

(** One complete forward pass of the local model: every installed hook
    fires once. *)
Definition forward_pass : M World unit :=
  m ← the_local;
  emit (EvForward (oid m));;
  for_ (hooks m) (λ ih, for_ (calls ih.2) fire).

Fixpoint run_script (s : Script) : M World PyVal :=
  match s with
  | Return out => mret out
  | Throw e => raise e
  | Forward k => forward_pass;; run_script k
  | ForwardAbort e => m ← the_local; emit (EvForwardAborted (oid m));; raise e
  end.

(** [fn(inputs, *args, **kwargs)] *)
Definition call_fn (fn : UserFn) (inputs : PyVal) (a : list PyVal)
    (k : list (string * PyVal)) : M World PyVal :=
  m ← the_local;
  im ← gets inference_mode;
  emit (EvFn inputs a k m im);;
  run_script (fn inputs a k).

(** *** The methods under src/ *)

(** [Module]: a wrapped submodule of the meta model, as [modulize]
    reads it. *)
Record Module : Type := mkModule {
  module_path : string;
  tracer : nat;
  output_shape : list nat;
  graph : Graph;
}.

Section Methods.

Context {impl : Adapter}.

(** [with self.alteration() if self.alter else Patcher(): body] *)
Definition with_alteration {A} (body : M World A) : M World A :=
  with_ (ps ← alteration_or_empty; on_namespace (Patcher_enter ps);; mret ps)
        (λ ps, on_namespace (Patcher_exit ps))
        (λ _, body).

(** [AbstractModel.__init__(self, repoid_path_model, *args, alter,
    tokenizer, **kwargs)].  [accelerate.init_empty_weights] and the
    two wrapping loops leave the module topology as it is. *)
Definition __init__ (repoid_path_model : string + TorchModule)
    (a : list PyVal) (alter_ : bool) (tokenizer_ : PyVal)
    (k : list (string * PyVal)) : M World unit :=
  modify (set_self
    (mkModel (match repoid_path_model with inl s => s | inr _ => "" end)
             a k alter_ false false None (mkAttrs tokenizer_ None) []
             (mkTree ∅ ∅)));;
  match repoid_path_model with
  | inr m => upd_self (set_dispatch true true (class_name m) (Some m))
  | inl _ => mret tt
  end;;
  with_alteration (
    s ← gets self;
    if custom_model s then
      m ← the_local;
      upd_self (set_meta_model (tree m))
    else
      ns ← gets namespace;
      ta ← lift_result (_load_meta (repoid_path_clsname s) a k ns (attrs s));
      upd_self (set_attrs ta.2);;
      upd_self (set_meta_model ta.1));;
  emit (EvRunMeta (PStr "_"));;
  s ← gets self;
  on_namespace (_run_meta (PStr "_") (meta_model s)).

(** The block under [if not self.dispatched:] in [__call__]. *)
Definition load_local_model : M World unit :=
  with_alteration (
    w ← get;
    emit (EvLoadLocal (repoid_path_clsname (self w)) (args (self w))
                      (kwargs (self w)));;
    b ← lift_result (_load_local (repoid_path_clsname (self w))
                       (args (self w)) (kwargs (self w)) (namespace w)
                       (attrs (self w)));
    modify (set_next_oid (S (next_oid w)));;
    put_local (new_module (next_oid w) b);;
    upd_local freeze).

(** The body of [with Editor(self, edits):] in [__call__]. *)
Definition run_body (fn : UserFn) (inputs : PyVal) (g : Graph)
    (a : list PyVal) (inference : bool) (k : list (string * PyVal))
    : M World PyVal :=
  m ← the_local;
  emit (EvCompile (gid g) (oid m) (compile g (paths (tree m))));;
  lift_result (compile g (paths (tree m)));;
  increment_hook ← _register_increment_hook [GraphIncrement (gid g)];
  let modules : gset string := list_to_set (module_of_key <$> keys g) in
  upd_local (set_training (negb inference));;
  output ← with_ (inference_mode_enter inference) inference_mode_exit (λ _,
             with_ (HookModel_enter (elements modules) (gid g))
                   HookModel_exit
                   (λ _, call_fn fn inputs a k));
  handle_remove increment_hook;;
  mret output.

(** [AbstractModel.__call__(self, fn, inputs, graph, *args, edits=None,
    inference=True, **kwargs)] *)
Definition __call__ (fn : UserFn) (inputs : PyVal) (g : Graph)
    (a : list PyVal) (edits_ : option (list Edit)) (inference : bool)
    (k : list (string * PyVal)) : M World PyVal :=
  s ← gets self;
  let edits_ := match edits_ with None => edits s | Some es => es end in
  (if dispatched s then mret tt else load_local_model);;
  with_ (Editor_enter edits_) (λ _, Editor_exit edits_)
        (λ _, run_body fn inputs g a inference k).

(** [AbstractModel.modulize(self, module, node_name, module_name)].
    The two calls on [graph.module_proxy] add two nodes to the module's
    graph: one that gets the wrapper just added, one that calls it on
    the data of node [node_name]. *)
Definition modulize (module : Module) (node_name_ module_name : string)
    : M World unit :=
  let wme :=
    WrapperModuleEdit (module_path module) module_name
      (mkWrapper (module_path module +:+ "." +:+ module_name)
                 (tracer module) (output_shape module)) in
  s ← gets self;
  t ← lift_result (edit wme (meta_model s));
  upd_self (set_meta_model t);;
  let graph1 := (create_node (graph module) GetAttr module_name []).1 in
  data ← lift_result (nodes_getitem graph1 node_name_);
  let graph2 :=
    (create_node graph1 CallModule module_name [NodeRef (node_name data)]).1 in
  let ge := GraphEdit (module_path module) graph2 in
  s ← gets self;
  t ← lift_result (edit ge (meta_model s));
  upd_self (set_meta_model t);;
  upd_self (λ s, set_edits (edits s ++ [wme]) s);;
  upd_self (λ s, set_edits (edits s ++ [ge]) s).

(** *** The life of an instance

    After construction the owner calls [__call__] and [modulize] in
    some order; an exception of one call does not end the life of the
    instance. *)
Inductive Op : Type :=
| Call (fn : UserFn) (inputs : PyVal) (g : Graph) (a : list PyVal)
       (edits_ : option (list Edit)) (inference : bool)
       (k : list (string * PyVal))
| Modulize (module : Module) (node_name_ module_name : string).

Definition step (w : World) (o : Op) : World :=
  match o with
  | Call fn inputs g a edits_ inference k =>
      (__call__ fn inputs g a edits_ inference k w).2
  | Modulize module node_name_ module_name =>
      (modulize module node_name_ module_name w).2
  end.

Definition lifetime (ops : list Op) (w : World) : World :=
  fold_left step ops w.

End Methods.

End AbstractModel.
Export AbstractModel.

(* ===================================================================== *)
(** ** [Mamba] and [MambaInterp]                                          *)
(* ===================================================================== *)

Module Mamba.

(** The libraries [Mamba.py] calls into (mamba_ssm, transformers, the
    model hub) and the part of [LanguageModel] it inherits. *)
Record Libs : Type := mkLibs {
  AutoTokenizer_from_pretrained : string → Result PyVal;
  load_config_hf : string → Result PyVal;
  load_state_dict_hf : string → list (string * PyVal) → Result PyVal;
  (** [MambaLMHeadModel(config, **kwargs)]: the topology and the
      parameters' [requires_grad] flags of the object it builds; the
      block class is looked up in [mamba_ssm.models.mixer_seq_simple]. *)
  MambaLMHeadModel : PyVal → list (string * PyVal) → Namespace → Tree * list bool;
  (** [self.meta_model(input_ids)] on meta tensors, under the bindings
      in force when it is called. *)
  meta_call : Tree → PyVal → Namespace → Result unit;
  _prepare_inputs : PyVal → Result PyVal;
}.

Section WithLibs.

Variable libs : Libs.

(** [Mamba._load_meta] *)
Definition _load_meta (repoid_or_path : string) (a : list PyVal)
    (k : list (string * PyVal)) (ns : Namespace) (at_ : Attrs)
    : Result (Tree * Attrs) :=
  match (match tokenizer at_ with
         | PNone => AutoTokenizer_from_pretrained libs repoid_or_path
         | t => Ok t
         end) with
  | Raised e => Raised e
  | Ok tok =>
      match load_config_hf libs repoid_or_path with
      | Raised e => Raised e
      | Ok config_data =>
          Ok ((MambaLMHeadModel libs config_data k ns).1,
              mkAttrs tok (Some config_data))
      end
  end.

(** [Mamba._load_local] *)
Definition _load_local (repoid_or_path : string) (a : list PyVal)
    (k : list (string * PyVal)) (ns : Namespace) (at_ : Attrs)
    : Result Built :=
  match config at_ with
  | None => Raised (AttributeError "config")
  | Some c =>
      let model := MambaLMHeadModel libs c k ns in
      match load_state_dict_hf libs repoid_or_path k with
      | Raised e => Raised e
      | Ok _ => Ok (mkBuilt "MambaLMHeadModel" model.1 model.2 true)
      end
  end.

(** [Mamba._scan]: the four replacements ([blah] .. [blah3]) are added
    to a fresh patcher inside its [with] block, then the meta model is
    called. *)
Definition _scan (meta_tree : Tree) (prepared_inputs : PyVal)
    : M Namespace unit :=
  with_fresh_patcher
    (with_ held_enter (λ _, held_exit) (λ _,
       Patcher_add "mamba_ssm.modules.mamba_simple" "blah" "rms_norm_fn";;
       Patcher_add "mamba_ssm.models.mixer_seq_simple" "blah1" "rms_norm_fn";;
       Patcher_add "causal_conv1d_cuda" "blah2" "causal_conv1d_fwd";;
       Patcher_add "selective_scan_cuda" "blah3" "fwd";;
       on_ns (λ ns, (meta_call libs meta_tree prepared_inputs ns, ns)))).

(** Modelled from the spec: [_run_meta] is implemented in LanguageModel,
    which is not under src/.  Spec 6: [run_meta(dummy_input)] prepares
    the input and runs the meta model once to populate shapes; for a
    Mamba model that run is [_scan]. *)
Definition _run_meta (inputs : PyVal) (meta_tree : Tree) : M Namespace unit :=
  prepared ← lift_result (_prepare_inputs libs inputs);
  _scan meta_tree prepared.

#[export] Instance adapter : Adapter :=
  {| AbstractModel._load_meta := _load_meta;
     AbstractModel._load_local := _load_local;
     AbstractModel._run_meta := _run_meta |}.

(** [Mamba._forward]: one call of the local model. *)
Definition _forward (out : PyVal) : UserFn :=
  λ _ _ _, Forward (Return out).

(** [Mamba._generation]: [local_model.generate] calls the local model
    once per decoding step. *)
Definition _generation (decoding_steps : nat) (out : PyVal) : UserFn :=
  λ _ _ _, Nat.iter decoding_steps Forward (Return out).

End WithLibs.

End Mamba.

Module MambaInterp.

(** [MambaInterp.__init__]: a patcher is created, the substitution of
    [MambaModuleInterp] for [mamba_ssm.models.mixer_seq_simple.Mamba] is
    added, [patcher.__enter__()] is called and the patcher is dropped;
    then [super().__init__] runs. *)
Definition __init__ (libs : Mamba.Libs) (repoid_path_model : string + TorchModule)
    (a : list PyVal) (alter_ : bool) (tokenizer_ : PyVal)
    (k : list (string * PyVal)) : M World unit :=
  on_namespace
    (with_fresh_patcher
       (Patcher_add "mamba_ssm.models.mixer_seq_simple" "MambaModuleInterp" "Mamba";;
        held_enter));;
  AbstractModel.__init__ (impl := Mamba.adapter libs)
    repoid_path_model a alter_ tokenizer_ k.

End MambaInterp.

(* ===================================================================== *)
(** ** [SSM]: the reference selective-scan recurrence                     *)
(* ===================================================================== *)

Module SSM.

Inductive Dtype : Type := Float16 | BFloat16 | Float32 | Float64 | Complex64.

#[export] Instance Dtype_eq_dec : EqDecision Dtype.
Proof. solve_decision. Defined.

(** Result type of an operation on two tensors. *)
Definition promote (a b : Dtype) : Dtype :=
  match a, b with
  | Complex64, _ | _, Complex64 => Complex64
  | Float64, _ | _, Float64 => Float64
  | Float32, _ | _, Float32 => Float32
  | Float16, Float16 => Float16
  | BFloat16, BFloat16 => BFloat16
  | _, _ => Float32
  end.

Section Scalars.

(** Tensor elements and the element-wise kernels of torch, kept
    abstract: the development is about the dataflow of [SSM.forward],
    not about rounding. *)
Variable T : Type.
Variables (zero two : T) (add mul : T → T → T).
Variables (exp silu real_part : T → T).
Variable cast : Dtype → T → T.
Variable complex_of : T → T → T.

(** A tensor: element type, shape, and its element at an index.  The
    element at an index outside the shape is not meaningful. *)
Record Tensor (I : Type) : Type := mkTensor {
  dtype : Dtype;
  shape : list nat;
  val : I → T;
}.
Arguments mkTensor {I} _ _ _.
Arguments dtype {I} _.
Arguments shape {I} _.
Arguments val {I} _ _.

Abbreviation I1 := nat.
Abbreviation I2 := (nat * nat)%type.
Abbreviation I3 := (nat * nat * nat)%type.
Abbreviation I4 := (nat * nat * nat * nat)%type.

(** [t.shape[k]] *)
Definition size {I} (t : Tensor I) (k : nat) : nat := nth k (shape t) 0.

Definition is_complex {I} (t : Tensor I) : bool :=
  bool_decide (dtype t = Complex64).

(** [t.float()] and [t.to(dtype=d)] *)
Definition to {I} (d : Dtype) (t : Tensor I) : Tensor I :=
  mkTensor d (shape t) (λ i, cast d (val t i)).
Definition float {I} (t : Tensor I) : Tensor I := to Float32 t.

(** The sum of a contracted einsum index, over [range(n)]. *)
Definition sum_range (n : nat) (f : nat → T) : T :=
  fold_left (λ acc i, add acc (f i)) (seq 0 n) zero.

(** [t[:, :, idx]] *)
Definition select3 (t : Tensor I4) (idx : nat) : Tensor I3 :=
  mkTensor (dtype t) [size t 0; size t 1; size t 3]
           (λ '(b, d, n), val t (b, d, idx, n)).
Definition select2 (t : Tensor I3) (idx : nat) : Tensor I2 :=
  mkTensor (dtype t) [size t 0; size t 1] (λ '(b, d), val t (b, d, idx)).

(** [SSM.DiscA.forward]: [exp(einsum('bdl,dn->bdln', delta, A))] *)
Definition DiscA_forward (delta : Tensor I3) (A : Tensor I2) : Tensor I4 :=
  mkTensor (promote (dtype delta) (dtype A))
           [size delta 0; size delta 1; size delta 2; size A 1]
           (λ '(b, d, l, n), exp (mul (val delta (b, d, l)) (val A (d, n)))).

(** [SSM.DiscB.forward]: [einsum('bdl,bnl->bdln', delta, B)] *)
Definition DiscB_forward (delta : Tensor I3) (B : Tensor I3) : Tensor I4 :=
  mkTensor (promote (dtype delta) (dtype B))
           [size delta 0; size delta 1; size delta 2; size B 1]
           (λ '(b, d, l, n), mul (val delta (b, d, l)) (val B (b, n, l))).

(** [SSM.Hx.forward]:
    [deltaA * h + einsum('bdn,bd->bdn', deltaB, x)] *)
Definition Hx_forward (deltaA deltaB : Tensor I3) (x : Tensor I2)
    (h : Tensor I3) : Tensor I3 :=
  mkTensor (promote (promote (dtype deltaA) (dtype h))
                    (promote (dtype deltaB) (dtype x)))
           (shape deltaA)
           (λ '(b, d, n),
              add (mul (val deltaA (b, d, n)) (val h (b, d, n)))
                  (mul (val deltaB (b, d, n)) (val x (b, d)))).

(** [SSM.Yh.forward]: [einsum('bdn,bn->bd', h, C)], then
    [y.real * 2] when the result is complex. *)
Definition Yh_forward (h : Tensor I3) (C : Tensor I2) : Tensor I2 :=
  let y := mkTensor (promote (dtype h) (dtype C)) [size h 0; size h 1]
             (λ '(b, d),
                sum_range (size h 2)
                  (λ n, mul (val h (b, d, n)) (val C (b, n)))) in
  if is_complex y
  then mkTensor Float32 (shape y) (λ i, mul (real_part (val y i)) two)
  else y.

(** [torch.view_as_complex(rearrange(t.float(),
    "... (L two) -> ... L two", two=2))]: the last axis is read as
    (real, imaginary) pairs and has to be of even length. *)
Definition as_complex_pairs (t : Tensor I3) : Result (Tensor I3) :=
  if Nat.even (size t 2) then
    Ok (mkTensor Complex64 [size t 0; size t 1; size t 2 / 2]
          (λ '(b, n, l),
             complex_of (val (float t) (b, n, 2 * l))
                        (val (float t) (b, n, 2 * l + 1))))
  else Raised (RuntimeError "rearrange: shape mismatch").

(** [torch.stack(ys, dim=2)] *)
Definition stack2 (ys : list (Tensor I2)) : Result (Tensor I3) :=
  match ys with
  | [] => Raised (RuntimeError "stack expects a non-empty TensorList")
  | y0 :: _ =>
      Ok (mkTensor (foldr (λ y d, promote (dtype y) d) (dtype y0) ys)
            [size y0 0; size y0 1; length ys]
            (λ '(b, d, l),
               match ys !! l with
               | Some y => val y (b, d)
               | None => zero
               end))
  end.

(** The state of the token loop: [h], [ys], [last_state]. *)
Record LoopState : Type := mkLoop {
  loop_h : Tensor I3;
  loop_ys : list (Tensor I2);
  loop_last_state : option (Tensor I3);
}.

(** The body of [for token_idx in range(x.shape[2])]. *)
Definition loop_body (x : Tensor I3) (deltaA deltaB : Tensor I4)
    (C : Tensor I3) (st : LoopState) (token_idx : nat) : LoopState :=
  let h := Hx_forward (select3 deltaA token_idx) (select3 deltaB token_idx)
                      (select2 x token_idx) (loop_h st) in
  let y := Yh_forward h (select2 C token_idx) in
  mkLoop h (loop_ys st ++ [y])
         (if decide (token_idx = size x 2 - 1) then Some h
          else loop_last_state st).

(** What [forward] returns: [out], or the pair [(out, last_state)]. *)
Inductive Output : Type :=
| Out (out : Tensor I3)
| OutAndState (out : Tensor I3) (last_state : option (Tensor I3)).

(** [SSM.forward(x, delta, A, B, C, D=None, z=None,
    return_last_state=False)] *)
Definition forward (x delta : Tensor I3) (A : Tensor I2) (B C : Tensor I3)
    (D : option (Tensor I1)) (z : option (Tensor I3))
    (return_last_state : bool) : Result Output :=
  let dtype_in := dtype x in
  let x := float x in
  let delta := float delta in
  let batch := size x 0 in
  let dim := size A 0 in
  let dstate := size A 1 in
  match (if is_complex A
         then match as_complex_pairs B with
              | Raised e => Raised e
              | Ok B' => match as_complex_pairs C with
                         | Raised e => Raised e
                         | Ok C' => Ok (B', C')
                         end
              end
         else Ok (float B, float C)) with
  | Raised e => Raised e
  | Ok (B, C) =>
      let deltaA := DiscA_forward delta A in
      let deltaB := DiscB_forward delta B in
      let h0 := mkTensor (dtype A) [batch; dim; dstate] (λ _, zero) in
      let st := fold_left (loop_body x deltaA deltaB C)
                          (seq 0 (size x 2)) (mkLoop h0 [] None) in
      match stack2 (loop_ys st) with
      | Raised e => Raised e
      | Ok y =>
          let out :=
            match D with
            | None => y
            | Some D =>
                mkTensor (promote (dtype y) (promote (dtype x) (dtype D)))
                         (shape y)
                         (λ '(b, d, l),
                            add (val y (b, d, l))
                                (mul (val x (b, d, l)) (val D d)))
            end in
          let out :=
            match z with
            | None => out
            | Some z =>
                mkTensor (promote (dtype out) (dtype z)) (shape out)
                         (λ i, mul (val out i) (silu (val z i)))
            end in
          let out := to dtype_in out in
          Ok (if return_last_state
              then OutAndState out (loop_last_state st)
              else Out out)
      end
  end.

(** *** The recurrence in closed form

    The operands as [forward] prepares them, and the recurrence of the
    hidden state written by recursion on the number of tokens
    consumed: [hidden k] is the state after tokens [0 .. k-1]. *)
Definition deltaA_at (delta : Tensor I3) (A : Tensor I2) (i : I4) : T :=
  let '(b, d, l, n) := i in
  exp (mul (cast Float32 (val delta (b, d, l))) (val A (d, n))).

Definition deltaB_at (delta B : Tensor I3) (i : I4) : T :=
  let '(b, d, l, n) := i in
  mul (cast Float32 (val delta (b, d, l))) (val B (b, n, l)).

Fixpoint hidden (x delta : Tensor I3) (A : Tensor I2) (B : Tensor I3)
    (k : nat) (i : I3) : T :=
  match k with
  | 0 => zero
  | S t =>
      let '(b, d, n) := i in
      add (mul (deltaA_at delta A (b, d, t, n)) (hidden x delta A B t i))
          (mul (deltaB_at delta B (b, d, t, n))
               (cast Float32 (val x (b, d, t))))
  end.

(** The output of token [t]: the state after that token contracted
    with [C[:, :, t]], twice its real part when complex. *)
Definition emitted (x delta : Tensor I3) (A : Tensor I2) (B C : Tensor I3)
    (t : nat) (i : I2) : T :=
  let '(b, d) := i in
  let y := sum_range (size A 1)
             (λ n, mul (hidden x delta A B (S t) (b, d, n)) (val C (b, n, t))) in
  if is_complex A then mul (real_part y) two else y.

(** The stacked outputs with the skip term, the gate and the cast. *)
Definition out_at (x delta : Tensor I3) (A : Tensor I2) (B C : Tensor I3)
    (D : option (Tensor I1)) (z : option (Tensor I3)) (i : I3) : T :=
  let '(b, d, l) := i in
  let y := emitted x delta A B C l (b, d) in
  let o := match D with
           | None => y
           | Some D => add y (mul (cast Float32 (val x (b, d, l))) (val D d))
           end in
  let o := match z with
           | None => o
           | Some z => mul o (silu (val z (b, d, l)))
           end in
  cast (dtype x) o.

(** [B'] and [C'] are the operands [forward] works with: the tensors
    read as complex pairs when [A] is complex, their [float()] otherwise. *)
Definition prepared (A : Tensor I2) (B C B' C' : Tensor I3) : Prop :=
  if is_complex A
  then as_complex_pairs B = Ok B' ∧ as_complex_pairs C = Ok C'
  else B' = float B ∧ C' = float C.

(** Two tensors with the token axis in last position hold the same
    elements at every token up to [l]. *)
Definition agree_upto (l : nat) (t t' : Tensor I3) : Prop :=
  ∀ b d j, j ≤ l → val t (b, d, j) = val t' (b, d, j).

Definition agree_upto_opt (l : nat) (z z' : option (Tensor I3)) : Prop :=
  match z, z' with
  | Some t, Some t' => agree_upto l t t'
  | None, None => True
  | _, _ => False
  end.

End Scalars.

End SSM.

(* ===================================================================== *)
(** ** Vocabulary of the properties                                       *)
(* ===================================================================== *)

Module Props.

(** "Dropping the last two dot-separated components" of a key. *)
Definition drop_last_two_components (name : string) : string :=
  join_dot (reverse (drop 2 (reverse (split_dot name)))).

(** The planner's answer for a graph: the set of the keys of
    [argument_node_names], each without its last two components. *)
Definition planned_paths (g : Graph) : gset string :=
  set_map drop_last_two_components
          (list_to_set (argument_node_names g).*1 : gset string).

(** The module paths on which a stretch of the trace installs an
    activation hook of kind [w]. *)
Definition installed (w : HookWhen) (evs : list Event) : gset string :=
  list_to_set
    (omap (λ e, match e with
                | EvRegisterHook _ h =>
                    if is_intervene_hook w h then Some (attached_to h) else None
                | _ => None
                end) evs).

(** Events of real computation or instrumentation: a hook is installed,
    the user function starts, the local model runs forward. *)
Definition is_hook_or_run (e : Event) : bool :=
  match e with
  | EvRegisterHook _ _ | EvFn _ _ _ _ _ | EvForward _ | EvForwardAborted _ => true
  | _ => false
  end.

Definition is_load_local (e : Event) : bool :=
  match e with EvLoadLocal _ _ _ => true | _ => false end.

Definition is_run_meta (e : Event) : bool :=
  match e with EvRunMeta _ => true | _ => false end.

Definition is_forward (e : Event) : bool :=
  match e with EvForward _ => true | _ => false end.

Definition is_increment_registration (e : Event) : bool :=
  match e with
  | EvRegisterHook _ h => is_increment_hook h
  | _ => false
  end.

Definition count (p : Event → bool) (evs : list Event) : nat :=
  length (List.filter p evs).

(** How many times the hooks of a module call [graph.increment()] on
    graph [g] in one forward pass. *)
Definition increment_calls (g : nat) (hs : list (nat * Hook)) : nat :=
  length (List.filter (λ c, bool_decide (c = GraphIncrement g))
                      (concat (calls <$> hs.*2))).

Definition increments_of (g : nat) (m : TorchModule) : nat :=
  increment_calls g (hooks m).

(** The events a computation adds to the trace. *)
Definition trace_of {A} (m : M World A) (w : World) : list Event :=
  drop (length (log w)) (log (m w).2).

(** [m] keeps [R] between the store it starts in and the store it
    leaves, whether it returns or raises. *)
Definition preserves {S A} (R : S → S → Prop) (m : M S A) : Prop :=
  ∀ s, R s (m s).2.

(** Relations between the store before and after. *)
Definition extends_log (P : Event → Prop) (w w' : World) : Prop :=
  ∃ new, log w' = log w ++ new ∧ Forall P new.

Definition same {X} (f : World → X) (w w' : World) : Prop := f w' = f w.

(** The identity of the local model and its parameters' flags. *)
Definition local_identity (w : World) : option (nat * list bool) :=
  (λ m, (oid m, requires_grad m)) <$> local_model (self w).

(** Between [w] and [w']: the dispatched flag, the local model object and
    its [requires_grad] flags are the same, and neither a load of the
    local model nor a meta run happened. *)
Definition quiet (w w' : World) : Prop :=
  dispatched (self w') = dispatched (self w) ∧
  local_identity w' = local_identity w ∧
  extends_log (λ e, is_load_local e = false ∧ is_run_meta e = false) w w'.

End Props.
Export Props.

(* ===================================================================== *)
(** ** A small concrete environment                                       *)
(* ===================================================================== *)

Module Toy.

(** A model with two layers; when [mamba_ssm.models.mixer_seq_simple.Mamba]
    is bound to [MambaModuleInterp], each layer's mixer also has the
    submodules that class adds. *)
Definition base_paths : list string :=
  [""; "backbone"; "backbone.layers.0"; "backbone.layers.0.mixer";
   "backbone.layers.1"; "backbone.layers.1.mixer"; "lm_head"].

Definition interp_paths : list string :=
  ["backbone.layers.0.mixer.ssm"; "backbone.layers.0.mixer.dt";
   "backbone.layers.1.mixer.ssm"; "backbone.layers.1.mixer.dt"].

Definition model_class (config : PyVal) (k : list (string * PyVal))
    (ns : Namespace) : Tree * list bool :=
  (mkTree (list_to_set
             (base_paths ++
              if bool_decide (ns ("mamba_ssm.models.mixer_seq_simple", "Mamba")
                              = "MambaModuleInterp")
              then interp_paths else []))
          ∅,
   [true; true; true]).

Definition libs : Mamba.Libs :=
  Mamba.mkLibs (λ _, Ok (PStr "tokenizer")) (λ _, Ok (PInt 2))
               (λ _ _, Ok PNone) model_class (λ _ _ _, Ok tt) (λ x, Ok x).

(** Every attribute is bound to the object its library defines. *)
Definition namespace0 : Namespace := λ key, "original " +:+ key.2.

Definition blank : Model :=
  mkModel "" [] [] false false false None (mkAttrs PNone None) []
          (mkTree ∅ ∅).

Definition world0 : World := mkWorld blank namespace0 ∅ false (λ _, 0) 0 [].

(** A graph whose table names two layers. *)
Definition graph7 : Graph :=
  mkGraph 7
    [mkNode "backbone.layers.0_0" CallModule "backbone.layers.0" []]
    [("backbone.layers.0.output.0", ["n1"]);
     ("backbone.layers.1.input.0", ["n2"]);
     ("backbone.layers.0.input.0", ["n3"])].

(** A module built by the caller, with one trainable parameter. *)
Definition custom : TorchModule :=
  mkTorchModule 100 "Custom" (mkTree (list_to_set base_paths) ∅)
                [true; false] true [] 0.

(** A Mamba model made from a repository id, and one made from [custom]. *)
Definition lazy_world : World :=
  (AbstractModel.__init__ (impl := Mamba.adapter libs)
     (inl "state-spaces/mamba-130m") [] true PNone [] world0).2.

Definition custom_world : World :=
  (AbstractModel.__init__ (impl := Mamba.adapter libs)
     (inr custom) [] true PNone [] world0).2.

(** A user function that raises after one forward pass. *)
Definition failing_fn : UserFn := λ _ _ _, Forward (Throw (UserException 1)).

(** A graph whose table names a layer the model does not have. *)
Definition graph8 : Graph :=
  mkGraph 8 [] [("backbone.layers.9.output.0", ["n1"])].

Definition layer0 : Module :=
  mkModule "backbone.layers.0" 1 [1; 4] 
    (mkGraph 9 [mkNode "x_0" CallFunction "x" []] []).

(** The instance made from [custom] after
    [modulize(layer0, "x_0", "probe")]. *)
Definition edited_world : World :=
  (modulize layer0 "x_0" "probe" custom_world).2.

End Toy.

(* ===================================================================== *)
(** ** The loops of the run, read as functions                            *)
(* ===================================================================== *)

Module Pure.

(** The store after the local model has become [m'] and [evs] has been
    added to the trace. *)
Definition upd_world (m' : TorchModule) (evs : list Event) (w : World) : World :=
  set_log (log w ++ evs) (set_self (set_local_model (Some m') (self w)) w).

(** [Editor.__enter__]: the edits that went in before the first failure. *)
Fixpoint apply_edits (es : list Edit) (t : Tree)
    : Result unit * Tree * list Edit :=
  match es with
  | [] => (Ok tt, t, [])
  | e :: es' =>
      match edit e t with
      | Ok t' => let '(r, t'', applied) := apply_edits es' t' in
                 (r, t'', e :: applied)
      | Raised x => (Raised x, t, [])
      end
  end.

(** [Editor.__exit__] *)
Definition restore_edits (es : list Edit) (t : Tree) : Tree :=
  foldl (λ t e, restore_edit e t) t es.

Definition input_hook (p : string) (g : nat) : Hook :=
  mkHook p ForwardPre [CallIntervene p g "input"].
Definition output_hook (p : string) (g : nat) : Hook :=
  mkHook p ForwardPost [CallIntervene p g "output"].

(** [HookModel.__enter__] *)
Fixpoint hook_all (l : list string) (g : nat) (m : TorchModule)
    : Result (list nat) * TorchModule * list Event :=
  match l with
  | [] => (Ok [], m, [])
  | p :: rest =>
      if decide (p ∈ paths (tree m)) then
        let m1 := (register_hook (input_hook p g) m).2 in
        let m2 := (register_hook (output_hook p g) m1).2 in
        let '(r, m3, evs) := hook_all rest g m2 in
        (match r with
         | Ok hs => Ok (next_handle m :: next_handle m1 :: hs)
         | Raised e => Raised e
         end,
         m3,
         EvRegisterHook (next_handle m) (input_hook p g)
           :: EvRegisterHook (next_handle m1) (output_hook p g) :: evs)
      else (Raised (AttributeError p), m, [])
  end.

(** [HookModel.__exit__] *)
Definition unhook_all (handles : list nat) (m : TorchModule) : TorchModule :=
  foldl (λ m h, remove_hook h m) m handles.

(** The effect of the hooks of one forward pass on the step counters. *)
Definition fire_calls (cs : list CbCall) (st : nat → nat) : nat → nat :=
  foldl (λ st c, match c with
                 | GraphIncrement g => <[g := S (st g)]> st
                 | CallIntervene _ _ _ => st
                 end) st cs.

Definition fire_hooks (hs : list (nat * Hook)) (st : nat → nat) : nat → nat :=
  foldl (λ st ih, fire_calls (calls ih.2) st) st hs.

(** The user function on a local model [m]: its outcome, the step
    counters it leaves and the events of its forward passes. *)
Fixpoint play (s : Script) (m : TorchModule) (st : nat → nat)
    : Result PyVal * (nat → nat) * list Event :=
  match s with
  | Return out => (Ok out, st, [])
  | Throw e => (Raised e, st, [])
  | Forward k =>
      let '(r, st', evs) := play k m (fire_hooks (hooks m) st) in
      (r, st', EvForward (oid m) :: evs)
  | ForwardAbort e => (Raised e, st, [EvForwardAborted (oid m)])
  end.

(** The number of complete forward passes of a script. *)
Fixpoint passes (s : Script) : nat :=
  match s with
  | Forward k => S (passes k)
  | _ => 0
  end.

(** The body of the [with Editor] block on a local model [m]: its
    outcome, the local model it leaves, the events it adds and the step
    counters it leaves. *)
Definition increment_hook_of (g : Graph) : Hook :=
  mkHook "" ForwardPost [GraphIncrement (gid g)].

Definition modules_of (g : Graph) : gset string :=
  list_to_set (module_of_key <$> keys g).

Definition body_result (fn : UserFn) (inputs : PyVal) (g : Graph)
    (a : list PyVal) (inference : bool) (k : list (string * PyVal))
    (m : TorchModule) (st : nat → nat)
    : Result PyVal * TorchModule * list Event * (nat → nat) :=
  let ev_c := EvCompile (gid g) (oid m) (compile g (paths (tree m))) in
  match compile g (paths (tree m)) with
  | Raised e => (Raised e, m, [ev_c], st)
  | Ok _ =>
      let m1 := (register_hook (increment_hook_of g) m).2 in
      let m2 := set_training (negb inference) m1 in
      let '(rh, m3, evs_h) := hook_all (elements (modules_of g)) (gid g) m2 in
      let pre := [ev_c; EvRegisterHook (next_handle m) (increment_hook_of g)]
                   ++ evs_h in
      match rh with
      | Raised e => (Raised e, m3, pre, st)
      | Ok hs =>
          let '(rf, st', evs_f) := play (fn inputs a k) m3 st in
          let evs := pre ++ [EvFn inputs a k m3 inference] ++ evs_f
                         ++ (EvRemoveHook <$> hs) in
          match rf with
          | Raised e => (Raised e, unhook_all hs m3, evs, st')
          | Ok out =>
              (Ok out, remove_hook (next_handle m) (unhook_all hs m3),
               evs ++ [EvRemoveHook (next_handle m)], st')
          end
      end
  end.

(** The [with Editor(self, edits)] block as a whole. *)
Definition edited_result (fn : UserFn) (inputs : PyVal) (g : Graph)
    (a : list PyVal) (es : list Edit) (inference : bool)
    (k : list (string * PyVal)) (m : TorchModule) (st : nat → nat)
    : Result PyVal * TorchModule * list Event * (nat → nat) :=
  let '(re, t1, applied) := apply_edits es (tree m) in
  match re with
  | Raised e => (Raised e, set_tree t1 m, EvEdit <$> applied, st)
  | Ok _ =>
      let '(r, m', evs, st') :=
        body_result fn inputs g a inference k (set_tree t1 m) st in
      (r, set_tree (restore_edits es (tree m')) m',
       (EvEdit <$> applied) ++ evs ++ (EvRestore <$> es), st')
  end.

End Pure.
Export Pure.

Module After.

(** The store once the local model has become [m'], the events [evs]
    have been added to the trace, the step counters are [st] and the
    inference-mode flag is [im]; everything else is as in [w]. *)
Definition after (m' : TorchModule) (evs : list Event) (st : nat → nat)
    (im : bool) (w : World) : World :=
  mkWorld (set_local_model (Some m') (self w)) (namespace w)
          (REPOID_TO_ALTERATION w) im st (next_oid w) (log w ++ evs).

(** [Patcher.__enter__] and [Patcher.__exit__] on the attribute tables. *)
Definition enter_ns (ps : Patcher) (ns : Namespace) : Namespace :=
  foldl (λ ns p, <[(parent p, key p) := replacement p]> ns) ns ps.

Definition exit_ns (ps : Patcher) (ns : Namespace) : Namespace :=
  foldl (λ ns p, <[(parent p, key p) := orig p]> ns) ns ps.

(** The patches [with_alteration] applies in [w]. *)
Definition alteration_of (w : World) : Patcher :=
  if alter (self w)
  then default [] (REPOID_TO_ALTERATION w !! repoid_path_clsname (self w))
  else [].

(** The store after the local model has been loaded as [b]. *)
Definition loaded (b : Built) (w : World) : World :=
  mkWorld (set_local_model (Some (freeze (new_module (next_oid w) b))) (self w))
          (exit_ns (alteration_of w) (enter_ns (alteration_of w) (namespace w)))
          (REPOID_TO_ALTERATION w) (inference_mode w) (steps w)
          (S (next_oid w))
          (log w ++ [EvLoadLocal (repoid_path_clsname (self w)) (args (self w))
                                 (kwargs (self w))]).

(** The store after loading the local model has failed. *)
Definition load_failed (w : World) : World :=
  mkWorld (self w)
          (exit_ns (alteration_of w) (enter_ns (alteration_of w) (namespace w)))
          (REPOID_TO_ALTERATION w) (inference_mode w) (steps w) (next_oid w)
          (log w ++ [EvLoadLocal (repoid_path_clsname (self w)) (args (self w))
                                 (kwargs (self w))]).

End After.
Export After.

Module Life.

Definition is_call (o : Op) : bool :=
  match o with
  | Call _ _ _ _ _ _ _ => true
  | Modulize _ _ _ => false
  end.

(** The number of calls of [__call__] in a sequence of operations. *)
Definition calls_in (ops : list Op) : nat := length (List.filter is_call ops).

End Life.
Export Life.

Module EditProps.

(** What an applied edit has put in place in a module tree. *)
Definition in_place (e : Edit) (t : Tree) : Prop :=
  match e with
  | WrapperModuleEdit p n _ => child_path p n ∈ paths t
  | GraphEdit p gr => forwards t !! p = Some gr
  end.

Definition is_edit_event (e : Event) : bool :=
  match e with
  | EvEdit _ | EvRestore _ => true
  | _ => false
  end.

(** The two edits [modulize(module, node_name, module_name)] builds: the
    wrapper edit, and the graph edit on the module's graph extended by the
    node that gets the wrapper and the node that calls it on the data of
    [node_name]. *)
Definition wrapper_edit (module : Module) (module_name : string) : Edit :=
  WrapperModuleEdit (module_path module) module_name
    (mkWrapper (module_path module +:+ "." +:+ module_name)
               (tracer module) (output_shape module)).

Definition routed_graph (module : Module) (node_name_ module_name : string)
    : Graph :=
  mkGraph (gid (graph module))
    (nodes (graph module) ++
     [mkNode (module_name +:+ "_"
                +:+ pretty (length (filter (λ n, target n = module_name)
                                           (nodes (graph module)))))
             GetAttr module_name [];
      mkNode (module_name +:+ "_"
                +:+ pretty (S (length (filter (λ n, target n = module_name)
                                              (nodes (graph module))))))
             CallModule module_name [NodeRef node_name_]])
    (argument_node_names (graph module)).

Definition graph_edit (module : Module) (node_name_ module_name : string) : Edit :=
  GraphEdit (module_path module) (routed_graph module node_name_ module_name).

(** Between two stores the stored edit list has only grown at its end. *)
Definition edits_grow (w w' : World) : Prop :=
  ∃ more, edits (self w') = edits (self w) ++ more.

End EditProps.
Export EditProps.

Module RunProps.

(** What the user function is handed: a property of the module tree of the
    local model at the time the function is called. *)
Definition fn_sees (P : Tree → Prop) (e : Event) : Prop :=
  match e with
  | EvFn _ _ _ mm _ => P (tree mm)
  | _ => True
  end.

End RunProps.
Export RunProps.

Module PatchProps.

(** The binding [MambaInterp.__init__] replaces. *)
Definition mamba_class_key : string * string :=
  ("mamba_ssm.models.mixer_seq_simple", "Mamba").

(** The attribute tables with the four replacements of [Mamba._scan]. *)
Definition scan_patched (ns : Namespace) : Namespace :=
  <[("selective_scan_cuda", "fwd") := "blah3"]>
    (<[("causal_conv1d_cuda", "causal_conv1d_fwd") := "blah2"]>
       (<[("mamba_ssm.models.mixer_seq_simple", "rms_norm_fn") := "blah1"]>
          (<[("mamba_ssm.modules.mamba_simple", "rms_norm_fn") := "blah"]> ns))).

(** No registered alteration patches the binding [key0]. *)
Definition alterations_avoid (key0 : string * string) (w : World) : Prop :=
  map_Forall (λ _ ps, Forall (λ p, (parent p, key p) ≠ key0) ps)
             (REPOID_TO_ALTERATION w).

(** Between two stores the binding [key0] is the same (the table of
    alterations is, too), as long as no alteration patches it. *)
Definition keeps_binding (key0 : string * string) (w w' : World) : Prop :=
  REPOID_TO_ALTERATION w' = REPOID_TO_ALTERATION w ∧
  (alterations_avoid key0 w → namespace w' key0 = namespace w key0).

End PatchProps.
Export PatchProps.

Module ToySSM.

(** One batch, one channel, one state, two tokens, over the integers; the
    element-wise kernels are replaced by simple integer functions. *)
Definition x : SSM.Tensor Z (nat * nat * nat) :=
  SSM.mkTensor Z _ SSM.Float16 [1; 1; 2] (λ '(_, _, l), Z.of_nat (S l)).
Definition delta : SSM.Tensor Z (nat * nat * nat) :=
  SSM.mkTensor Z _ SSM.Float32 [1; 1; 2] (λ _, 1%Z).
Definition A : SSM.Tensor Z (nat * nat) :=
  SSM.mkTensor Z _ SSM.Float32 [1; 1] (λ _, 2%Z).
Definition B : SSM.Tensor Z (nat * nat * nat) :=
  SSM.mkTensor Z _ SSM.Float32 [1; 1; 2] (λ _, 1%Z).
Definition C : SSM.Tensor Z (nat * nat * nat) :=
  SSM.mkTensor Z _ SSM.Float32 [1; 1; 2] (λ _, 1%Z).
Definition D : SSM.Tensor Z nat :=
  SSM.mkTensor Z _ SSM.Float32 [1] (λ _, 3%Z).

Definition forward :=
  SSM.forward Z 0%Z 2%Z Z.add Z.mul (λ v, v) (λ v, v) (λ v, v) (λ _ v, v)
              (λ re _, re).

End ToySSM.

Module MambaProps.

(** [MambaLMHeadModel] builds the same object under attribute tables that
    hold the same bindings. *)
Definition reads_bindings (libs : Mamba.Libs) : Prop :=
  ∀ c k (ns ns' : Namespace),
    (∀ key0, ns key0 = ns' key0) →
    Mamba.MambaLMHeadModel libs c k ns = Mamba.MambaLMHeadModel libs c k ns'.

End MambaProps.
Export MambaProps.

Module ToyMore.

(** An input that agrees with [ToySSM.x] on the first token only. *)
Definition x2 : SSM.Tensor Z (nat * nat * nat) :=
  SSM.mkTensor Z _ SSM.Float16 [1; 1; 2]
    (λ '(_, _, l), match l with 0 => 1%Z | _ => 9%Z end).

(** The libraries when the weights cannot be fetched. *)
Definition offline_libs : Mamba.Libs :=
  Mamba.mkLibs (λ _, Ok (PStr "tokenizer")) (λ _, Ok (PInt 2))
               (λ _ _, Raised (RuntimeError "no weights")) Toy.model_class
               (λ _ _ _, Ok tt) (λ x, Ok x).

(** The instance made from [Toy.custom] after a run whose user function
    raised. *)
Definition after_failed_run : World :=
  (__call__ (impl := Mamba.adapter Toy.libs) Toy.failing_fn (PStr "in")
     Toy.graph7 [] None true [] Toy.custom_world).2.

(** An alteration registered for the repository id, built against the
    bindings of [Toy.namespace0], and the instance made under it. *)
Definition alteration0 : Patcher :=
  [mkPatch "mamba_ssm.ops" "slow_scan" "selective_scan_fn"
           "original selective_scan_fn"].

Definition altered_world : World :=
  (AbstractModel.__init__ (impl := Mamba.adapter Toy.libs)
     (inl "state-spaces/mamba-130m") [] true PNone []
     (mkWorld Toy.blank Toy.namespace0
              {[ "state-spaces/mamba-130m" := alteration0 ]}
              false (λ _, 0) 0 [])).2.

End ToyMore.

(* ===================================================================== *)
(** ** Reasoning about computations                                       *)
(* ===================================================================== *)

Section Preserve.

Context {S : Type} (R : S → S → Prop) `{!PreOrder R}.

Lemma preserves_ret {A} (a : A) : preserves R (mret a).
Proof. intros s. reflexivity. Qed.

Lemma preserves_raise {A} e : preserves R (@raise S A e).
Proof. intros s. reflexivity. Qed.

Lemma preserves_lift_result {A} (r : Result A) : preserves R (lift_result r).
Proof. intros s. reflexivity. Qed.

Lemma preserves_gets {A} (f : S → A) : preserves R (gets f).
Proof. intros s. reflexivity. Qed.

Lemma preserves_get : preserves R (@get S).
Proof. intros s. reflexivity. Qed.

Lemma preserves_modify (f : S → S) : (∀ s, R s (f s)) → preserves R (modify f).
Proof. intros H s. apply H. Qed.

Lemma preserves_bind {A B} (m : M S A) (k : A → M S B) :
  preserves R m → (∀ a, preserves R (k a)) → preserves R (m ≫= k).
Proof.
  intros Hm Hk s. unfold mbind, M_bind, bind.
  specialize (Hm s). destruct (m s) as [[a|e] s1]; simpl in *; [|done].
  etrans; [exact Hm | apply Hk].
Qed.

Lemma preserves_with {X A} (enter : M S X) (exit : X → M S unit)
    (body : X → M S A) :
  preserves R enter → (∀ x, preserves R (exit x)) → (∀ x, preserves R (body x)) →
  preserves R (with_ enter exit body).
Proof.
  intros He Hx Hb s. unfold with_.
  specialize (He s). destruct (enter s) as [[x|e] s1]; simpl in *; [|done].
  specialize (Hb x s1). destruct (body x s1) as [[a|e] s2]; simpl in *.
  - specialize (Hx x s2). destruct (exit x s2) as [[[]|e] s3]; simpl in *;
      (etrans; [exact He|]; etrans; [exact Hb | exact Hx]).
  - specialize (Hx x s2). destruct (exit x s2) as [[[]|e'] s3]; simpl in *;
      (etrans; [exact He|]; etrans; [exact Hb | exact Hx]).
Qed.

Lemma preserves_for {A} (l : list A) (f : A → M S unit) :
  (∀ x, preserves R (f x)) → preserves R (for_ l f).
Proof.
  intros Hf. induction l as [|x l IH]; simpl.
  - apply (preserves_ret tt).
  - apply (preserves_bind (f x) (λ _, for_ l f)); [apply Hf | intros _; exact IH].
Qed.

End Preserve.

#[export] Instance extends_log_preorder P : PreOrder (extends_log P).
Proof.
  split.
  - intros w. exists []. by rewrite app_nil_r.
  - intros w1 w2 w3 (n1 & E1 & F1) (n2 & E2 & F2).
    exists (n1 ++ n2). split; [by rewrite E2, E1, app_assoc|].
    by apply Forall_app.
Qed.

#[export] Instance same_preorder {X} (f : World → X) : PreOrder (same f).
Proof.
  split; [by intros w|]. intros w1 w2 w3 E1 E2. unfold same in *. congruence.
Qed.

Section WorldLeaves.

Context (R : World → World → Prop) `{!PreOrder R}.

Lemma preserves_the_local : preserves R the_local.
Proof. intros w. unfold the_local. by destruct (local_model (self w)). Qed.

Lemma preserves_alteration_or_empty : preserves R alteration_or_empty.
Proof. intros w. reflexivity. Qed.

Lemma preserves_upd_local f :
  (∀ w m, local_model (self w) = Some m →
          R w (set_self (set_local_model (Some (f m)) (self w)) w)) →
  preserves R (upd_local f).
Proof.
  intros H w. unfold upd_local.
  destruct (local_model (self w)) as [m|] eqn:E; simpl; [by apply H | reflexivity].
Qed.

Lemma preserves_on_namespace {A} (m : M Namespace A) :
  (∀ w ns, R w (set_namespace ns w)) → preserves R (on_namespace m).
Proof.
  intros H w. unfold on_namespace, zoom.
  destruct (m (namespace w)) as [r ns]. apply H.
Qed.

End WorldLeaves.

(** Structural decomposition of a computation down to its single store
    updates. *)
Ltac frame_step leaf :=
  lazymatch goal with
  | |- ∀ _, _ => intro
  | |- PreOrder _ => exact _
  | |- preserves _ (mret _) => apply preserves_ret
  | |- preserves _ (raise _) => apply preserves_raise
  | |- preserves _ (lift_result _) => apply preserves_lift_result
  | |- preserves _ (gets _) => apply preserves_gets
  | |- preserves _ get => apply preserves_get
  | |- preserves _ the_local => apply preserves_the_local
  | |- preserves _ alteration_or_empty => apply preserves_alteration_or_empty
  | |- preserves _ (_ ≫= _) => apply preserves_bind
  | |- preserves _ (with_ _ _ _) => apply preserves_with
  | |- preserves _ (for_ _ _) => apply preserves_for
  | |- preserves _ (modify _) => apply preserves_modify; intros ?; leaf
  | |- preserves _ (upd_local _) =>
      apply preserves_upd_local;
      lazymatch goal with
      | |- PreOrder _ => exact _
      | |- _ => intros ? ? ?; leaf
      end
  | |- preserves _ (on_namespace _) =>
      apply preserves_on_namespace;
      lazymatch goal with
      | |- PreOrder _ => exact _
      | |- _ => intros ? ?; leaf
      end
  | |- preserves _ (if ?b then _ else _) => destruct b
  | |- preserves _ (match ?x with _ => _ end) => destruct x
  end.

Ltac frame_with leaf := repeat (frame_step leaf).

Ltac unfold_run :=
  unfold __call__, load_local_model, run_body, with_alteration, Editor_enter,
    Editor_exit, HookModel_exit, call_fn, _register_increment_hook, register,
    handle_remove, inference_mode_enter, inference_mode_exit, forward_pass,
    fire, increment, emit, put_local, upd_self.

Section FrameRun.

Context (R : World → World → Prop) `{!PreOrder R}.

(** What has to be checked of [R] on single updates for it to hold
    across the run entry point. *)
Hypothesis R_log : ∀ w e, is_load_local e = false → is_run_meta e = false →
                          R w (set_log (log w ++ [e]) w).
Hypothesis R_local : ∀ w m m', local_model (self w) = Some m →
    oid m' = oid m → requires_grad m' = requires_grad m →
    R w (set_self (set_local_model (Some m') (self w)) w).
Hypothesis R_inference : ∀ w b, R w (set_inference_mode b w).
Hypothesis R_steps : ∀ w f, R w (set_steps f w).

Lemma frame_HookModel_enter l g : preserves R (HookModel_enter l g).
Proof.
  induction l as [|p l IH]; simpl.
  - apply (preserves_ret R).
  - unfold_run. frame_with ltac:(idtac); try exact IH;
      try (by apply R_log);
      by (eapply R_local; [eassumption | reflexivity | reflexivity]).
Qed.

Lemma frame_run_script s : preserves R (run_script s).
Proof.
  induction s as [out|e|k IH|e]; simpl; unfold_run;
    frame_with ltac:(idtac); try exact IH;
    try (by apply R_log); try (by apply R_steps).
Qed.

Lemma frame_with_editor {impl : Adapter} fn inputs g a edits_ inference k :
  preserves R (with_ (Editor_enter edits_) (λ _, Editor_exit edits_)
                     (λ _, run_body fn inputs g a inference k)).
Proof.
  unfold_run.
  frame_with ltac:(idtac);
    try apply frame_HookModel_enter; try apply frame_run_script;
    try (by apply R_log); try (by apply R_inference);
    by (eapply R_local; [eassumption | reflexivity | reflexivity]).
Qed.

End FrameRun.

(** *** What a run on a dispatched instance leaves alone *)

#[export] Instance quiet_preorder : PreOrder quiet.
Proof.
  split.
  - intros w. repeat split; reflexivity.
  - intros w1 w2 w3 (D1 & L1 & E1) (D2 & L2 & E2).
    repeat split; [congruence | congruence | by etrans].
Qed.

Lemma extends_log_same P w w' : log w' = log w → extends_log P w w'.
Proof. intros E. exists []. by rewrite app_nil_r. Qed.

Lemma extends_log_one (P : Event → Prop) w w' e :
  log w' = log w ++ [e] → P e → extends_log P w w'.
Proof. intros E HP. exists [e]. split; [done | by repeat constructor]. Qed.

Ltac quiet_leaf :=
  first
    [ by (repeat split; try reflexivity; by apply extends_log_same)
    | by (repeat split; try reflexivity;
          eapply extends_log_one; [reflexivity | by split]) ].

Lemma quiet_local_update w m m' :
  local_model (self w) = Some m → oid m' = oid m →
  requires_grad m' = requires_grad m →
  quiet w (set_self (set_local_model (Some m') (self w)) w).
Proof.
  intros E Ho Hr. repeat split; [|by apply extends_log_same].
  unfold local_identity. simpl. rewrite E. simpl. by rewrite Ho, Hr.
Qed.

Lemma with_editor_quiet {impl : Adapter} fn inputs g a edits_ inference k :
  preserves quiet (with_ (Editor_enter edits_) (λ _, Editor_exit edits_)
                         (λ _, run_body fn inputs g a inference k)).
Proof.
  apply frame_with_editor; try exact _.
  - intros w e H1 H2. quiet_leaf.
  - intros w m m'. apply quiet_local_update.
  - intros w b. quiet_leaf.
  - intros w f. quiet_leaf.
Qed.

(** A run on a dispatched instance is quiet. *)
Lemma call_dispatched_quiet {impl : Adapter} fn inputs g a edits_ inference k w :
  dispatched (self w) = true →
  quiet w (__call__ fn inputs g a edits_ inference k w).2.
Proof.
  intros D. unfold __call__, mbind, M_bind, bind, gets. simpl. rewrite D. simpl.
  apply with_editor_quiet.
Qed.

Lemma modulize_quiet {impl : Adapter} module node_name_ module_name :
  preserves quiet (modulize module node_name_ module_name).
Proof.
  unfold modulize, upd_self. frame_with quiet_leaf.
Qed.

(** [__call__] never writes [self.dispatched]. *)
Lemma call_keeps_dispatched {impl : Adapter} fn inputs g a edits_ inference k :
  preserves (same (λ w, dispatched (self w)))
            (__call__ fn inputs g a edits_ inference k).
Proof.
  unfold __call__.
  apply preserves_bind; [exact _ | apply preserves_gets; exact _ |].
  intros s. apply preserves_bind; [exact _ | |].
  - destruct (dispatched s); [apply preserves_ret; exact _|].
    unfold_run. frame_with ltac:(reflexivity).
  - intros _. apply frame_with_editor; try exact _; intros; reflexivity.
Qed.

(* ===================================================================== *)
(** ** The run computed step by step                                      *)
(* ===================================================================== *)

Lemma world_eta w :
  mkWorld (self w) (namespace w) (REPOID_TO_ALTERATION w) (inference_mode w)
          (steps w) (next_oid w) (log w) = w.
Proof. by destruct w. Qed.

Lemma model_eta s :
  mkModel (repoid_path_clsname s) (args s) (kwargs s) (alter s) (dispatched s)
          (custom_model s) (local_model s) (attrs s) (edits s) (meta_model s) = s.
Proof. by destruct s. Qed.

Lemma after_id w m :
  local_model (self w) = Some m →
  after m [] (steps w) (inference_mode w) w = w.
Proof.
  intros E. unfold after, set_local_model. rewrite <- E, model_eta, app_nil_r.
  apply world_eta.
Qed.

Lemma after_after m1 e1 st1 im1 m2 e2 st2 im2 w :
  after m2 e2 st2 im2 (after m1 e1 st1 im1 w) = after m2 (e1 ++ e2) st2 im2 w.
Proof. unfold after. simpl. by rewrite app_assoc. Qed.

Lemma local_after m e st im w : local_model (self (after m e st im w)) = Some m.
Proof. reflexivity. Qed.

Lemma steps_after m e st im w : steps (after m e st im w) = st.
Proof. reflexivity. Qed.

Lemma inference_mode_after m e st im w : inference_mode (after m e st im w) = im.
Proof. reflexivity. Qed.

Lemma log_after m e st im w : log (after m e st im w) = log w ++ e.
Proof. reflexivity. Qed.

Lemma set_tree_id m : set_tree (tree m) m = m.
Proof. by destruct m. Qed.

(** Every step of the run, on a store whose local model is [m]. *)
Section Steps.

Variables (w : World) (m : TorchModule).
Hypothesis E : local_model (self w) = Some m.

Lemma the_local_eq : the_local w = (Ok m, w).
Proof. unfold the_local. by rewrite E. Qed.

Lemma upd_local_eq f :
  upd_local f w = (Ok tt, after (f m) [] (steps w) (inference_mode w) w).
Proof.
  unfold upd_local. rewrite E. f_equal. unfold after. simpl.
  by rewrite app_nil_r.
Qed.

Lemma emit_eq e :
  emit e w = (Ok tt, after m [e] (steps w) (inference_mode w) w).
Proof.
  unfold emit, modify, after, set_log. f_equal. f_equal.
  unfold set_local_model. by rewrite <- E, model_eta.
Qed.

End Steps.

Ltac side := first [eassumption | reflexivity].

Ltac tidy :=
  cbv beta iota;
  rewrite ?after_after, ?steps_after, ?inference_mode_after, ?local_after.

Lemma register_eq w m h :
  local_model (self w) = Some m →
  register h w =
    (Ok (next_handle m),
     after (register_hook h m).2 [EvRegisterHook (next_handle m) h]
           (steps w) (inference_mode w) w).
Proof.
  intros E. unfold register, mbind, M_bind, bind.
  erewrite the_local_eq by side. tidy.
  erewrite upd_local_eq by side. tidy.
  erewrite emit_eq by side. tidy.
  reflexivity.
Qed.

Lemma handle_remove_eq w m h :
  local_model (self w) = Some m →
  handle_remove h w =
    (Ok tt, after (remove_hook h m) [EvRemoveHook h] (steps w) (inference_mode w) w).
Proof.
  intros E. unfold handle_remove, mbind, M_bind, bind.
  erewrite upd_local_eq by side. tidy.
  erewrite emit_eq by side. tidy.
  reflexivity.
Qed.

Lemma Editor_enter_eq es : ∀ w m,
  local_model (self w) = Some m →
  Editor_enter es w =
    ((apply_edits es (tree m)).1.1,
     after (set_tree (apply_edits es (tree m)).1.2 m)
           (EvEdit <$> (apply_edits es (tree m)).2) (steps w) (inference_mode w) w).
Proof.
  induction es as [|e es IH]; intros w m E.
  - simpl. rewrite set_tree_id. by rewrite after_id.
  - unfold Editor_enter. cbn [for_]. fold (Editor_enter es).
    unfold mbind, M_bind, bind.
    erewrite the_local_eq by side. tidy.
    unfold lift_result. cbn [apply_edits].
    destruct (edit e (tree m)) as [t'|x] eqn:Ee; tidy.
    + erewrite upd_local_eq by side. tidy.
      erewrite emit_eq by side. tidy.
      erewrite IH by side. tidy.
      change (tree (set_tree t' m)) with t'.
      destruct (apply_edits es t') as [[r t''] applied]. reflexivity.
    + cbn. rewrite set_tree_id. by rewrite after_id.
Qed.

Lemma Editor_exit_eq es : ∀ w m,
  local_model (self w) = Some m →
  Editor_exit es w =
    (Ok tt, after (set_tree (restore_edits es (tree m)) m) (EvRestore <$> es)
                  (steps w) (inference_mode w) w).
Proof.
  induction es as [|e es IH]; intros w m E.
  - simpl. rewrite set_tree_id. by rewrite after_id.
  - unfold Editor_exit. cbn [for_]. fold (Editor_exit es).
    unfold mbind, M_bind, bind.
    erewrite upd_local_eq by side. tidy.
    erewrite emit_eq by side. tidy.
    erewrite IH by side. tidy.
    reflexivity.
Qed.

Lemma HookModel_enter_eq l g : ∀ w m,
  local_model (self w) = Some m →
  HookModel_enter l g w =
    ((hook_all l g m).1.1,
     after (hook_all l g m).1.2 (hook_all l g m).2 (steps w) (inference_mode w) w).
Proof.
  induction l as [|p l IH]; intros w m E.
  - simpl. by rewrite after_id.
  - cbn [HookModel_enter hook_all]. unfold mbind, M_bind, bind.
    erewrite the_local_eq by side. tidy.
    destruct (decide (p ∈ paths (tree m))) as [Hin|Hnin].
    + unfold mret, M_ret, ret. tidy.
      erewrite register_eq by side. tidy.
      erewrite register_eq by side. tidy.
      erewrite IH by side. tidy.
      fold (input_hook p g) (output_hook p g).
      destruct (hook_all l g _) as [[[hs|e] m3] evs]; reflexivity.
    + unfold raise. cbn. by rewrite after_id.
Qed.

Lemma HookModel_exit_eq hs : ∀ w m,
  local_model (self w) = Some m →
  HookModel_exit hs w =
    (Ok tt, after (unhook_all hs m) (EvRemoveHook <$> hs)
                  (steps w) (inference_mode w) w).
Proof.
  induction hs as [|h hs IH]; intros w m E.
  - simpl. by rewrite after_id.
  - unfold HookModel_exit. cbn [for_]. fold (HookModel_exit hs).
    unfold mbind, M_bind, bind.
    erewrite handle_remove_eq by side. tidy.
    erewrite IH by side. tidy.
    reflexivity.
Qed.

Lemma increment_eq w m g :
  local_model (self w) = Some m →
  increment g w =
    (Ok tt, after m [] (<[g := S (steps w g)]> (steps w)) (inference_mode w) w).
Proof.
  intros E. unfold increment, modify, after, set_steps. f_equal.
  rewrite app_nil_r. f_equal. unfold set_local_model. by rewrite <- E, model_eta.
Qed.

Lemma fire_calls_eq cs : ∀ w m,
  local_model (self w) = Some m →
  for_ cs fire w =
    (Ok tt, after m [] (fire_calls cs (steps w)) (inference_mode w) w).
Proof.
  induction cs as [|c cs IH]; intros w m E.
  - simpl. by rewrite after_id.
  - cbn [for_]. unfold mbind, M_bind, bind. destruct c as [g|p g kind]; cbn [fire].
    + erewrite increment_eq by side. tidy. erewrite IH by side. tidy. reflexivity.
    + unfold mret, M_ret, ret. tidy. erewrite IH by side. reflexivity.
Qed.

Lemma fire_hooks_eq hs : ∀ w m,
  local_model (self w) = Some m →
  for_ hs (λ ih : nat * Hook, for_ (calls ih.2) fire) w =
    (Ok tt, after m [] (fire_hooks hs (steps w)) (inference_mode w) w).
Proof.
  induction hs as [|h hs IH]; intros w m E.
  - simpl. by rewrite after_id.
  - cbn [for_]. unfold mbind, M_bind, bind.
    erewrite fire_calls_eq by side. tidy. erewrite IH by side. tidy. reflexivity.
Qed.

Lemma forward_pass_eq w m :
  local_model (self w) = Some m →
  forward_pass w =
    (Ok tt, after m [EvForward (oid m)] (fire_hooks (hooks m) (steps w))
                  (inference_mode w) w).
Proof.
  intros E. unfold forward_pass, mbind, M_bind, bind.
  erewrite the_local_eq by side. tidy.
  erewrite emit_eq by side. tidy.
  erewrite fire_hooks_eq by side. tidy. reflexivity.
Qed.

Lemma run_script_eq s : ∀ w m,
  local_model (self w) = Some m →
  run_script s w =
    ((play s m (steps w)).1.1,
     after m (play s m (steps w)).2 (play s m (steps w)).1.2 (inference_mode w) w).
Proof.
  induction s as [out|e|k IH|e]; intros w m E; cbn [run_script play].
  - unfold mret, M_ret, ret. cbn. by rewrite after_id.
  - unfold raise. cbn. by rewrite after_id.
  - unfold mbind, M_bind, bind.
    erewrite forward_pass_eq by side. tidy.
    erewrite IH by side. tidy.
    destruct (play k m _) as [[r st'] evs]. reflexivity.
  - unfold mbind, M_bind, bind.
    erewrite the_local_eq by side. tidy.
    erewrite emit_eq by side. tidy. reflexivity.
Qed.

Lemma call_fn_eq fn inputs a k w m :
  local_model (self w) = Some m →
  call_fn fn inputs a k w =
    ((play (fn inputs a k) m (steps w)).1.1,
     after m (EvFn inputs a k m (inference_mode w)
                :: (play (fn inputs a k) m (steps w)).2)
           (play (fn inputs a k) m (steps w)).1.2 (inference_mode w) w).
Proof.
  intros E. unfold call_fn, mbind, M_bind, bind.
  erewrite the_local_eq by side. tidy.
  unfold gets. tidy.
  erewrite emit_eq by side. tidy.
  erewrite run_script_eq by side. tidy. reflexivity.
Qed.

Lemma inference_mode_enter_eq w m mode :
  local_model (self w) = Some m →
  inference_mode_enter mode w =
    (Ok (inference_mode w), after m [] (steps w) mode w).
Proof.
  intros E. unfold inference_mode_enter, mbind, M_bind, bind, gets, modify.
  tidy. unfold mret, M_ret, ret. f_equal.
  unfold set_inference_mode, after, set_local_model.
  by rewrite app_nil_r, <- E, model_eta.
Qed.

Lemma inference_mode_exit_eq w m prev :
  local_model (self w) = Some m →
  inference_mode_exit prev w = (Ok tt, after m [] (steps w) prev w).
Proof.
  intros E. unfold inference_mode_exit, modify. f_equal.
  unfold set_inference_mode, after, set_local_model.
  by rewrite app_nil_r, <- E, model_eta.
Qed.

(** The body of the [with Editor] block is [body_result]. *)
Lemma run_body_eq {impl : Adapter} fn inputs g a inference k w m :
  local_model (self w) = Some m →
  run_body fn inputs g a inference k w =
    let '(r, m', evs, st') := body_result fn inputs g a inference k m (steps w) in
    (r, after m' evs st' (inference_mode w) w).
Proof.
  intros E. unfold run_body, body_result, mbind, M_bind, bind.
  erewrite the_local_eq by side. tidy.
  erewrite emit_eq by side. tidy.
  unfold lift_result.
  destruct (compile g (paths (tree m))) as [[]|e]; tidy; [|reflexivity].
  unfold _register_increment_hook.
  erewrite register_eq by side. tidy.
  erewrite upd_local_eq by side. tidy.
  unfold with_.
  erewrite inference_mode_enter_eq by side. tidy.
  erewrite HookModel_enter_eq by side. tidy.
  fold (increment_hook_of g) (modules_of g).
  destruct (hook_all (elements (modules_of g)) (gid g) _) as [[[hs|e] m3] evs_h];
    cbn [fst snd]; tidy.
  - erewrite call_fn_eq by side. tidy.
    destruct (play (fn inputs a k) m3 (steps w)) as [[[out|e] st'] evs_f];
      cbn [fst snd]; tidy.
    + erewrite HookModel_exit_eq by side. tidy.
      erewrite inference_mode_exit_eq by side. tidy.
      erewrite handle_remove_eq by side. tidy.
      unfold mret, M_ret, ret. f_equal. f_equal.
      by rewrite !app_nil_r, <- !app_assoc.
    + erewrite HookModel_exit_eq by side. tidy.
      erewrite inference_mode_exit_eq by side. tidy.
      f_equal. f_equal.
      by rewrite !app_nil_r, <- !app_assoc.
  - erewrite inference_mode_exit_eq by side. tidy.
    f_equal. f_equal. by rewrite !app_nil_r, <- !app_assoc.
Qed.

(** The [with Editor] block is [edited_result]. *)
Lemma with_editor_eq {impl : Adapter} fn inputs g a es inference k w m :
  local_model (self w) = Some m →
  with_ (Editor_enter es) (λ _, Editor_exit es)
        (λ _, run_body fn inputs g a inference k) w =
    let '(r, m', evs, st') := edited_result fn inputs g a es inference k m (steps w) in
    (r, after m' evs st' (inference_mode w) w).
Proof.
  intros E. unfold with_, edited_result.
  erewrite Editor_enter_eq by side.
  destruct (apply_edits es (tree m)) as [[[[]|e] t1] applied]; cbn [fst snd]; tidy;
    [|reflexivity].
  erewrite run_body_eq by side. tidy.
  destruct (body_result fn inputs g a inference k (set_tree t1 m) (steps w))
    as [[[r m'] evs] st'].
  erewrite Editor_exit_eq by side. tidy.
  destruct r; reflexivity.
Qed.

(** *** Loading the local model *)

Lemma Patcher_enter_eq ps : ∀ ns, Patcher_enter ps ns = (Ok tt, enter_ns ps ns).
Proof.
  induction ps as [|p ps IH]; intros ns; [reflexivity|].
  unfold Patcher_enter. cbn [for_]. fold (Patcher_enter ps).
  unfold mbind, M_bind, bind, patch, modify. cbv beta iota. by rewrite IH.
Qed.

Lemma Patcher_exit_eq ps : ∀ ns, Patcher_exit ps ns = (Ok tt, exit_ns ps ns).
Proof.
  induction ps as [|p ps IH]; intros ns; [reflexivity|].
  unfold Patcher_exit. cbn [for_]. fold (Patcher_exit ps).
  unfold mbind, M_bind, bind, restore, modify. cbv beta iota. by rewrite IH.
Qed.

Lemma with_alteration_eq {A} (body : M World A) w :
  with_alteration body w =
    let '(r, w') := body (set_namespace (enter_ns (alteration_of w) (namespace w)) w) in
    (r, set_namespace (exit_ns (alteration_of w) (namespace w')) w').
Proof.
  unfold with_alteration, with_, mbind, M_bind, bind, alteration_or_empty.
  fold (alteration_of w). cbv beta iota.
  unfold on_namespace, zoom. rewrite Patcher_enter_eq. cbv beta iota.
  unfold mret, M_ret, ret. cbv beta iota.
  destruct (body _) as [[x|e] w2]; rewrite Patcher_exit_eq; reflexivity.
Qed.

Lemma load_local_model_eq {impl : Adapter} w :
  load_local_model w =
    match _load_local (repoid_path_clsname (self w)) (args (self w))
            (kwargs (self w)) (enter_ns (alteration_of w) (namespace w))
            (attrs (self w)) with
    | Ok b => (Ok tt, loaded b w)
    | Raised e => (Raised e, load_failed w)
    end.
Proof.
  unfold load_local_model. rewrite with_alteration_eq.
  unfold mbind, M_bind, bind, get, emit, modify, lift_result. cbv beta iota.
  cbn [self namespace set_log set_namespace next_oid].
  destruct (_load_local _ _ _ _ _) as [b|e]; cbv beta iota.
  - unfold put_local, upd_self, modify, upd_local. cbn. reflexivity.
  - reflexivity.
Qed.

(** What one call of [__call__] amounts to: either nothing but a failed
    load happens, or the [with Editor] block runs on a store [w1] whose
    local model is [m] — the store [w] itself when the instance is
    dispatched, the store after the load otherwise. *)
Lemma call_cases {impl : Adapter} fn inputs g a edits_ inference k w :
  let es := match edits_ with None => edits (self w) | Some es => es end in
  (∃ e w1 loads,
      __call__ fn inputs g a edits_ inference k w = (Raised e, w1) ∧
      log w1 = log w ++ loads ∧ steps w1 = steps w ∧ self w1 = self w ∧
      (if dispatched (self w)
       then local_model (self w) = None ∧ loads = []
       else loads = [EvLoadLocal (repoid_path_clsname (self w)) (args (self w))
                                 (kwargs (self w))])) ∨
  (∃ w1 m loads,
      local_model (self w1) = Some m ∧
      log w1 = log w ++ loads ∧ steps w1 = steps w ∧
      inference_mode w1 = inference_mode w ∧
      (if dispatched (self w)
       then w1 = w ∧ loads = []
       else (∃ b, w1 = loaded b w) ∧
            loads = [EvLoadLocal (repoid_path_clsname (self w)) (args (self w))
                                 (kwargs (self w))]) ∧
      __call__ fn inputs g a edits_ inference k w =
        (let '(r, m', evs, st') :=
           edited_result fn inputs g a es inference k m (steps w) in
         (r, after m' evs st' (inference_mode w) w1))).
Proof.
  intros es. unfold __call__, mbind, M_bind, bind, gets. cbv beta iota.
  fold es.
  destruct (dispatched (self w)) eqn:D.
  - change (@mret (M World) _ unit tt w) with (@Ok unit tt, w). cbv beta iota.
    destruct (local_model (self w)) as [m|] eqn:E.
    + right. exists w, m, []. rewrite app_nil_r.
      repeat split; try done.
      by rewrite (with_editor_eq _ _ _ _ _ _ _ _ _ E).
    + left. exists (AttributeError "local_model"), w, [].
      rewrite app_nil_r. repeat split; try done.
      unfold with_, Editor_enter, Editor_exit, run_body.
      destruct es as [|e0 es']; cbn [for_].
      * unfold mret, M_ret, ret, mbind, M_bind, bind, the_local. by rewrite E.
      * unfold mbind, M_bind, bind, the_local. by rewrite E.
  - rewrite load_local_model_eq.
    destruct (_load_local _ _ _ _ _) as [b|e]; cbv beta iota.
    + right. exists (loaded b w), (freeze (new_module (next_oid w) b)),
        [EvLoadLocal (repoid_path_clsname (self w)) (args (self w)) (kwargs (self w))].
      repeat split; try done; [by eexists|].
      by rewrite (with_editor_eq _ _ _ _ _ _ _ (loaded b w)
                    (freeze (new_module (next_oid w) b)) eq_refl).
    + left. exists e, (load_failed w),
        [EvLoadLocal (repoid_path_clsname (self w)) (args (self w)) (kwargs (self w))].
      repeat split; done.
Qed.

Lemma trace_of_app {A} (m : M World A) w evs :
  log (m w).2 = log w ++ evs → trace_of m w = evs.
Proof. intros E. unfold trace_of. rewrite E. apply drop_app_length. Qed.

(** [call_cases] with the outcome, the trace and the final store spelled
    out by projection. *)
Lemma call_inv {impl : Adapter} fn inputs g a edits_ inference k w :
  let es := match edits_ with None => edits (self w) | Some es => es end in
  let run := __call__ fn inputs g a edits_ inference k in
  (∃ e, (run w).1 = Raised e ∧ steps (run w).2 = steps w ∧
        self (run w).2 = self w ∧
        (if dispatched (self w)
         then local_model (self w) = None ∧ trace_of run w = []
         else trace_of run w =
                [EvLoadLocal (repoid_path_clsname (self w)) (args (self w))
                             (kwargs (self w))])) ∨
  (∃ w1 m loads,
      local_model (self w1) = Some m ∧
      (if dispatched (self w)
       then w1 = w ∧ loads = []
       else (∃ b, w1 = loaded b w) ∧
            loads = [EvLoadLocal (repoid_path_clsname (self w)) (args (self w))
                                 (kwargs (self w))]) ∧
      let res := edited_result fn inputs g a es inference k m (steps w) in
      (run w).1 = res.1.1.1 ∧
      local_model (self (run w).2) = Some res.1.1.2 ∧
      trace_of run w = loads ++ res.1.2 ∧
      steps (run w).2 = res.2 ∧
      inference_mode (run w).2 = inference_mode w ∧
      dispatched (self (run w).2) = dispatched (self w) ∧
      edits (self (run w).2) = edits (self w)).
Proof.
  intros es run.
  destruct (call_cases fn inputs g a edits_ inference k w)
    as [(e & w1 & loads & Hrun & Hlog & Hst & Hself & Hd)
       |(w1 & m & loads & Hm & Hlog & Hst & Him & Hd & Hrun)].
  - left. exists e. subst run. rewrite Hrun. cbn [fst snd].
    repeat split; try done.
    destruct (dispatched (self w)).
    + destruct Hd as [Hn ->]. split; [done|]. apply trace_of_app.
      by rewrite Hrun.
    + subst loads. apply trace_of_app. by rewrite Hrun.
  - right. exists w1, m, loads. split; [done|]. split; [done|].
    fold es in Hrun. subst run. cbv zeta. rewrite Hrun.
    destruct (edited_result fn inputs g a es inference k m (steps w))
      as [[[r m'] evs] st'].
    cbn [fst snd]. repeat split; try done.
    + apply trace_of_app. rewrite Hrun. cbn [snd]. rewrite log_after, Hlog.
      by rewrite app_assoc.
    + cbn. destruct (dispatched (self w)) eqn:D.
      * destruct Hd as [-> _]. by rewrite D.
      * destruct Hd as [[b ->] _]. by rewrite <- D.
    + cbn. destruct (dispatched (self w)).
      * by destruct Hd as [-> _].
      * by destruct Hd as [[b ->] _].
Qed.

(* ===================================================================== *)
(** ** Facts about the loops                                              *)
(* ===================================================================== *)

(** [HookModel.__enter__]: only the hook table grows; the hooks added are
    the input and output hook of a prefix [done] of the path list, all of
    it on success; one registration event per hook. *)
Lemma hook_all_spec l g : ∀ m r m' evs,
  hook_all l g m = (r, m', evs) →
  tree m' = tree m ∧ oid m' = oid m ∧ requires_grad m' = requires_grad m ∧
  training m' = training m ∧
  ∃ added done,
    hooks m' = hooks m ++ added ∧
    evs = (λ ih : nat * Hook, EvRegisterHook ih.1 ih.2) <$> added ∧
    added.*2 = done ≫= (λ p, [input_hook p g; output_hook p g]) ∧
    done `prefix_of` l ∧
    Forall (λ ih, next_handle m ≤ ih.1) added ∧
    (∀ hs, r = Ok hs → done = l ∧ hs = added.*1).
Proof.
  induction l as [|p l IH]; intros m r m' evs H; cbn [hook_all] in H.
  - injection H as <- <- <-. repeat split; try done.
    exists [], []. rewrite app_nil_r. repeat split; try done.
    by injection H as <-.
  - destruct (decide (p ∈ paths (tree m))) as [Hin|Hnin].
    + destruct (hook_all l g _) as [[r3 m3] evs3] eqn:H3.
      injection H as <- <- <-.
      apply IH in H3 as (Ht & Ho & Hr & Htr & added & done & Hh & Hev & Ha & Hp & Hfr & Hok).
      cbn in Ht, Ho, Hr, Htr, Hh.
      repeat split; try done.
      exists ((next_handle m, input_hook p g)
                :: (S (next_handle m), output_hook p g) :: added), (p :: done).
      split; [rewrite Hh; by rewrite <- !app_assoc|].
      split; [cbn; by rewrite Hev|].
      split; [cbn; by rewrite Ha|].
      split; [by apply prefix_cons|].
      split.
      { cbn in Hfr. repeat (apply Forall_cons_2; [cbn; lia|]).
        eapply Forall_impl; [exact Hfr|]. intros ? ?. cbn in *. lia. }
      intros hs Hr3. destruct r3 as [hs3|e]; [|done]. injection Hr3 as <-.
      by destruct (Hok hs3 eq_refl) as [-> ->].
    + injection H as <- <- <-. repeat split; try done.
      exists [], []. rewrite app_nil_r. repeat split; try done.
      apply prefix_nil.
Qed.

Lemma filter_all {A} (P : A → Prop) `{!∀ x, Decision (P x)} (l : list A) :
  (∀ x, P x) → filter P l = l.
Proof.
  intros HP. induction l as [|x l IH]; [done|].
  rewrite filter_cons_True by done. by rewrite IH.
Qed.

(** [HookModel.__exit__] and [handle.remove()]: only the hook table
    shrinks. *)
Lemma unhook_all_spec hs : ∀ m,
  tree (unhook_all hs m) = tree m ∧ oid (unhook_all hs m) = oid m ∧
  requires_grad (unhook_all hs m) = requires_grad m ∧
  training (unhook_all hs m) = training m ∧
  hooks (unhook_all hs m) = filter (λ ih, ih.1 ∉ hs) (hooks m).
Proof.
  induction hs as [|h hs IH]; intros m; cbn [unhook_all foldl].
  - repeat split. symmetry. apply filter_all. intros x. set_solver.
  - destruct (IH (remove_hook h m)) as (Ht & Ho & Hr & Htr & Hh).
    fold (unhook_all hs (remove_hook h m)).
    repeat split; try done.
    rewrite Hh. cbn [hooks remove_hook].
    rewrite list_filter_filter. apply list_filter_iff.
    intros [i x]. cbn. rewrite not_elem_of_cons. tauto.
Qed.

(** The user function: its events are forward passes of this model, and
    each complete pass advances the counter of [g] by the number of
    [graph.increment()] calls among the hooks. *)
Lemma fire_calls_at cs g : ∀ st,
  fire_calls cs st g =
    st g + length (List.filter (λ c, bool_decide (c = GraphIncrement g)) cs).
Proof.
  unfold fire_calls.
  induction cs as [|c cs IH]; intros st; simpl; [lia|].
  rewrite IH. destruct c as [g'|p g' kind].
  - destruct (decide (g' = g)) as [->|Hne].
    + rewrite fn_lookup_insert, bool_decide_eq_true_2 by done. simpl. lia.
    + rewrite fn_lookup_insert_ne by done.
      rewrite bool_decide_eq_false_2 by congruence. lia.
  - rewrite bool_decide_eq_false_2 by congruence. lia.
Qed.

Lemma fire_hooks_at hs g : ∀ st,
  fire_hooks hs st g = st g + increment_calls g hs.
Proof.
  unfold increment_calls, fire_hooks.
  induction hs as [|h hs IH]; intros st; simpl; [lia|].
  rewrite IH, fire_calls_at.
  rewrite List.filter_app, length_app, <- Nat.add_assoc. reflexivity.
Qed.

Lemma play_spec s g : ∀ m st,
  Forall (λ e, e = EvForward (oid m) ∨ e = EvForwardAborted (oid m))
         (play s m st).2 ∧
  (play s m st).1.2 g =
    st g + count is_forward (play s m st).2 * increments_of g m.
Proof.
  induction s as [out|e|k IH|e]; intros m st; cbn [play].
  - split; [constructor | cbn; lia].
  - split; [constructor | cbn; lia].
  - destruct (IH m (fire_hooks (hooks m) st)) as [HF Hs].
    destruct (play k m _) as [[r st'] evs]. cbn [fst snd] in *.
    split; [constructor; auto|].
    rewrite Hs, fire_hooks_at. unfold count, increments_of. cbn. lia.
  - split; [constructor; [by right | constructor] | cbn; lia].
Qed.

Lemma apply_edits_ok es : ∀ t t' applied,
  apply_edits es t = (Ok tt, t', applied) → applied = es.
Proof.
  induction es as [|e es IH]; intros t t' applied H; cbn [apply_edits] in H.
  - by injection H as <- <-.
  - destruct (edit e t) as [t1|x]; [|done].
    destruct (apply_edits es t1) as [[r t2] ap] eqn:E2.
    injection H as -> <- <-. f_equal. by eapply IH.
Qed.

(** The registration events of a list of hooks with their handles. *)
Abbreviation regs added :=
  ((λ ih : nat * Hook, EvRegisterHook ih.1 ih.2) <$> added).

(** The ways the [with Editor] block can go, with the local model, the
    events and the counters each one leaves. *)
Lemma edited_shape fn inputs g a es inference k m st :
  let res := edited_result fn inputs g a es inference k m st in
  (∃ e t1 applied,
      apply_edits es (tree m) = (Raised e, t1, applied) ∧
      res = (Raised e, set_tree t1 m, EvEdit <$> applied, st)) ∨
  (∃ t1,
      apply_edits es (tree m) = (Ok tt, t1, es) ∧
      let ev_c := EvCompile (gid g) (oid m) (compile g (paths t1)) in
      ((∃ e, compile g (paths t1) = Raised e ∧
             res = (Raised e, set_tree (restore_edits es t1) m,
                    (EvEdit <$> es) ++ [ev_c] ++ (EvRestore <$> es), st)) ∨
       (compile g (paths t1) = Ok tt ∧
        ∃ m3 added done,
          tree m3 = t1 ∧ oid m3 = oid m ∧ requires_grad m3 = requires_grad m ∧
          training m3 = negb inference ∧
          hooks m3 = hooks m ++ (next_handle m, increment_hook_of g) :: added ∧
          added.*2 = done ≫= (λ p, [input_hook p (gid g); output_hook p (gid g)]) ∧
          done `prefix_of` elements (modules_of g) ∧
          Forall (λ ih, next_handle m < ih.1) added ∧
          let pre := [ev_c; EvRegisterHook (next_handle m) (increment_hook_of g)]
                       ++ regs added in
          ((∃ e, res = (Raised e, set_tree (restore_edits es t1) m3,
                        (EvEdit <$> es) ++ pre ++ (EvRestore <$> es), st)) ∨
           (done = elements (modules_of g) ∧
            let p := play (fn inputs a k) m3 st in
            let evs := pre ++ [EvFn inputs a k m3 inference] ++ p.2
                           ++ (EvRemoveHook <$> added.*1) in
            match p.1.1 with
            | Raised e =>
                res = (Raised e,
                       set_tree (restore_edits es t1) (unhook_all added.*1 m3),
                       (EvEdit <$> es) ++ evs ++ (EvRestore <$> es), p.1.2)
            | Ok out =>
                res = (Ok out,
                       set_tree (restore_edits es t1)
                         (remove_hook (next_handle m) (unhook_all added.*1 m3)),
                       (EvEdit <$> es) ++ (evs ++ [EvRemoveHook (next_handle m)])
                         ++ (EvRestore <$> es), p.1.2)
            end))))).
Proof.
  intros res. subst res. unfold edited_result.
  destruct (apply_edits es (tree m)) as [[[[]|e] t1] applied] eqn:Ea.
  2:{ left. by exists e, t1, applied. }
  right. exists t1. pose proof (apply_edits_ok _ _ _ _ Ea) as ->.
  split; [done|]. cbv zeta.
  unfold body_result. cbn [tree set_tree oid].
  destruct (compile g (paths t1)) as [[]|e] eqn:Ec.
  2:{ left. exists e. split; [done|]. reflexivity. }
  right. split; [done|].
  destruct (hook_all _ _ _) as [[rh m3] evs_h] eqn:Eh.
  apply hook_all_spec in Eh
    as (Ht & Ho & Hr & Htr & added & done & Hh & Hev & Ha & Hp & Hfr & Hok).
  cbn in Hfr.
  cbn in Ht, Ho, Hr, Htr, Hh.
  exists m3, added, done. subst evs_h.
  repeat (split; [first [done | by rewrite Hh, <- app_assoc]|]).
  cbn [next_handle set_tree].
  destruct rh as [hs|e].
  - right. destruct (Hok hs eq_refl) as [-> ->]. split; [done|].
    destruct (play (fn inputs a k) m3 st) as [[[out|e] st'] evs_f]; cbn [fst snd].
    + destruct (unhook_all_spec added.*1 m3) as (Ht4 & _).
      f_equal. f_equal. f_equal. cbn. by rewrite Ht4, Ht.
    + destruct (unhook_all_spec added.*1 m3) as (Ht4 & _).
      f_equal. f_equal. f_equal. by rewrite Ht4, Ht.
  - left. exists e. f_equal. f_equal. f_equal. by rewrite Ht.
Qed.

(* ===================================================================== *)
(** ** Shapes of traces                                                   *)
(* ===================================================================== *)

(** In a list that starts with elements outside [P] followed by [c], an
    element inside [P] has [c] before it. *)
Lemma marker_before {A} (P : A → Prop) (l1 : list A) c rest :
  ∀ pre e post,
    Forall (λ x, ¬ P x) l1 → ¬ P c → P e →
    l1 ++ c :: rest = pre ++ e :: post → c ∈ pre.
Proof.
  induction l1 as [|x l1 IH]; intros pre e post Hl1 Hc He Heq.
  - destruct pre as [|y pre]; cbn in Heq.
    + injection Heq as -> _. done.
    + injection Heq as -> _. apply list_elem_of_here.
  - apply Forall_cons in Hl1 as [Hx Hl1].
    destruct pre as [|y pre]; cbn in Heq.
    + injection Heq as -> _. done.
    + injection Heq as -> Heq. apply list_elem_of_further. by eapply IH.
Qed.

Lemma not_in_by_forall {A} (P : A → Prop) (l : list A) x :
  Forall P l → ¬ P x → x ∉ l.
Proof. intros HF HP Hin. rewrite Forall_forall in HF. by apply HP, HF. Qed.

Lemma in_marked {A} (l1 l2 : list A) c x :
  x ∈ l1 ++ c :: l2 → Forall (λ y, y ≠ x) l1 → Forall (λ y, y ≠ x) l2 → x = c.
Proof.
  intros Hin H1 H2. apply elem_of_app in Hin as [Hin|Hin].
  - rewrite Forall_forall in H1. by destruct (H1 x Hin).
  - apply elem_of_cons in Hin as [Hin|Hin]; [done|].
    rewrite Forall_forall in H2. by destruct (H2 x Hin).
Qed.

(** Finding an element in a list put together with [++] and [::]. *)
Ltac find_in :=
  solve [ assumption
        | apply list_elem_of_here
        | apply list_elem_of_further; find_in
        | apply elem_of_app; left; find_in
        | apply elem_of_app; right; find_in ].

(** Decomposing [Forall] along the way a trace was put together. *)
Ltac ev_forall :=
  repeat first
    [ assumption
    | apply Forall_nil_2
    | apply Forall_app_2
    | apply Forall_cons_2
    | apply Forall_fmap; apply Forall_true; intros ? ].

Lemma play_events_impl (P : Event → Prop) s m st :
  (∀ o, P (EvForward o)) → (∀ o, P (EvForwardAborted o)) →
  Forall P (play s m st).2.
Proof.
  intros H1 H2. eapply Forall_impl; [apply (proj1 (play_spec s 0 m st))|].
  by intros e [-> | ->].
Qed.

(** The events of loading: none for a dispatched instance. *)
Lemma loads_shape w (w1 : World) (loads : list Event) (Q : Prop) :
  (if dispatched (self w)
   then Q ∧ loads = []
   else (∃ b : Built, w1 = loaded b w) ∧
        loads = [EvLoadLocal (repoid_path_clsname (self w)) (args (self w))
                             (kwargs (self w))]) →
  loads = [] ∨ ∃ r a k, loads = [EvLoadLocal r a k].
Proof. destruct (dispatched (self w)); intros [_ ->]; eauto. Qed.

(* ===================================================================== *)
(** ** The claims                                                         *)
(* ===================================================================== *)

(** Taking a call apart: the failed-load case, then the four ways the
    [with Editor] block can go. *)
Ltac call_split fn inputs g a edits_ inference k w :=
  let e := fresh "e" in let w1 := fresh "w1" in let m := fresh "m" in
  let loads := fresh "loads" in
  destruct (call_inv fn inputs g a edits_ inference k w)
    as [(e & Hres & Hsteps & Hself & Hload)
       |(w1 & m & loads & Hm & Hload & Hshape)];
  [| cbv zeta in Hshape;
     destruct Hshape as (Hres & Hlocal & Htrace & Hsteps & Him & Hdisp & Hedits);
     pose proof (loads_shape _ _ _ _ Hload) as Hloads;
     destruct (edited_shape fn inputs g
                 a (match edits_ with Some es => es | None => edits (self w) end)
                 inference k m (steps w))
       as [(e & t1 & applied & Happ & Heq)
          |(t1 & Happ &
            [(e & Hcomp & Heq)
            |(Hcomp & m3 & added & done & Ht3 & Ho3 & Hr3 & Htr3 & Hh3 & Hadd & Hpre & Hfresh &
              [(e & Heq) | (Hdone & Heq)])])];
     cbv zeta in Heq ].

(** C5: in every run through [AbstractModel.__call__], [graph.compile] on
    the local model comes before any hook is installed and before the user
    function runs or the local model is called: every such event of the
    run has a successful compile of this graph before it, and when the
    compile raises, the run raises that error and the trace of the run has
    no hook installation, no call of the user function and no forward
    pass. *)
Theorem C5_compile_precedes_hooks_and_run {impl : Adapter}
    fn inputs g a edits_ inference k w :
  let run := __call__ fn inputs g a edits_ inference k in
  (∀ pre e post, trace_of run w = pre ++ e :: post → is_hook_or_run e = true →
     ∃ o, EvCompile (gid g) o (Ok tt) ∈ pre) ∧
  (∀ o x, EvCompile (gid g) o (Raised x) ∈ trace_of run w →
     (run w).1 = Raised x ∧
     Forall (λ e, is_hook_or_run e = false) (trace_of run w)).
Proof.
  intros run. subst run.
  call_split fn inputs g a edits_ inference k w.
  - (* nothing but a load *)
    assert (Hq : Forall (λ e, is_hook_or_run e = false)
                   (trace_of (__call__ fn inputs g a edits_ inference k) w)).
    { destruct (dispatched (self w)); [destruct Hload as [_ ->] | rewrite Hload];
        by ev_forall. }
    split.
    + intros pre e0 post Heq He. rewrite Heq in Hq.
      apply Forall_app in Hq as [_ Hq]. apply Forall_cons in Hq as [Hq _].
      congruence.
    + intros o x Hin. exfalso. revert Hin.
      apply (not_in_by_forall (λ e, ∀ o x, e ≠ EvCompile (gid g) o (Raised x)));
        [|by intros Hn; eapply Hn].
      destruct (dispatched (self w)); [destruct Hload as [_ ->] | rewrite Hload];
        by ev_forall.
  - (* an edit could not be applied *)
    rewrite Heq in Htrace. cbn [fst snd] in Htrace.
    assert (Hq : Forall (λ e, is_hook_or_run e = false)
                   (trace_of (__call__ fn inputs g a edits_ inference k) w)).
    { rewrite Htrace. destruct Hloads as [->|(r' & a' & k' & ->)]; by ev_forall. }
    split.
    + intros pre e0 post Heq0 He. rewrite Heq0 in Hq.
      apply Forall_app in Hq as [_ Hq]. apply Forall_cons in Hq as [Hq _].
      congruence.
    + intros o x Hin. exfalso. revert Hin. rewrite Htrace.
      apply (not_in_by_forall (λ e, ∀ o x, e ≠ EvCompile (gid g) o (Raised x)));
        [|by intros Hn; eapply Hn].
      destruct Hloads as [->|(r' & a' & k' & ->)]; by ev_forall.
  - (* the compile raises *)
    rewrite Heq in Htrace, Hres. cbn [fst snd] in Htrace, Hres.
    assert (Hq : Forall (λ e, is_hook_or_run e = false)
                   (trace_of (__call__ fn inputs g a edits_ inference k) w)).
    { rewrite Htrace. destruct Hloads as [->|(r' & a' & k' & ->)]; by ev_forall. }
    split.
    + intros pre e0 post Heq0 He. rewrite Heq0 in Hq.
      apply Forall_app in Hq as [_ Hq]. apply Forall_cons in Hq as [Hq _].
      congruence.
    + intros o x Hin. split; [|done]. rewrite Hres.
      rewrite Htrace, Hcomp, app_assoc in Hin. cbn [app] in Hin.
      apply in_marked in Hin; [by injection Hin as _ ->| |by ev_forall].
      destruct Hloads as [->|(r' & a' & k' & ->)]; by ev_forall.
  - (* a hook could not be installed *)
    rewrite Heq in Htrace. cbn [fst snd] in Htrace. rewrite Hcomp in Htrace.
    split.
    + intros pre e0 post Heq0 He. exists (oid m).
      rewrite Htrace in Heq0. rewrite app_assoc in Heq0. cbn [app] in Heq0.
      eapply (marker_before (λ e, is_hook_or_run e = true)); [| | exact He | exact Heq0].
      * destruct Hloads as [->|(r' & a' & k' & ->)]; by ev_forall.
      * done.
    + intros o x Hin. exfalso. revert Hin. rewrite Htrace.
      apply (not_in_by_forall (λ e, ∀ o x, e ≠ EvCompile (gid g) o (Raised x)));
        [|by intros Hn; eapply Hn].
      destruct Hloads as [->|(r' & a' & k' & ->)]; by ev_forall.
  - (* the user function ran *)
    assert (Htr : ∃ rest,
      trace_of (__call__ fn inputs g a edits_ inference k) w =
        (loads ++ (EvEdit <$> match edits_ with Some es => es | None => edits (self w) end))
          ++ EvCompile (gid g) (oid m) (Ok tt) :: rest ∧
      Forall (λ e, ∀ o x, e ≠ EvCompile (gid g) o (Raised x)) rest).
    { rewrite Htrace.
      destruct (play (fn inputs a k) m3 (steps w)) as [[[out|e] st'] evs_f] eqn:Ep;
        cbn [fst snd] in Heq; rewrite Heq; cbn [fst snd]; rewrite Hcomp;
        (eexists; split; [rewrite <- !app_assoc; cbn [app]; reflexivity|]);
        pose proof (play_events_impl
                      (λ e, ∀ o x, e ≠ EvCompile (gid g) o (Raised x))
                      (fn inputs a k) m3 (steps w)) as Hp;
        rewrite Ep in Hp; cbn [snd] in Hp;
        ev_forall; try done; by apply Hp. }
    destruct Htr as (rest & Htr & Hrest).
    split.
    + intros pre e0 post Heq0 He. exists (oid m). rewrite Htr in Heq0.
      eapply (marker_before (λ e, is_hook_or_run e = true)); [| | exact He | exact Heq0].
      * destruct Hloads as [->|(r' & a' & k' & ->)]; by ev_forall.
      * done.
    + intros o x Hin. exfalso. rewrite Htr in Hin.
      apply in_marked in Hin; [done| |].
      * destruct Hloads as [->|(r' & a' & k' & ->)]; by ev_forall.
      * eapply Forall_impl; [exact Hrest|]. intros e0 He0 ->. by eapply He0.
Qed.

Lemma C5_witness :
  (__call__ (impl := Mamba.adapter Toy.libs) (Mamba._forward (PStr "out"))
     (PStr "in") Toy.graph8 [] None true [] Toy.custom_world).1
    = Raised (UnresolvedDependencyError "backbone.layers.9") ∧
  Forall (λ e, is_hook_or_run e = false)
    (trace_of (__call__ (impl := Mamba.adapter Toy.libs)
                 (Mamba._forward (PStr "out")) (PStr "in") Toy.graph8 [] None
                 true []) Toy.custom_world).
Proof.
  apply (proj2 (C5_compile_precedes_hooks_and_run (impl := Mamba.adapter Toy.libs)
                  (Mamba._forward (PStr "out")) (PStr "in") Toy.graph8 [] None
                  true [] Toy.custom_world) 100).
  vm_compute. apply list_elem_of_here.
Defined.

(** C8: whenever [AbstractModel.__call__] calls the user function, the
    local model has been put in eval mode and inference mode is enabled
    when [inference] is true, and the local model is in train mode and
    inference mode is disabled when [inference] is false; the inputs and
    the extra positional and keyword arguments reach the user function
    unchanged; a run that returns has called the user function; and a run
    with [edits=None] is the run with the model's own stored edit list. *)
Theorem C8_modes_and_forwarding {impl : Adapter}
    fn inputs g a edits_ inference k w :
  let run := __call__ fn inputs g a edits_ inference k in
  (∀ i a' k' mm im, EvFn i a' k' mm im ∈ trace_of run w →
     i = inputs ∧ a' = a ∧ k' = k ∧
     training mm = negb inference ∧ im = inference) ∧
  (∀ out, (run w).1 = Ok out →
     ∃ mm, EvFn inputs a k mm inference ∈ trace_of run w) ∧
  __call__ fn inputs g a None inference k w =
    __call__ fn inputs g a (Some (edits (self w))) inference k w.
Proof.
  intros run. subst run. split; [|split; [|reflexivity]].
  - set (P := λ e, ∀ i a' k' mm im, e = EvFn i a' k' mm im →
                   i = inputs ∧ a' = a ∧ k' = k ∧
                   training mm = negb inference ∧ im = inference).
    enough (Forall P (trace_of (__call__ fn inputs g a edits_ inference k) w)) as HF.
    { intros i a' k' mm im Hin. rewrite Forall_forall in HF.
      by eapply (HF _ Hin). }
    call_split fn inputs g a edits_ inference k w.
    + destruct (dispatched (self w)); [destruct Hload as [_ ->] | rewrite Hload];
        by ev_forall.
    + rewrite Htrace, Heq. cbn [fst snd].
      destruct Hloads as [->|(r' & a0 & k0 & ->)]; by ev_forall.
    + rewrite Htrace, Heq. cbn [fst snd].
      destruct Hloads as [->|(r' & a0 & k0 & ->)]; by ev_forall.
    + rewrite Htrace, Heq. cbn [fst snd].
      destruct Hloads as [->|(r' & a0 & k0 & ->)]; by ev_forall.
    + rewrite Htrace.
      pose proof (play_events_impl P (fn inputs a k) m3 (steps w)) as Hp.
      destruct (play (fn inputs a k) m3 (steps w)) as [[[out|e] st'] evs_f];
        cbn [fst snd] in Heq, Hp; rewrite Heq; cbn [fst snd];
        (destruct Hloads as [->|(r' & a0 & k0 & ->)]; ev_forall; try done;
         try (by apply Hp);
         by intros ? ? ? ? ? [= <- <- <- <- <-]).
  - intros out Hok.
    call_split fn inputs g a edits_ inference k w; rewrite Hres in Hok;
      try (rewrite Heq in Hok; cbn [fst snd] in Hok; congruence); try congruence.
    exists m3. rewrite Htrace.
    destruct (play (fn inputs a k) m3 (steps w)) as [[[out'|e] st'] evs_f];
      cbn [fst snd] in Heq; rewrite Heq in Hok |- *; cbn [fst snd] in Hok |- *;
      [|congruence].
    find_in.
Qed.

Lemma C8_witness :
  ∃ mm, EvFn (PStr "in") [PInt 1] [("max_length", PInt 3)] mm true
        ∈ trace_of (__call__ (impl := Mamba.adapter Toy.libs)
                      (Mamba._forward (PStr "out")) (PStr "in") Toy.graph7
                      [PInt 1] None true [("max_length", PInt 3)])
                   Toy.custom_world.
Proof.
  apply (proj1 (proj2 (C8_modes_and_forwarding (impl := Mamba.adapter Toy.libs)
                         (Mamba._forward (PStr "out")) (PStr "in") Toy.graph7
                         [PInt 1] None true [("max_length", PInt 3)]
                         Toy.custom_world)) (PStr "out")).
  vm_compute. reflexivity.
Defined.

(** *** The planner and the hooks *)

Lemma module_of_key_spec name :
  module_of_key name = drop_last_two_components name.
Proof.
  unfold module_of_key, drop_last_two_components, slice_to_minus2.
  by rewrite drop_reverse, reverse_involutive.
Qed.

Lemma planned_paths_eq g : planned_paths g = modules_of g.
Proof.
  unfold planned_paths, modules_of, keys.
  rewrite <- list_to_set_fmap_L. f_equal.
  apply list_fmap_ext. intros _ x _. symmetry. apply module_of_key_spec.
Qed.

Lemma elem_of_List_filter {A} (f : A → bool) (l : list A) x :
  x ∈ List.filter f l ↔ x ∈ l ∧ f x = true.
Proof. rewrite !list_elem_of_In. apply List.filter_In. Qed.

Lemma elem_of_installed w evs p :
  p ∈ installed w evs ↔
  ∃ id h, EvRegisterHook id h ∈ evs ∧ is_intervene_hook w h = true ∧
          attached_to h = p.
Proof.
  unfold installed. rewrite elem_of_list_to_set, list_elem_of_omap. split.
  - intros (e & Hin & He). destruct e as [| | | | |id h| | | |]; try done.
    destruct (is_intervene_hook w h) eqn:Hi; [|done].
    injection He as <-. by exists id, h.
  - intros (id & h & Hin & Hi & <-). exists (EvRegisterHook id h).
    split; [done|]. by rewrite Hi.
Qed.

Lemma elem_of_hooked_paths w m p :
  p ∈ hooked_paths w m ↔
  ∃ h, h ∈ (hooks m).*2 ∧ is_intervene_hook w h = true ∧ attached_to h = p.
Proof.
  unfold hooked_paths. rewrite elem_of_list_to_set, list_elem_of_fmap. split.
  - intros (h & -> & Hin). apply elem_of_List_filter in Hin as [Hin Hi]. eauto.
  - intros (h & Hin & Hi & <-). exists h. split; [done|].
    by apply elem_of_List_filter.
Qed.

(** The hooks [HookModel] adds for a list of paths. *)
Lemma elem_of_hook_pairs g (done : list string) h :
  h ∈ done ≫= (λ p, [input_hook p g; output_hook p g]) ↔
  ∃ p, p ∈ done ∧ (h = input_hook p g ∨ h = output_hook p g).
Proof.
  rewrite list_elem_of_bind. split.
  - intros (p & Hh & Hp). exists p. split; [done|].
    apply elem_of_cons in Hh as [->|Hh]; [by left|].
    apply list_elem_of_singleton in Hh as ->. by right.
  - intros (p & Hp & [-> | ->]); exists p; (split; [|done]).
    + apply list_elem_of_here.
    + apply list_elem_of_further, list_elem_of_here.
Qed.

Lemma regs_elem_of (added : list (nat * Hook)) id h :
  EvRegisterHook id h ∈ regs added ↔ (id, h) ∈ added.
Proof.
  rewrite list_elem_of_fmap. split.
  - intros ([i x] & [= -> ->] & Hin). done.
  - intros Hin. by exists (id, h).
Qed.

(** The registrations of [HookModel] are on planned paths, and on all of
    them once every path of the list has been handled. *)
Lemma regs_on_planned g (added : list (nat * Hook)) (done : list string) kind :
  added.*2 = done ≫= (λ p, [input_hook p (gid g); output_hook p (gid g)]) →
  done `prefix_of` elements (modules_of g) →
  Forall (λ e, ∀ id h, e = EvRegisterHook id h →
               is_intervene_hook kind h = true →
               attached_to h ∈ planned_paths g) (regs added).
Proof.
  intros Hadd Hpre. apply Forall_forall. intros e Hin id h -> Hi.
  apply regs_elem_of in Hin.
  assert (h ∈ added.*2) as Hh by (apply list_elem_of_fmap; by exists (id, h)).
  rewrite Hadd in Hh. apply elem_of_hook_pairs in Hh as (p & Hp & Hh).
  assert (attached_to h = p) as -> by (by destruct Hh as [-> | ->]).
  rewrite planned_paths_eq. apply elem_of_elements. by eapply elem_of_prefix.
Qed.

Lemma planned_registered g (added : list (nat * Hook)) kind p :
  added.*2 = elements (modules_of g)
               ≫= (λ p, [input_hook p (gid g); output_hook p (gid g)]) →
  p ∈ planned_paths g →
  ∃ id h, (id, h) ∈ added ∧ is_intervene_hook kind h = true ∧ attached_to h = p.
Proof.
  intros Hadd Hp. rewrite planned_paths_eq in Hp. apply elem_of_elements in Hp.
  set (h := match kind with
            | ForwardPre => input_hook p (gid g)
            | ForwardPost => output_hook p (gid g)
            end).
  assert (h ∈ added.*2) as Hh.
  { rewrite Hadd. apply elem_of_hook_pairs. exists p. split; [done|].
    subst h. destruct kind; [by left | by right]. }
  apply list_elem_of_fmap in Hh as ([id h'] & Hheq & Hin). cbn in Hheq. subst h'.
  exists id, h. split; [done|]. subst h. by destruct kind.
Qed.



(** *** Counting events and step-counter hooks *)

Lemma count_app p (l1 l2 : list Event) :
  count p (l1 ++ l2) = count p l1 + count p l2.
Proof. unfold count. by rewrite List.filter_app, length_app. Qed.

Lemma count_zero p (l : list Event) :
  Forall (λ e, p e = false) l → count p l = 0.
Proof.
  unfold count. induction 1 as [|e l He _ IH]; [done|].
  cbn. by rewrite He.
Qed.

Lemma count_cons p e (l : list Event) :
  count p (e :: l) = (if p e then 1 else 0) + count p l.
Proof. unfold count. cbn. by destruct (p e). Qed.

Lemma increment_calls_app g (l1 l2 : list (nat * Hook)) :
  increment_calls g (l1 ++ l2) = increment_calls g l1 + increment_calls g l2.
Proof.
  unfold increment_calls.
  by rewrite !fmap_app, concat_app, List.filter_app, length_app.
Qed.

Lemma increment_calls_zero g (l : list (nat * Hook)) :
  increment_calls g l = 0 ↔ Forall (λ ih, GraphIncrement g ∉ calls ih.2) l.
Proof.
  induction l as [|[i h] l IH].
  - split; [constructor | done].
  - change ((i, h) :: l) with ([(i, h)] ++ l).
    rewrite increment_calls_app, Forall_app, <- IH, Forall_singleton.
    cbn [snd].
    enough (increment_calls g [(i, h)] = 0 ↔ GraphIncrement g ∉ calls h) as Hone.
    { rewrite <- Hone. split; [intros ?; split; lia | intros [-> ->]; lia]. }
    unfold increment_calls. cbn. rewrite app_nil_r.
    induction (calls h) as [|c cs IHc]; cbn.
    + split; [intros _; apply not_elem_of_nil | done].
    + rewrite not_elem_of_cons. destruct (bool_decide_reflect (c = GraphIncrement g)).
      * cbn. split; [done | intros [? _]; congruence].
      * rewrite IHc. split; [by split | by intros [_ ?]].
Qed.

Lemma hook_pairs_no_increment g g' (added : list (nat * Hook)) (done : list string) :
  added.*2 = done ≫= (λ p, [input_hook p g'; output_hook p g']) →
  Forall (λ ih, GraphIncrement g ∉ calls ih.2) added.
Proof.
  intros Hadd. apply Forall_forall. intros [i h] Hin. cbn.
  assert (h ∈ added.*2) as Hh by (apply list_elem_of_fmap; by exists (i, h)).
  rewrite Hadd in Hh. apply elem_of_hook_pairs in Hh as (p & _ & [-> | ->]); cbn;
    rewrite list_elem_of_singleton; congruence.
Qed.

Lemma hook_pairs_not_increment g' (added : list (nat * Hook)) (done : list string) :
  added.*2 = done ≫= (λ p, [input_hook p g'; output_hook p g']) →
  Forall (λ e, is_increment_registration e = false) (regs added).
Proof.
  intros Hadd. apply Forall_fmap, Forall_forall. intros [i h] Hin. cbn.
  assert (h ∈ added.*2) as Hh by (apply list_elem_of_fmap; by exists (i, h)).
  rewrite Hadd in Hh. by apply elem_of_hook_pairs in Hh as (p & _ & [-> | ->]).
Qed.

(** The model a run works on carries no hook that advances the counter
    of [g], when the instance had none (a model just loaded has no hooks
    at all). *)
Lemma run_model_clean w w1 m g (loads : list Event) :
  (∀ m, dispatched (self w) = true → local_model (self w) = Some m →
        increments_of g m = 0) →
  local_model (self w1) = Some m →
  (if dispatched (self w)
   then w1 = w ∧ loads = []
   else (∃ b, w1 = loaded b w) ∧
        loads = [EvLoadLocal (repoid_path_clsname (self w)) (args (self w))
                             (kwargs (self w))]) →
  increments_of g m = 0.
Proof.
  intros H Hm Hload. destruct (dispatched (self w)) eqn:D.
  - destruct Hload as [-> _]. by apply H.
  - destruct Hload as [[b ->] _]. cbn in Hm. by injection Hm as <-.
Qed.



(* ===================================================================== *)
(** ** The life of an instance                                            *)
(* ===================================================================== *)

Lemma call_log {impl : Adapter} fn inputs g a edits_ inference k w :
  log (__call__ fn inputs g a edits_ inference k w).2 =
    log w ++ trace_of (__call__ fn inputs g a edits_ inference k) w.
Proof.
  destruct (call_cases fn inputs g a edits_ inference k w)
    as [(e & w1 & loads & Hrun & Hlog & _)
       |(w1 & m & loads & Hm & Hlog & _ & _ & _ & Hrun)].
  - rewrite (trace_of_app _ _ loads); by rewrite Hrun.
  - destruct (edited_result _ _ _ _ _ _ _ _ _) as [[[r m'] evs] st'].
    rewrite (trace_of_app _ _ (loads ++ evs)); rewrite Hrun; cbn [snd];
      by rewrite log_after, Hlog, app_assoc.
Qed.

(** The [with Editor] block neither loads the local model nor runs the
    meta model. *)
Lemma edited_events_quiet fn inputs g a es inference k m st :
  Forall (λ e, is_load_local e = false ∧ is_run_meta e = false)
         (edited_result fn inputs g a es inference k m st).1.2.
Proof.
  destruct (edited_shape fn inputs g a es inference k m st)
    as [(e & t1 & applied & Happ & Heq)
       |(t1 & Happ &
         [(e & Hcomp & Heq)
         |(Hcomp & m3 & added & done & Ht3 & Ho3 & Hr3 & Htr3 & Hh3 & Hadd & Hpre & Hfresh &
           [(e & Heq) | (Hdone & Heq)])])];
    cbv zeta in Heq.
  - rewrite Heq. by ev_forall.
  - rewrite Heq. by ev_forall.
  - rewrite Heq. by ev_forall.
  - pose proof (play_events_impl
                  (λ e, is_load_local e = false ∧ is_run_meta e = false)
                  (fn inputs a k) m3 st) as Hp.
    destruct (play (fn inputs a k) m3 st) as [[[out|e] st'] evs_f];
      cbn [fst snd] in Heq, Hp; rewrite Heq; cbn [fst snd];
      ev_forall; try done; by apply Hp.
Qed.

(** One call: the dispatched flag stays, no meta run happens, and the
    local model is loaded exactly when the instance is not dispatched. *)
Lemma call_loads {impl : Adapter} fn inputs g a edits_ inference k w :
  let tr := trace_of (__call__ fn inputs g a edits_ inference k) w in
  dispatched (self (__call__ fn inputs g a edits_ inference k w).2)
    = dispatched (self w) ∧
  count is_run_meta tr = 0 ∧
  count is_load_local tr = if dispatched (self w) then 0 else 1.
Proof.
  intros tr. subst tr.
  pose proof (edited_events_quiet fn inputs g a
                (match edits_ with Some es => es | None => edits (self w) end)
                inference k) as Hq.
  destruct (call_inv fn inputs g a edits_ inference k w)
    as [(e & Hres & Hsteps & Hself & Hload)
       |(w1 & m & loads & Hm & Hload & Hshape)].
  - rewrite Hself. split; [done|].
    destruct (dispatched (self w)); [destruct Hload as [_ ->] | rewrite Hload];
      by split.
  - cbv zeta in Hshape.
    destruct Hshape as (_ & _ & Htrace & _ & _ & Hdisp & _).
    split; [done|]. rewrite Htrace, !count_app.
    specialize (Hq m (steps w)).
    rewrite (count_zero is_run_meta (edited_result _ _ _ _ _ _ _ _ _).1.2)
      by (eapply Forall_impl; [exact Hq | by intros ? [_ ?]]).
    rewrite (count_zero is_load_local (edited_result _ _ _ _ _ _ _ _ _).1.2)
      by (eapply Forall_impl; [exact Hq | by intros ? [? _]]).
    destruct (dispatched (self w)); destruct Hload as [_ ->]; by split.
Qed.

Lemma modulize_log {impl : Adapter} module node_name_ module_name :
  preserves (same log) (modulize module node_name_ module_name).
Proof. unfold modulize, upd_self. frame_with ltac:(reflexivity). Qed.

(** The calls of [__call__] in a sequence of operations. *)
Lemma lifetime_app {impl : Adapter} ops1 ops2 w :
  lifetime (ops1 ++ ops2) w = lifetime ops2 (lifetime ops1 w).
Proof. unfold lifetime. apply fold_left_app. Qed.

(** On a dispatched instance nothing is ever loaded, and the local model
    stays the object it is, with its flags. *)
Lemma lifetime_quiet {impl : Adapter} ops : ∀ w,
  dispatched (self w) = true → quiet w (lifetime ops w).
Proof.
  induction ops as [|o ops IH]; intros w D; [reflexivity|].
  cbn [lifetime fold_left]. fold (lifetime ops (step w o)).
  assert (quiet w (step w o)) as Hq.
  { destruct o; cbn [step]; [by apply call_dispatched_quiet | apply modulize_quiet]. }
  etrans; [exact Hq|]. apply IH. destruct Hq as (-> & _). done.
Qed.

Lemma bind_inv {S A B} (m : M S A) (k : A → M S B) s r s' :
  (m ≫= k) s = (r, s') →
  (∃ a s1, m s = (Ok a, s1) ∧ k a s1 = (r, s')) ∨
  (∃ e, m s = (Raised e, s') ∧ r = Raised e).
Proof.
  unfold mbind, M_bind, bind. destruct (m s) as [[a|e] s1]; intros H.
  - left. by exists a, s1.
  - right. injection H as <- <-. by exists e.
Qed.

Lemma preserves_same {X A} (f : World → X) (m : M World A) s r s' :
  preserves (same f) m → m s = (r, s') → f s' = f s.
Proof. intros H E. specialize (H s). by rewrite E in H. Qed.

Lemma preserves_same_log {A} (m : M World A) s r s' :
  preserves (same log) m → m s = (r, s') → log s' = log s.
Proof. intros H E. specialize (H s). by rewrite E in H. Qed.

(** Construction: the meta run happens at most once, and once when the
    constructor returns. *)
Lemma init_meta_run {impl : Adapter} model a alter_ tok k w0 :
  let tr := trace_of (__init__ model a alter_ tok k) w0 in
  (tr = [] ∨ tr = [EvRunMeta (PStr "_")]) ∧
  (is_ok (__init__ model a alter_ tok k w0).1 = true → tr = [EvRunMeta (PStr "_")]).
Proof.
  intros tr. subst tr.
  destruct (__init__ model a alter_ tok k w0) as [r w'] eqn:E.
  enough (∃ evs, log w' = log w0 ++ evs ∧
                 (evs = [] ∨ evs = [EvRunMeta (PStr "_")]) ∧
                 (is_ok r = true → evs = [EvRunMeta (PStr "_")]))
    as (evs & Hlog & Hevs & Hok).
  { rewrite (trace_of_app _ _ evs) by by rewrite E. done. }
  unfold __init__ in E.
  apply bind_inv in E as [([] & s1 & E1 & E)|(e & E1 & ->)].
  2:{ exists []. rewrite app_nil_r. split; [|by split; [left|]].
      eapply preserves_same_log; [|exact E1]. frame_with ltac:(reflexivity). }
  apply (preserves_same_log _ w0) in E1; [|frame_with ltac:(reflexivity)].
  apply bind_inv in E as [([] & s2 & E2 & E)|(e & E2 & ->)].
  2:{ exists []. rewrite app_nil_r, <- E1. split; [|by split; [left|]].
      eapply preserves_same_log; [|exact E2].
      unfold upd_self. frame_with ltac:(reflexivity). }
  apply (preserves_same_log _ s1) in E2;
    [|unfold upd_self; frame_with ltac:(reflexivity)].
  apply bind_inv in E as [([] & s3 & E3 & E)|(e & E3 & ->)].
  2:{ exists []. rewrite app_nil_r, <- E1, <- E2. split; [|by split; [left|]].
      eapply preserves_same_log; [|exact E3].
      unfold with_alteration, upd_self. frame_with ltac:(reflexivity). }
  apply (preserves_same_log _ s2) in E3;
    [|unfold with_alteration, upd_self; frame_with ltac:(reflexivity)].
  apply bind_inv in E as [([] & s4 & E4 & E)|(e & E4 & ->)]; [|done].
  injection E4 as <-.
  apply (preserves_same_log _ _) in E; [|frame_with ltac:(reflexivity)].
  exists [EvRunMeta (PStr "_")]. rewrite E. cbn. rewrite E3, E2, E1.
  split; [done|]. by split; [right|].
Qed.

(** C2 (what the code does): the meta run happens once, in the
    constructor, and never afterwards; but [__call__] never sets
    [self.dispatched], so an instance made from a repository id stays
    undispatched for life and every call of [__call__] loads the local
    model again: after any sequence of operations the number of loads is
    the number of calls of [__call__]. *)
Theorem C2_lazy_model_is_loaded_on_every_call {impl : Adapter} ops : ∀ w,
  dispatched (self w) = false →
  dispatched (self (lifetime ops w)) = false ∧
  count is_load_local (log (lifetime ops w))
    = count is_load_local (log w) + calls_in ops ∧
  count is_run_meta (log (lifetime ops w)) = count is_run_meta (log w).
Proof.
  induction ops as [|o ops IH]; intros w D.
  - cbn. repeat split; [done | unfold calls_in; cbn; lia].
  - cbn [lifetime fold_left]. fold (lifetime ops (step w o)).
    assert (dispatched (self (step w o)) = false ∧
            count is_load_local (log (step w o))
              = count is_load_local (log w) + (if is_call o then 1 else 0) ∧
            count is_run_meta (log (step w o)) = count is_run_meta (log w))
      as (D' & Hl & Hm).
    { destruct o as [fn inputs g a edits_ inference k|module nn mn]; cbn [step is_call].
      - destruct (call_loads fn inputs g a edits_ inference k w) as (Hd & Hmeta & Hload).
        rewrite call_log, !count_app, Hmeta, Hload, Hd, D. repeat split; lia.
      - pose proof (modulize_quiet module nn mn w) as (Hd & _ & _).
        pose proof (modulize_log module nn mn w) as Hlog. unfold same in Hlog.
        rewrite Hlog, Hd. repeat split; [done | lia]. }
    destruct (IH _ D') as (Hd & Hl' & Hm').
    split; [done|]. rewrite Hl', Hl, Hm', Hm. split; [|done].
    unfold calls_in. cbn [List.filter]. destruct (is_call o); cbn; lia.
Qed.

Lemma C2_witness :
  dispatched (self Toy.lazy_world) = false ∧
  count is_load_local
    (log (lifetime (impl := Mamba.adapter Toy.libs)
            [Call (Mamba._forward (PStr "out")) (PStr "in") Toy.graph7 [] None true [];
             Call (Mamba._forward (PStr "out")) (PStr "in") Toy.graph7 [] None true []]
            Toy.lazy_world)) = 2.
Proof.
  split; [reflexivity|].
  destruct (C2_lazy_model_is_loaded_on_every_call (impl := Mamba.adapter Toy.libs)
              [Call (Mamba._forward (PStr "out")) (PStr "in") Toy.graph7 [] None true [];
               Call (Mamba._forward (PStr "out")) (PStr "in") Toy.graph7 [] None true []]
              Toy.lazy_world eq_refl) as (_ & H & _).
  rewrite H. reflexivity.
Defined.

(** C9: when [__call__] loads the local model itself, every parameter of
    the model the user function sees has [requires_grad] False; when the
    instance is built from a module, that very object is [local_model], the
    instance starts dispatched, and through every later call of [__call__]
    and [modulize] the local model stays that object with its
    [requires_grad] flags as they were, and is never loaded. *)
Theorem C9_requires_grad {impl : Adapter} :
  (∀ fn inputs g a edits_ inference k w,
     dispatched (self w) = false →
     ∀ i a' k' mm im,
       EvFn i a' k' mm im ∈ trace_of (__call__ fn inputs g a edits_ inference k) w →
       Forall (λ b, b = false) (requires_grad mm)) ∧
  (∀ (m : TorchModule) a alter_ tok k w0 ops,
     let w1 := (__init__ (inr m) a alter_ tok k w0).2 in
     local_model (self w1) = Some m ∧
     dispatched (self w1) = true ∧
     local_identity (lifetime ops w1) = Some (oid m, requires_grad m) ∧
     count is_load_local (log (lifetime ops w1)) = count is_load_local (log w1)).
Proof.
  split.
  - intros fn inputs g a edits_ inference k w D.
    set (Q := λ e, ∀ i a' k' mm im, e = EvFn i a' k' mm im →
                   Forall (λ b, b = false) (requires_grad mm)).
    enough (Forall Q (trace_of (__call__ fn inputs g a edits_ inference k) w)) as HF.
    { intros i a' k' mm im Hin. rewrite Forall_forall in HF. by eapply (HF _ Hin). }
    call_split fn inputs g a edits_ inference k w.
    + rewrite D in Hload. rewrite Hload. by ev_forall.
    + rewrite Htrace, Heq. cbn [fst snd].
      destruct Hloads as [->|(r' & a0 & k0 & ->)]; by ev_forall.
    + rewrite Htrace, Heq. cbn [fst snd].
      destruct Hloads as [->|(r' & a0 & k0 & ->)]; by ev_forall.
    + rewrite Htrace, Heq. cbn [fst snd].
      destruct Hloads as [->|(r' & a0 & k0 & ->)]; by ev_forall.
    + assert (Forall (λ b, b = false) (requires_grad m3)) as Hflags.
      { rewrite Hr3. rewrite D in Hload. destruct Hload as [[b ->] _].
        cbn in Hm. injection Hm as <-. cbn.
        apply Forall_fmap, Forall_true. by intros ?. }
      pose proof (play_events_impl Q (fn inputs a k) m3 (steps w)) as Hp.
      rewrite Htrace.
      destruct (play (fn inputs a k) m3 (steps w)) as [[[out|e] st'] evs_f];
        cbn [fst snd] in Heq, Hp; rewrite Heq; cbn [fst snd];
        (destruct Hloads as [->|(r' & a0 & k0 & ->)]; ev_forall; try done;
         try (by apply Hp); by intros ? ? ? ? ? [= <- <- <- <- <-]).
  - intros m a alter_ tok k w0 ops w1.
    assert (local_model (self w1) = Some m ∧ dispatched (self w1) = true)
      as [Hl Hd].
    { subst w1.
      destruct (__init__ (inr m) a alter_ tok k w0) as [r w'] eqn:E. cbn [snd].
      unfold __init__ in E.
      apply bind_inv in E as [([] & s1 & E1 & E)|(e & E1 & ->)]; [|done].
      injection E1 as <-.
      apply bind_inv in E as [([] & s2 & E2 & E)|(e & E2 & ->)]; [|done].
      injection E2 as <-.
      apply (preserves_same (λ w, (local_model (self w), dispatched (self w))))
        in E.
      - by injection E as -> ->.
      - unfold with_alteration, upd_self, emit. frame_with ltac:(reflexivity). }
    split; [done|]. split; [done|].
    destruct (lifetime_quiet ops w1 Hd) as (_ & Hid & (new & Hlog & Hnew)).
    split.
    + rewrite Hid. unfold local_identity. by rewrite Hl.
    + rewrite Hlog, count_app, (count_zero _ new); [lia|].
      eapply Forall_impl; [exact Hnew|]. by intros ? [? _].
Qed.

Lemma C9_witness :
  dispatched (self Toy.lazy_world) = false ∧
  ∃ mm, EvFn (PStr "in") [] [] mm true
          ∈ trace_of (__call__ (impl := Mamba.adapter Toy.libs)
                        (Mamba._forward (PStr "out")) (PStr "in") Toy.graph7 []
                        None true []) Toy.lazy_world ∧
        Forall (λ b, b = false) (requires_grad mm).
Proof.
  split; [reflexivity|]. eexists. split; [vm_compute; find_in|].
  eapply (proj1 (C9_requires_grad (impl := Mamba.adapter Toy.libs))
            (Mamba._forward (PStr "out")) (PStr "in") Toy.graph7 [] None true []
            Toy.lazy_world eq_refl).
  vm_compute. find_in.
Defined.

(* ===================================================================== *)
(** ** Release of what a run acquires                                     *)
(* ===================================================================== *)

(** C1 (what the code does): when a run raises after the user function
    was called — the user function or a node evaluation inside a forward
    pass failed — every input and output hook the run installed is removed
    and every edit it applied is reverted, but the increment hook it
    registered is never removed: [increment_hook.remove()] is an ordinary
    statement after the [with] blocks and is skipped by the exception, so
    the hook is still in the hook table of the local model when
    [__call__] has raised. *)
Theorem C1_failed_run_keeps_increment_hook {impl : Adapter}
    fn inputs g a edits_ inference k w e i a' k' mm im :
  let run := __call__ fn inputs g a edits_ inference k in
  let tr := trace_of run w in
  (run w).1 = Raised e →
  EvFn i a' k' mm im ∈ tr →
  (∀ id h kind, EvRegisterHook id h ∈ tr → is_intervene_hook kind h = true →
                EvRemoveHook id ∈ tr) ∧
  (∀ ed, EvEdit ed ∈ tr → EvRestore ed ∈ tr) ∧
  ∃ id m',
    EvRegisterHook id (mkHook "" ForwardPost [GraphIncrement (gid g)]) ∈ tr ∧
    (EvRemoveHook id ∉ tr) ∧
    local_model (self (run w).2) = Some m' ∧
    (id, mkHook "" ForwardPost [GraphIncrement (gid g)]) ∈ hooks m'.
Proof.
  intros run tr Hraised Hfn. subst run tr.
  assert (∀ l, Forall (λ ev, ∀ i a' k' mm im, ev ≠ EvFn i a' k' mm im) l →
               EvFn i a' k' mm im ∉ l) as Hno.
  { intros l Hl. eapply (not_in_by_forall _ _ _ Hl). by intros Hn; eapply Hn. }
  call_split fn inputs g a edits_ inference k w.
  - exfalso. revert Hfn. apply Hno.
    destruct (dispatched (self w)); [destruct Hload as [_ ->] | rewrite Hload];
      by ev_forall.
  - exfalso. revert Hfn. apply Hno. rewrite Htrace, Heq. cbn [fst snd].
    destruct Hloads as [->|(r' & a0 & k0 & ->)]; by ev_forall.
  - exfalso. revert Hfn. apply Hno. rewrite Htrace, Heq. cbn [fst snd].
    destruct Hloads as [->|(r' & a0 & k0 & ->)]; by ev_forall.
  - exfalso. revert Hfn. apply Hno. rewrite Htrace, Heq. cbn [fst snd].
    destruct Hloads as [->|(r' & a0 & k0 & ->)]; by ev_forall.
  - set (es := match edits_ with Some es => es | None => edits (self w) end) in *.
    pose proof (play_spec (fn inputs a k) 0 m3 (steps w)) as [Hplay _].
    destruct (play (fn inputs a k) m3 (steps w)) as [[[out|e'] st'] evs_f];
      cbn [fst snd] in Heq, Hplay;
      rewrite Heq in Hres, Htrace, Hlocal; cbn [fst snd] in Hres, Htrace, Hlocal;
      [congruence|].
    assert (next_handle m ∉ added.*1) as Hnh.
    { intros ([i0 h0] & Hi0 & Hin)%list_elem_of_fmap. cbn in Hi0. subst i0.
      rewrite Forall_forall in Hfresh. specialize (Hfresh _ Hin). cbn in Hfresh. lia. }
    assert (Forall (λ ev, ev = EvForward (oid m3) ∨ ev = EvForwardAborted (oid m3))
              evs_f) as Hf by done.
    split; [|split].
    + intros id h kind Hin Hi.
      assert (id ∈ added.*1) as Hid.
      { set (P := λ ev, ∀ id h kind, ev = EvRegisterHook id h →
                        is_intervene_hook kind h = true → id ∈ added.*1).
        assert (Forall P (regs added)) as HPr.
        { apply Forall_fmap, Forall_forall. intros [i0 h0] Hin0 ? ? ? [= <- <-] _.
          apply list_elem_of_fmap. by exists (i0, h0). }
        assert (Forall P evs_f) as HPf.
        { eapply Forall_impl; [exact Hf|]. by intros ? [-> | ->]. }
        enough (Forall P (trace_of (__call__ fn inputs g a edits_ inference k) w))
          as HF by (rewrite Forall_forall in HF; by eapply (HF _ Hin)).
        rewrite Htrace.
        destruct Hloads as [->|(r' & a0 & k0 & ->)]; ev_forall; try done;
          intros ? ? [] [= <- <-] Hi'; by cbn in Hi'. }
      rewrite Htrace.
      assert (EvRemoveHook id ∈ EvRemoveHook <$> added.*1)
        by by apply list_elem_of_fmap_2.
      find_in.
    + intros ed Hin.
      assert (ed ∈ es) as Hed.
      { set (P := λ ev, ∀ ed, ev = EvEdit ed → ed ∈ es).
        assert (Forall P (EvEdit <$> es)) as HPe.
        { apply Forall_fmap, Forall_forall. by intros ? ? ? [= <-]. }
        assert (Forall P evs_f) as HPf.
        { eapply Forall_impl; [exact Hf|]. by intros ? [-> | ->]. }
        enough (Forall P (trace_of (__call__ fn inputs g a edits_ inference k) w))
          as HF by (rewrite Forall_forall in HF; by eapply (HF _ Hin)).
        rewrite Htrace.
        destruct Hloads as [->|(r' & a0 & k0 & ->)]; by ev_forall. }
      rewrite Htrace.
      assert (EvRestore ed ∈ EvRestore <$> es) by by apply list_elem_of_fmap_2.
      find_in.
    + exists (next_handle m). eexists. split; [|split; [|split; [exact Hlocal|]]].
      * rewrite Htrace. fold (increment_hook_of g). find_in.
      * set (P := λ ev, ev ≠ EvRemoveHook (next_handle m)).
        assert (Forall P (EvRemoveHook <$> added.*1)) as HPr.
        { apply Forall_fmap, Forall_forall. intros id Hid [= ->]. done. }
        assert (Forall P evs_f) as HPf.
        { eapply Forall_impl; [exact Hf|]. by intros ? [-> | ->]. }
        rewrite Htrace. apply (not_in_by_forall P); [|by intros Hn].
        destruct Hloads as [->|(r' & a0 & k0 & ->)]; by ev_forall.
      * cbn [hooks set_tree].
        destruct (unhook_all_spec added.*1 m3) as (_ & _ & _ & _ & ->).
        apply list_elem_of_filter. split; [done|].
        rewrite Hh3. apply elem_of_app. right. apply list_elem_of_here.
Qed.

Lemma C1_witness :
  (__call__ (impl := Mamba.adapter Toy.libs) Toy.failing_fn (PStr "in")
     Toy.graph7 [] None true [] Toy.edited_world).1
    = Raised (UserException 1) ∧
  ∃ id m',
    local_model
      (self (__call__ (impl := Mamba.adapter Toy.libs) Toy.failing_fn (PStr "in")
               Toy.graph7 [] None true [] Toy.edited_world).2) = Some m' ∧
    (id, mkHook "" ForwardPost [GraphIncrement 7]) ∈ hooks m'.
Proof.
  split; [vm_compute; reflexivity|].
  edestruct (C1_failed_run_keeps_increment_hook (impl := Mamba.adapter Toy.libs)
               Toy.failing_fn (PStr "in") Toy.graph7 [] None true []
               Toy.edited_world (UserException 1))
    as (_ & _ & id & m' & _ & _ & Hl & Hin);
    [vm_compute; reflexivity | vm_compute; find_in |].
  exists id, m'. split; [exact Hl | exact Hin].
Defined.

(* ===================================================================== *)
(** ** Edits                                                              *)
(* ===================================================================== *)

(** An edit only adds: paths stay, replaced forwards stay. *)
Lemma edit_mono e t t' :
  edit e t = Ok t' →
  paths t ⊆ paths t' ∧
  (∀ q x, forwards t !! q = Some x → forwards t' !! q = Some x).
Proof.
  destruct e as [p n wr|p gr]; cbn [edit]; intros H.
  - destruct (decide (p ∈ paths t)); [|done].
    destruct (decide (child_path p n ∈ paths t)); [done|].
    injection H as <-. cbn. split; [apply union_subseteq_l | done].
  - destruct (decide (p ∈ paths t)); [|done].
    destruct (forwards t !! p) eqn:E; [done|]. injection H as <-. cbn.
    split; [done|]. intros q x Hq.
    rewrite lookup_insert_ne; [done|]. intros ->. congruence.
Qed.

Lemma edit_in_place e t t' : edit e t = Ok t' → in_place e t'.
Proof.
  destruct e as [p n wr|p gr]; cbn [edit in_place]; intros H.
  - destruct (decide (p ∈ paths t)); [|done].
    destruct (decide (child_path p n ∈ paths t)); [done|].
    injection H as <-. cbn. apply elem_of_union_r. by apply elem_of_singleton.
  - destruct (decide (p ∈ paths t)); [|done].
    destruct (forwards t !! p) eqn:E; [done|]. injection H as <-. cbn.
    apply lookup_insert_eq.
Qed.

Lemma in_place_mono e t t' :
  paths t ⊆ paths t' →
  (∀ q x, forwards t !! q = Some x → forwards t' !! q = Some x) →
  in_place e t → in_place e t'.
Proof. destruct e; cbn; intros Hp Hf H; [by apply Hp | by apply Hf]. Qed.

Lemma apply_edits_in_place es : ∀ t t' e,
  apply_edits es t = (Ok tt, t', es) → e ∈ es → in_place e t'.
Proof.
  induction es as [|e0 es IH]; intros t t' e H Hin; [by apply elem_of_nil in Hin|].
  cbn [apply_edits] in H.
  destruct (edit e0 t) as [t1|x] eqn:E1; [|done].
  destruct (apply_edits es t1) as [[r t2] ap] eqn:E2.
  injection H as -> <- ->.
  apply elem_of_cons in Hin as [->|Hin]; [|by eapply IH].
  apply edit_in_place in E1.
  clear IH. revert t1 E1 E2. induction es as [|e1 es IH]; intros t1 E1 E2.
  - cbn in E2. by injection E2 as <-.
  - cbn [apply_edits] in E2.
    destruct (edit e1 t1) as [t3|x] eqn:E3; [|done].
    destruct (apply_edits es t3) as [[r t4] ap] eqn:E4.
    injection E2 as -> <- <-.
    eapply IH; [|exact E4].
    destruct (edit_mono _ _ _ E3) as [Hp Hf]. by eapply in_place_mono.
Qed.

(** Reverting undoes applying. *)
Lemma tree_eq t t' : paths t = paths t' → forwards t = forwards t' → t = t'.
Proof. destruct t, t'; cbn; by intros -> ->. Qed.

Lemma restore_edit_edit e t t' : edit e t = Ok t' → restore_edit e t' = t.
Proof.
  destruct e as [p n wr|p gr]; cbn [edit restore_edit]; intros H.
  - destruct (decide (p ∈ paths t)); [|done].
    destruct (decide (child_path p n ∈ paths t)) as [|Hn]; [done|].
    injection H as <-. apply tree_eq; cbn; [|done].
    apply set_eq. intros q. rewrite elem_of_difference, elem_of_union,
      elem_of_singleton. split; [by intros [[?|?] ?] | intros Hq].
    split; [by left | by intros ->].
  - destruct (decide (p ∈ paths t)); [|done].
    destruct (forwards t !! p) eqn:E; [done|]. injection H as <-.
    apply tree_eq; cbn; [done|]. by apply delete_insert_id.
Qed.

Lemma restore_edit_comm e1 e2 t :
  restore_edit e1 (restore_edit e2 t) = restore_edit e2 (restore_edit e1 t).
Proof.
  destruct e1 as [p1 n1 w1|p1 g1], e2 as [p2 n2 w2|p2 g2]; cbn; try done.
  - apply tree_eq; cbn; [|done].
    apply set_eq. intros q. rewrite !elem_of_difference. tauto.
  - apply tree_eq; cbn; [done|]. apply delete_delete.
Qed.

Lemma restore_edits_comm es : ∀ e t,
  restore_edits es (restore_edit e t) = restore_edit e (restore_edits es t).
Proof.
  unfold restore_edits.
  induction es as [|e0 es IH]; intros e t; [done|].
  cbn. by rewrite restore_edit_comm, IH.
Qed.

Lemma edits_round_trip es : ∀ t t',
  apply_edits es t = (Ok tt, t', es) → restore_edits es t' = t.
Proof.
  induction es as [|e es IH]; intros t t' H; cbn [apply_edits] in H.
  - by injection H as <-.
  - destruct (edit e t) as [t1|x] eqn:E1; [|done].
    destruct (apply_edits es t1) as [[r t2] ap] eqn:E2.
    injection H as -> <- ->.
    change (restore_edits (e :: es) t2) with (restore_edits es (restore_edit e t2)).
    rewrite restore_edits_comm, (IH _ _ E2). by apply restore_edit_edit.
Qed.

Lemma nodes_getitem_name g n d : nodes_getitem g n = Ok d → node_name d = n.
Proof.
  unfold nodes_getitem. destruct (List.find _ _) as [d'|] eqn:E; [|done].
  intros [= <-]. apply find_some in E as [_ E].
  by apply bool_decide_eq_true in E.
Qed.

Lemma filter_length_snoc {A} (P : A → Prop) `{∀ x, Decision (P x)} l x :
  P x → length (filter P (l ++ [x])) = S (length (filter P l)).
Proof.
  intros Hx. rewrite filter_app, length_app.
  rewrite filter_cons_True by done. simpl. lia.
Qed.

(** [modulize]: what a call that returns has done. *)
Lemma modulize_ok module node_name_ module_name w w' :
  modulize module node_name_ module_name w = (Ok tt, w') →
  let wme := wrapper_edit module module_name in
  let ge := graph_edit module node_name_ module_name in
  (∃ t1, edit wme (meta_model (self w)) = Ok t1 ∧
         edit ge t1 = Ok (meta_model (self w'))) ∧
  edits (self w') = edits (self w) ++ [wme; ge] ∧
  local_model (self w') = local_model (self w) ∧
  dispatched (self w') = dispatched (self w) ∧
  log w' = log w.
Proof.
  intros H wme ge. unfold modulize in H.
  unfold mbind, M_bind, bind, gets, lift_result, upd_self, modify in H.
  cbv beta iota in H.
  destruct (edit _ (meta_model (self w))) as [t1|x] eqn:E1; [|done].
  destruct (nodes_getitem _ node_name_) as [d|x] eqn:E2; [|done].
  apply nodes_getitem_name in E2. rewrite E2 in H.
  destruct (edit (GraphEdit _ _) _) as [t2|x] eqn:E3; [|done].
  injection H as <-.
  assert (Hg : (create_node (create_node (graph module) GetAttr module_name []).1
                  CallModule module_name [NodeRef node_name_]).1
               = routed_graph module node_name_ module_name).
  { unfold create_node, routed_graph. cbn [fst nodes gid argument_node_names].
    rewrite filter_length_snoc by done. by rewrite <- app_assoc. }
  rewrite Hg in *. revert E1 E3.
  destruct w as [s ns al im st no lg]. destruct s.
  cbn [self set_self set_meta_model set_edits meta_model edits local_model
       dispatched log].
  intros E1 E3. split; [by exists t1|]. split; [|done].
  rewrite <- app_assoc. unfold ge, graph_edit. by rewrite <- Hg.
Qed.


(** A run without an [edits] argument works with the stored edits: once
    the body of the edits block is reached (the compile of the graph is in
    the trace), the trace is the loading, the stored edits in order, the
    body, and the reverts; the user function sees every stored edit in
    place; and the module tree of the local model is the one from before
    the run. *)
Lemma run_stored_edits {impl : Adapter} fn inputs g a inference k w o r :
  let run := __call__ fn inputs g a None inference k in
  let es := edits (self w) in
  EvCompile (gid g) o r ∈ trace_of run w →
  (∃ loads body,
      trace_of run w = loads ++ (EvEdit <$> es) ++ body ++ (EvRestore <$> es) ∧
      Forall (λ e, is_edit_event e = false) (loads ++ body)) ∧
  Forall (fn_sees (λ t, ∀ e, e ∈ es → in_place e t)) (trace_of run w) ∧
  (∀ m, dispatched (self w) = true → local_model (self w) = Some m →
        ∃ m', local_model (self (run w).2) = Some m' ∧ tree m' = tree m).
Proof.
  intros run es Hin. subst run.
  call_split fn inputs g a (@None (list Edit)) inference k w.
  - exfalso. revert Hin. destruct (dispatched (self w)).
    + destruct Hload as [_ ->]. by intros ?%elem_of_nil.
    + rewrite Hload. intros Hin%list_elem_of_singleton. done.
  - exfalso. revert Hin. rewrite Htrace, Heq. cbn [fst snd].
    apply not_in_by_forall with (P := λ e, is_edit_event e = true ∨ is_load_local e = true);
      [|cbn; intros [|]; done].
    destruct Hloads as [->|(?&?&?&->)]; ev_forall; cbn; auto.
  - fold es in Happ, Heq, Hlocal, Htrace.
    rewrite Heq in Hlocal, Htrace. cbn [fst snd] in Hlocal, Htrace.
    rewrite Htrace. split; [|split].
    + eexists loads, _. split; [reflexivity|].
      destruct Hloads as [->|(?&?&?&->)]; ev_forall; done.
    + destruct Hloads as [->|(?&?&?&->)]; ev_forall; done.
    + intros m0 Hd Hm0. rewrite Hd in Hload. destruct Hload as [-> ->].
      rewrite Hm in Hm0. injection Hm0 as <-.
      eexists; split; [exact Hlocal|]. cbn [tree set_tree].
      by apply edits_round_trip.
  - fold es in Happ, Heq, Hlocal, Htrace.
    rewrite Heq in Hlocal, Htrace. cbn [fst snd] in Hlocal, Htrace.
    rewrite Htrace. split; [|split].
    + eexists loads, _. split; [reflexivity|].
      destruct Hloads as [->|(?&?&?&->)]; ev_forall; done.
    + destruct Hloads as [->|(?&?&?&->)]; ev_forall; done.
    + intros m0 Hd Hm0. rewrite Hd in Hload. destruct Hload as [-> ->].
      rewrite Hm in Hm0. injection Hm0 as <-.
      eexists; split; [exact Hlocal|]. cbn [tree set_tree].
      by apply edits_round_trip.
  - fold es in Happ, Heq, Hlocal, Htrace.
    assert (Hsee : ∀ e, e ∈ es → in_place e (tree m3)).
    { intros e He. rewrite Ht3. by eapply apply_edits_in_place. }
    destruct (play (fn inputs a k) m3 (steps w)).1.1 as [out|e] eqn:Hp;
      rewrite Heq in Hlocal, Htrace; cbn [fst snd] in Hlocal, Htrace;
      rewrite Htrace; (split; [|split]).
    all: try (eexists loads, _; split; [reflexivity|]).
    all: try (destruct Hloads as [->|(?&?&?&->)]; ev_forall;
              try done; by apply play_events_impl).
    all: intros m0 Hd Hm0; rewrite Hd in Hload; destruct Hload as [-> ->];
      rewrite Hm in Hm0; injection Hm0 as <-;
      (eexists; split; [exact Hlocal|]); cbn [tree set_tree];
      by apply edits_round_trip.
Qed.

#[local] Instance edits_grow_preorder : PreOrder edits_grow.
Proof.
  split.
  - intros w. exists []. by rewrite app_nil_r.
  - intros w1 w2 w3 [m1 H1] [m2 H2]. exists (m1 ++ m2).
    by rewrite H2, H1, app_assoc.
Qed.

Lemma call_edits {impl : Adapter} fn inputs g a edits_ inference k w :
  edits (self (__call__ fn inputs g a edits_ inference k w).2) = edits (self w).
Proof.
  destruct (call_inv fn inputs g a edits_ inference k w)
    as [(e & _ & _ & -> & _)|(w1 & m & loads & _ & _ & Hshape)]; [done|].
  cbv zeta in Hshape. by destruct Hshape as (_ & _ & _ & _ & _ & _ & ->).
Qed.

Lemma modulize_edits module node_name_ module_name w :
  edits_grow w (modulize module node_name_ module_name w).2.
Proof.
  destruct (modulize module node_name_ module_name w) as [[[]|x] w'] eqn:H.
  - apply modulize_ok in H as (_ & Hq & _). eexists. exact Hq.
  - exists []. rewrite app_nil_r. cbn [snd]. unfold modulize in H.
    unfold mbind, M_bind, bind, gets, lift_result, upd_self, modify in H.
    cbv beta iota in H.
    destruct (edit _ (meta_model (self w))) as [t1|y]; [|by injection H as _ <-].
    destruct (nodes_getitem _ node_name_) as [d|y];
      [|injection H as _ <-; by destruct w as [[] ?]].
    destruct (edit (GraphEdit _ _) _) as [t2|y];
      [done|injection H as _ <-; by destruct w as [[] ?]].
Qed.

Lemma lifetime_edits {impl : Adapter} ops : ∀ w, edits_grow w (lifetime ops w).
Proof.
  induction ops as [|op ops IH]; intros w; [reflexivity|].
  cbn [lifetime fold_left]. etrans; [|apply IH].
  destruct op; cbn [step].
  - exists []. by rewrite app_nil_r, call_edits.
  - apply modulize_edits.
Qed.




(* ===================================================================== *)
(** ** Patches                                                            *)
(* ===================================================================== *)

Lemma Patcher_add_eq p r k ns tbl :
  Patcher_add p r k (ns, tbl)
    = (Ok tt, (<[(p, k) := r]> ns, tbl ++ [mkPatch p r k (ns (p, k))])).
Proof. reflexivity. Qed.

Lemma held_enter_eq ns tbl : held_enter (ns, tbl) = (Ok tt, (enter_ns tbl ns, tbl)).
Proof.
  unfold held_enter, on_ns, zoom. cbv beta. cbn [fst snd].
  by rewrite Patcher_enter_eq.
Qed.

Lemma held_exit_eq ns tbl : held_exit (ns, tbl) = (Ok tt, (exit_ns tbl ns, tbl)).
Proof.
  unfold held_exit, on_ns, zoom. cbv beta. cbn [fst snd].
  by rewrite Patcher_exit_eq.
Qed.

(** Looking a key up in a table of bindings after updates. *)
Ltac fn_cases :=
  repeat match goal with
    | |- context [(<[?k := _]> _) ?k'] =>
        first [ rewrite (fn_lookup_insert_ne _ k k') by (first [assumption | discriminate])
              | rewrite fn_lookup_insert
              | destruct (decide (k = k')) as [<-|?] ]
    end; try reflexivity.

(** [Mamba._scan] calls the meta model under the four replacements and
    leaves every binding as it found it, whether the call raises or not. *)
Lemma scan_scoped libs meta_tree inputs ns :
  (Mamba._scan libs meta_tree inputs ns).1
    = Mamba.meta_call libs meta_tree inputs (scan_patched ns) ∧
  ∀ key0, (Mamba._scan libs meta_tree inputs ns).2 key0 = ns key0.
Proof.
  unfold Mamba._scan, with_fresh_patcher, with_.
  rewrite held_enter_eq. cbn [enter_ns foldl].
  unfold mbind, M_bind, bind.
  rewrite Patcher_add_eq. cbv beta iota.
  rewrite Patcher_add_eq. cbv beta iota.
  rewrite Patcher_add_eq. cbv beta iota.
  rewrite Patcher_add_eq. cbv beta iota.
  unfold on_ns, zoom. cbv beta iota. cbn [fst snd app].
  split.
  - destruct (Mamba.meta_call _ _ _ _); rewrite held_exit_eq; reflexivity.
  - intros key0.
    destruct (Mamba.meta_call _ _ _ _); rewrite held_exit_eq; cbv beta iota;
      cbn [fst snd exit_ns foldl parent key orig]; fn_cases.
Qed.

#[local] Instance keeps_binding_preorder key0 : PreOrder (keeps_binding key0).
Proof.
  split.
  - by intros w.
  - intros w1 w2 w3 [T1 N1] [T2 N2]. split; [congruence|].
    intros Hav. rewrite N2, N1; [done..|]. unfold alterations_avoid in *.
    by rewrite T1.
Qed.

Lemma enter_ns_avoid key0 ps : ∀ ns,
  Forall (λ p, (parent p, key p) ≠ key0) ps → enter_ns ps ns key0 = ns key0.
Proof.
  induction ps as [|p ps IH]; intros ns Hps; [done|].
  apply Forall_cons in Hps as [Hp Hps]. unfold enter_ns in *. cbn [foldl].
  rewrite IH by done. by rewrite fn_lookup_insert_ne.
Qed.

Lemma exit_ns_avoid key0 ps : ∀ ns,
  Forall (λ p, (parent p, key p) ≠ key0) ps → exit_ns ps ns key0 = ns key0.
Proof.
  induction ps as [|p ps IH]; intros ns Hps; [done|].
  apply Forall_cons in Hps as [Hp Hps]. unfold exit_ns in *. cbn [foldl].
  rewrite IH by done. by rewrite fn_lookup_insert_ne.
Qed.

Lemma alteration_of_avoid key0 w :
  alterations_avoid key0 w →
  Forall (λ p, (parent p, key p) ≠ key0) (alteration_of w).
Proof.
  intros Hav. unfold alteration_of. destruct (alter (self w)); [|constructor].
  destruct (REPOID_TO_ALTERATION w !! _) as [ps|] eqn:E; [|constructor].
  exact (Hav _ _ E).
Qed.

Lemma with_alteration_keeps {A} key0 (body : M World A) :
  preserves (keeps_binding key0) body →
  preserves (keeps_binding key0) (with_alteration body).
Proof.
  intros Hb w. rewrite with_alteration_eq.
  specialize (Hb (set_namespace (enter_ns (alteration_of w) (namespace w)) w)).
  destruct (body _) as [r w']. cbn [snd] in *. destruct Hb as [Ht Hn].
  split; [exact Ht|]. intros Hav.
  pose proof (alteration_of_avoid _ _ Hav) as Hps.
  cbn [namespace set_namespace]. rewrite exit_ns_avoid by done.
  rewrite Hn by exact Hav. cbn [namespace set_namespace].
  by rewrite enter_ns_avoid.
Qed.

Lemma run_meta_keeps libs key0 inputs t :
  preserves (keeps_binding key0) (on_namespace (Mamba._run_meta libs inputs t)).
Proof.
  intros w. unfold on_namespace, zoom, Mamba._run_meta, mbind, M_bind, bind,
    lift_result.
  destruct (Mamba._prepare_inputs libs inputs) as [prepared|e].
  - destruct (scan_scoped libs t prepared (namespace w)) as [_ Hns].
    destruct (Mamba._scan libs t prepared (namespace w)) as [r ns'].
    cbn [snd] in *. split; [done|]. intros _. apply Hns.
  - split; [done|]. by intros _.
Qed.

Lemma init_keeps libs key0 model a alter_ tok k :
  preserves (keeps_binding key0)
    (AbstractModel.__init__ (impl := Mamba.adapter libs) model a alter_ tok k).
Proof.
  unfold __init__, emit, upd_self.
  frame_with ltac:(by split).
  - apply with_alteration_keeps. frame_with ltac:(by split).
  - apply run_meta_keeps.
Qed.

(** C3 (amended): the four replacements of [Mamba._scan] are in force for
    the call of the meta model and every binding is back to what it was
    when [_scan] ends, whether that call returns or raises.  The
    substitution of [MambaModuleInterp] for
    [mamba_ssm.models.mixer_seq_simple.Mamba] that [MambaInterp.__init__]
    installs is never restored: when the constructor has ended, by return
    or by exception, that binding is [MambaModuleInterp], and every other
    binding no alteration patches is what it was before. *)
Theorem C3_scan_patches_are_scoped_class_substitution_persists libs :
  (∀ meta_tree inputs ns,
     (Mamba._scan libs meta_tree inputs ns).1
       = Mamba.meta_call libs meta_tree inputs (scan_patched ns) ∧
     ∀ key0, (Mamba._scan libs meta_tree inputs ns).2 key0 = ns key0) ∧
  (∀ model a alter_ tok k w key0,
     alterations_avoid key0 w →
     namespace (MambaInterp.__init__ libs model a alter_ tok k w).2 key0
       = (<[mamba_class_key := "MambaModuleInterp"]> (namespace w)) key0).
Proof.
  split; [intros; apply scan_scoped|].
  intros model a alter_ tok k w key0 Hav.
  unfold MambaInterp.__init__, mbind, M_bind, bind, on_namespace at 1, zoom,
    with_fresh_patcher.
  rewrite Patcher_add_eq. cbv beta iota. rewrite held_enter_eq.
  cbv beta iota. cbn [fst snd app enter_ns foldl parent key replacement].
  match goal with
  | |- namespace (AbstractModel.__init__ _ _ _ _ _ ?w1).2 _ = _ =>
      destruct (init_keeps libs key0 model a alter_ tok k w1) as [_ Hn]
  end.
  rewrite Hn by exact Hav. cbn [namespace set_namespace].
  unfold mamba_class_key. fn_cases.
Qed.

Lemma C3_witness :
  alterations_avoid mamba_class_key Toy.world0 ∧
  namespace (MambaInterp.__init__ Toy.libs (inl "state-spaces/mamba-130m") []
               true PNone [] Toy.world0).2 mamba_class_key
    = "MambaModuleInterp" ∧
  namespace (MambaInterp.__init__ Toy.libs (inl "state-spaces/mamba-130m") []
               true PNone [] Toy.world0).2 ("selective_scan_cuda", "fwd")
    = namespace Toy.world0 ("selective_scan_cuda", "fwd").
Proof.
  assert (Hav : ∀ key0, alterations_avoid key0 Toy.world0)
    by (intros key0; apply map_Forall_empty).
  split; [apply Hav|]. split.
  - rewrite (proj2 (C3_scan_patches_are_scoped_class_substitution_persists Toy.libs)
               (inl "state-spaces/mamba-130m") [] true PNone [] Toy.world0
               mamba_class_key (Hav _)).
    vm_compute. reflexivity.
  - rewrite (proj2 (C3_scan_patches_are_scoped_class_substitution_persists Toy.libs)
               (inl "state-spaces/mamba-130m") [] true PNone [] Toy.world0
               ("selective_scan_cuda", "fwd") (Hav _)).
    vm_compute. reflexivity.
Defined.

(** C3 as stated fails for the class substitution: when
    [MambaInterp("state-spaces/mamba-130m")] has been constructed, the
    constructor has returned and tracing is over, yet
    [mamba_ssm.models.mixer_seq_simple.Mamba] is bound to
    [MambaModuleInterp], not to the class it was bound to before. *)
Lemma C3_counterexample :
  (MambaInterp.__init__ Toy.libs (inl "state-spaces/mamba-130m") []
     true PNone [] Toy.world0).1 = Ok tt ∧
  namespace Toy.world0 mamba_class_key = "original Mamba" ∧
  namespace (MambaInterp.__init__ Toy.libs (inl "state-spaces/mamba-130m") []
               true PNone [] Toy.world0).2 mamba_class_key
    = "MambaModuleInterp".
Proof. split; [|split]; vm_compute; reflexivity. Qed.

(* ===================================================================== *)
(** ** The recurrence of [SSM.forward]                                    *)
(* ===================================================================== *)

Section SSM_recurrence.

#[local] Existing Instance SSM.Dtype_eq_dec.

Variable T : Type.
Variables (zero two : T) (add mul : T → T → T).
Variables (exp silu real_part : T → T).
Variable cast : SSM.Dtype → T → T.
Variable complex_of : T → T → T.

#[local] Abbreviation Tensor := (SSM.Tensor T).
#[local] Abbreviation val := (SSM.val T _).
#[local] Abbreviation dtype := (SSM.dtype T _).
#[local] Abbreviation shape := (SSM.shape T _).
#[local] Abbreviation size := (SSM.size T).
#[local] Abbreviation is_complex := (SSM.is_complex T).
#[local] Abbreviation float := (SSM.float T cast).
#[local] Abbreviation sum_range := (SSM.sum_range T zero add).
#[local] Abbreviation forward :=
  (SSM.forward T zero two add mul exp silu real_part cast complex_of).
#[local] Abbreviation loop_body := (SSM.loop_body T zero two add mul real_part).
#[local] Abbreviation hidden := (SSM.hidden T zero add mul exp cast).
#[local] Abbreviation emitted := (SSM.emitted T zero two add mul exp real_part cast).
#[local] Abbreviation out_at :=
  (SSM.out_at T zero two add mul exp silu real_part cast).
#[local] Abbreviation prepared := (SSM.prepared T cast complex_of).

Lemma sum_range_ext n f g :
  (∀ i, i < n → f i = g i) → sum_range n f = sum_range n g.
Proof.
  unfold SSM.sum_range. intros H.
  assert (∀ l acc, Forall (λ i, i < n) l →
            fold_left (λ acc i, add acc (f i)) l acc
            = fold_left (λ acc i, add acc (g i)) l acc) as Hl.
  { induction l as [|i l IH]; intros acc Hf; [done|].
    apply Forall_cons in Hf as [Hi Hf]. cbn [fold_left].
    rewrite (H i Hi). by apply IH. }
  apply Hl. apply Forall_forall. intros i Hi%elem_of_seq. lia.
Qed.

Lemma is_complex_promote a b :
  bool_decide (SSM.promote a b = SSM.Complex64)
  = bool_decide (a = SSM.Complex64) || bool_decide (b = SSM.Complex64).
Proof. by destruct a, b. Qed.

Lemma prepared_complex A B C B' C' :
  prepared A B C B' C' →
  is_complex B' = is_complex A ∧ is_complex C' = is_complex A.
Proof.
  unfold SSM.prepared, SSM.as_complex_pairs. intros H.
  destruct (SSM.is_complex T A) eqn:EA.
  - destruct H as [HB HC].
    destruct (Nat.even (SSM.size T B 2)); [|done].
    destruct (Nat.even (SSM.size T C 2)); [|done].
    injection HB as <-. injection HC as <-. done.
  - destruct H as [-> ->]. done.
Qed.

(** The token loop after [k] tokens. *)
Lemma loop_invariant x delta A B' C' k :
  is_complex B' = is_complex A → is_complex C' = is_complex A →
  k ≤ size x 2 →
  let st := fold_left (loop_body (float x)
                         (SSM.DiscA_forward T mul exp (float delta) A)
                         (SSM.DiscB_forward T mul (float delta) B') C')
                      (seq 0 k)
                      (SSM.mkLoop T (SSM.mkTensor T _ (dtype A)
                                        [size (float x) 0; size A 0; size A 1]
                                        (λ _, zero)) [] None) in
  (∀ i, val (SSM.loop_h T st) i = hidden x delta A B' k i) ∧
  size (SSM.loop_h T st) 2 = size A 1 ∧
  is_complex (SSM.loop_h T st) = is_complex A ∧
  length (SSM.loop_ys T st) = k ∧
  (∀ j y, SSM.loop_ys T st !! j = Some y →
          shape y = [size delta 0; size delta 1] ∧
          ∀ b d, val y (b, d) = emitted x delta A B' C' j (b, d)) ∧
  SSM.loop_last_state T st
    = if decide (1 ≤ k ∧ k = size x 2) then Some (SSM.loop_h T st) else None.
Proof.
  intros HB HC. induction k as [|k IH]; intros Hk st.
  - subst st. cbn [seq fold_left SSM.loop_h SSM.loop_ys SSM.loop_last_state].
    split; [done|]. split; [done|]. split; [done|]. split; [done|].
    split; [intros j y Hj; by rewrite lookup_nil in Hj|].
    rewrite decide_False by lia. done.
  - subst st. rewrite seq_S, fold_left_app. cbn [fold_left Nat.add].
    specialize (IH ltac:(lia)). cbv zeta in IH.
    destruct IH as (Hh & Hs & Hcx & Hlen & Hys & Hlast).
    set (st := fold_left _ (seq 0 k) _) in *.
    unfold SSM.loop_body. cbn [SSM.loop_h SSM.loop_ys SSM.loop_last_state].
    set (h := SSM.Hx_forward T add mul _ _ _ _).
    assert (Hval : ∀ i, val h i = hidden x delta A B' (S k) i).
    { intros [[b d] n]. subst h. cbn. by rewrite Hh. }
    assert (Hshape : shape h = [size delta 0; size delta 1; size A 1]) by done.
    assert (Hhc : is_complex h = is_complex A).
    { subst h. unfold SSM.is_complex in *. cbn [SSM.dtype SSM.Hx_forward
        SSM.select3 SSM.select2 SSM.DiscA_forward SSM.DiscB_forward
        SSM.float SSM.to].
      rewrite !is_complex_promote. rewrite Hcx, HB.
      cbn. destruct (bool_decide (SSM.dtype T _ A = SSM.Complex64)); done. }
    split; [exact Hval|]. split; [unfold SSM.size; by rewrite Hshape|].
    split; [exact Hhc|]. split; [rewrite length_app; cbn; lia|].
    split.
    + intros j y Hj. apply lookup_app_Some in Hj as [Hj|[Hge Hj]];
        [by apply Hys|].
      rewrite Hlen in Hge, Hj.
      apply list_lookup_singleton_Some in Hj as [Hj <-].
      assert (j = k) as -> by lia. clear Hj Hge.
      assert (Hsz : size h 0 = size delta 0 ∧ size h 1 = size delta 1
                    ∧ size h 2 = size A 1)
        by (unfold SSM.size; rewrite Hshape; done).
      destruct Hsz as (Hs0 & Hs1 & Hs2). clearbody h.
      unfold SSM.Yh_forward. cbv zeta. unfold SSM.is_complex at 1 2.
      cbn [SSM.dtype SSM.select2]. rewrite is_complex_promote.
      change (bool_decide (SSM.dtype T _ h = SSM.Complex64)) with (is_complex h).
      change (bool_decide (SSM.dtype T _ C' = SSM.Complex64)) with (is_complex C').
      rewrite Hhc, HC, orb_diag. unfold SSM.emitted.
      destruct (SSM.is_complex T A); cbn [SSM.shape SSM.val];
        rewrite Hs0, Hs1, Hs2; (split; [done|]); intros b d;
        [f_equal; f_equal|]; apply sum_range_ext; intros n _;
        by rewrite Hval.
    + rewrite Hlast. change (SSM.size T (SSM.float T cast x) 2) with (size x 2).
      destruct (decide (k = size x 2 - 1)) as [->|Hne].
      * rewrite decide_True by lia. done.
      * rewrite decide_False by lia. rewrite decide_False by lia. done.
Qed.


End SSM_recurrence.


(* ===================================================================== *)
(** ** Further properties of [SSM.forward]                               *)
(* ===================================================================== *)

Section SSM_behaviour.

#[local] Existing Instance SSM.Dtype_eq_dec.

Variable T : Type.
Variables (zero two : T) (add mul : T → T → T).
Variables (exp silu real_part : T → T).
Variable cast : SSM.Dtype → T → T.
Variable complex_of : T → T → T.

#[local] Abbreviation Tensor := (SSM.Tensor T).
#[local] Abbreviation val := (SSM.val T _).
#[local] Abbreviation dtype := (SSM.dtype T _).
#[local] Abbreviation shape := (SSM.shape T _).
#[local] Abbreviation size := (SSM.size T).
#[local] Abbreviation is_complex := (SSM.is_complex T).
#[local] Abbreviation float := (SSM.float T cast).
#[local] Abbreviation forward :=
  (SSM.forward T zero two add mul exp silu real_part cast complex_of).
#[local] Abbreviation hidden := (SSM.hidden T zero add mul exp cast).
#[local] Abbreviation emitted := (SSM.emitted T zero two add mul exp real_part cast).
#[local] Abbreviation out_at :=
  (SSM.out_at T zero two add mul exp silu real_part cast).
#[local] Abbreviation prepared := (SSM.prepared T cast complex_of).
#[local] Abbreviation agree_upto := (SSM.agree_upto T).
#[local] Abbreviation agree_upto_opt := (SSM.agree_upto_opt T).

(** [forward] on prepared operands and at least one token, in closed
    form. *)
Lemma forward_closed_form x delta A B C D z return_last_state B' C' :
  prepared A B C B' C' →
  1 ≤ size x 2 →
  ∃ out last,
    forward x delta A B C D z return_last_state
      = Ok (if return_last_state
            then SSM.OutAndState T out (Some last)
            else SSM.Out T out) ∧
    dtype out = dtype x ∧
    shape out = [size delta 0; size delta 1; size x 2] ∧
    (∀ b d l, l < size x 2 →
       val out (b, d, l) = out_at x delta A B' C' D z (b, d, l)) ∧
    (∀ i, val last i = hidden x delta A B' (size x 2) i).
Proof.
  intros Hprep HL.
  destruct (prepared_complex _ _ _ _ _ _ _ _ Hprep) as [HB HC].
  pose proof (loop_invariant T zero two add mul exp real_part cast
                x delta A B' C' (size x 2) HB HC (le_n _)) as Hinv.
  cbv zeta in Hinv. destruct Hinv as (Hh & _ & _ & Hlen & Hys & Hlast).
  rewrite decide_True in Hlast by lia.
  unfold SSM.forward. cbv zeta.
  assert ((if SSM.is_complex T A
           then match SSM.as_complex_pairs T cast complex_of B with
                | Raised e => Raised e
                | Ok B'0 => match SSM.as_complex_pairs T cast complex_of C with
                            | Raised e => Raised e
                            | Ok C'0 => Ok (B'0, C'0)
                            end
                end
           else Ok (float B, float C)) = Ok (B', C')) as ->.
  { unfold SSM.prepared in Hprep. destruct (SSM.is_complex T A).
    - destruct Hprep as [-> ->]. done.
    - destruct Hprep as [-> ->]. done. }
  change (SSM.size T (SSM.float T cast x) 2) with (size x 2).
  set (st := fold_left _ (seq 0 (size x 2)) _) in *.
  destruct (SSM.loop_ys T st) as [|y0 ys] eqn:Eys; [cbn in Hlen; lia|].
  cbn [SSM.stack2]. rewrite Hlast.
  destruct (Hys 0 y0 eq_refl) as [Hy0 _].
  assert (Hsz : size y0 0 = size delta 0 ∧ size y0 1 = size delta 1)
    by (unfold SSM.size; rewrite Hy0; done).
  destruct Hsz as [Hs0 Hs1].
  eexists _, _. split; [reflexivity|]. split; [reflexivity|]. split.
  { destruct z, D; cbn [SSM.shape SSM.to]; by rewrite Hs0, Hs1, Hlen. }
  split; [|exact Hh].
  intros b d l Hl.
  destruct (lookup_lt_is_Some_2 (y0 :: ys) l ltac:(lia)) as [y Hy].
  destruct (Hys l y Hy) as [_ Hyl].
  unfold SSM.out_at. cbv zeta. rewrite <- Hyl.
  destruct z, D; cbn [SSM.val SSM.to SSM.float]; rewrite Hy; reflexivity.
Qed.

Lemma prepared_exists A B C :
  (is_complex A = true →
   Nat.even (size B 2) = true ∧ Nat.even (size C 2) = true) →
  ∃ B' C', prepared A B C B' C'.
Proof.
  intros H. unfold SSM.prepared, SSM.as_complex_pairs.
  destruct (SSM.is_complex T A).
  - destruct (H eq_refl) as [-> ->]. by eexists _, _.
  - by eexists _, _.
Qed.

(** X1: whenever [SSM.forward] returns there is at least one token and,
    for a complex [A], the last axes of [B] and [C] have even length: with
    no token [torch.stack] is handed an empty list and raises, and with an
    odd last axis the regrouping into (real, imaginary) pairs raises. *)
Theorem X1_ssm_forward_returns_only_if x delta A B C D z return_last_state :
  is_ok (forward x delta A B C D z return_last_state) = true →
  1 ≤ size x 2 ∧
  (is_complex A = true →
   Nat.even (size B 2) = true ∧ Nat.even (size C 2) = true).
Proof.
  intros Hok. split.
  - destruct (size x 2) as [|n] eqn:EL; [exfalso|lia].
    revert Hok. unfold SSM.forward. cbv zeta.
    change (SSM.size T (SSM.float T cast x) 2) with (size x 2). rewrite EL.
    destruct (if SSM.is_complex T A then _ else _) as [[B' C']|e]; done.
  - intros HA. revert Hok. unfold SSM.forward. cbv zeta. rewrite HA.
    unfold SSM.as_complex_pairs.
    destruct (Nat.even (SSM.size T B 2)); [|done].
    destruct (Nat.even (SSM.size T C 2)); done.
Qed.

Lemma hidden_agree x x' delta delta' A B' B'' l k :
  agree_upto l x x' → agree_upto l delta delta' → agree_upto l B' B'' →
  k ≤ S l → ∀ i, hidden x delta A B' k i = hidden x' delta' A B'' k i.
Proof.
  intros Hx Hd HB. induction k as [|k IH]; intros Hk [[b d] n]; [done|].
  cbn [SSM.hidden]. unfold SSM.deltaA_at, SSM.deltaB_at.
  rewrite IH by lia. rewrite (Hx b d k), (Hd b d k), (HB b n k) by lia.
  reflexivity.
Qed.


End SSM_behaviour.

Lemma X1_witness :
  is_ok (ToySSM.forward ToySSM.x ToySSM.delta ToySSM.A ToySSM.B ToySSM.C
                        (Some ToySSM.D) None true) = true ∧
  1 ≤ SSM.size Z ToySSM.x 2.
Proof.
  assert (H : is_ok (ToySSM.forward ToySSM.x ToySSM.delta ToySSM.A ToySSM.B
                       ToySSM.C (Some ToySSM.D) None true) = true)
    by (vm_compute; reflexivity).
  split; [exact H|].
  exact (proj1 (X1_ssm_forward_returns_only_if Z 0%Z 2%Z Z.add Z.mul
                  (λ v, v) (λ v, v) (λ v, v) (λ _ v, v) (λ re _, re)
                  ToySSM.x ToySSM.delta ToySSM.A ToySSM.B ToySSM.C
                  (Some ToySSM.D) None true H)).
Defined.


(* ===================================================================== *)
(** ** Further properties of the run entry point                         *)
(* ===================================================================== *)

Lemma filter_keeps {A} (P : A → Prop) `{!∀ x, Decision (P x)} (l : list A) :
  Forall P l → filter P l = l.
Proof.
  induction 1 as [|x l Hx _ IH]; [done|].
  rewrite filter_cons_True by done. by rewrite IH.
Qed.

Lemma filter_drops {A} (P : A → Prop) `{!∀ x, Decision (P x)} (l : list A) :
  Forall (λ x, ¬ P x) l → filter P l = [].
Proof.
  induction 1 as [|x l Hx _ IH]; [done|].
  by rewrite filter_cons_False.
Qed.

(** Removing the hooks a run has added gives back the hook table from
    before the run, as handles are handed out in increasing order. *)
Lemma hooks_back (m m3 : TorchModule) (added : list (nat * Hook)) inc :
  Forall (λ ih, ih.1 < next_handle m) (hooks m) →
  Forall (λ ih, next_handle m < ih.1) added →
  hooks m3 = hooks m ++ (next_handle m, inc) :: added →
  hooks (remove_hook (next_handle m) (unhook_all added.*1 m3)) = hooks m.
Proof.
  intros Hold Hnew Hh. cbn [remove_hook hooks].
  destruct (unhook_all_spec added.*1 m3) as (_ & _ & _ & _ & ->).
  rewrite Hh.
  assert (Hin : ∀ ih, ih ∈ added → ih.1 ∈ added.*1).
  { intros ih Hi. apply list_elem_of_fmap. by exists ih. }
  assert (Hout : ∀ i, i ∈ added.*1 → next_handle m < i).
  { intros i Hi. apply list_elem_of_fmap in Hi as (ih & -> & Hi).
    rewrite Forall_forall in Hnew. by apply Hnew. }
  rewrite filter_app, filter_cons.
  rewrite (filter_keeps _ (hooks m)).
  2:{ eapply Forall_impl; [exact Hold|]. intros ih Hlt Hi. apply Hout in Hi. cbn beta in Hlt. lia. }
  rewrite (filter_drops _ added).
  2:{ apply Forall_forall. intros ih Hi Hn. by apply Hn, Hin. }
  rewrite decide_True by (intros Hi%Hout; cbn in Hi; lia).
  rewrite filter_app, filter_cons, decide_False by (cbn; lia).
  rewrite filter_nil, app_nil_r.
  apply filter_keeps. eapply Forall_impl; [exact Hold|]. cbn. intros ih ?. lia.
Qed.

(** X3: a run on a dispatched instance that returns leaves the local model
    the object it was, with the module tree, the [requires_grad] flags and
    the hook table from before the run (every edit reverted, every hook of
    the run removed); its training flag is the one the run has set
    ([eval()] for [inference=True], [train()] otherwise) and is not put
    back; torch's inference mode and the stored edits are as before. *)
Theorem X3_returning_run_gives_the_model_back {impl : Adapter}
    fn inputs g a edits_ inference k w lm out :
  let run := __call__ fn inputs g a edits_ inference k in
  dispatched (self w) = true →
  local_model (self w) = Some lm →
  Forall (λ ih, ih.1 < next_handle lm) (hooks lm) →
  (run w).1 = Ok out →
  ∃ m', local_model (self (run w).2) = Some m' ∧
        oid m' = oid lm ∧ tree m' = tree lm ∧
        requires_grad m' = requires_grad lm ∧ hooks m' = hooks lm ∧
        training m' = negb inference ∧
        inference_mode (run w).2 = inference_mode w ∧
        edits (self (run w).2) = edits (self w).
Proof.
  intros run Hd Hm0 Hold Hok. subst run.
  call_split fn inputs g a edits_ inference k w.
  - congruence.
  - rewrite Heq in Hres. cbn [fst snd] in Hres. congruence.
  - rewrite Heq in Hres. cbn [fst snd] in Hres. congruence.
  - rewrite Heq in Hres. cbn [fst snd] in Hres. congruence.
  - rewrite Hd in Hload. destruct Hload as [-> ->].
    rewrite Hm in Hm0. injection Hm0 as <-.
    destruct (play (fn inputs a k) m3 (steps w)).1.1 as [out'|e] eqn:Hp;
      rewrite Heq in Hres, Hlocal; cbn [fst snd] in Hres, Hlocal; [|congruence].
    eexists. split; [exact Hlocal|].
    destruct (unhook_all_spec added.*1 m3) as (Ut & Uo & Ur & Utr & _).
    cbn [oid tree requires_grad training hooks set_tree remove_hook].
    split; [by rewrite Uo|]. split; [by eapply edits_round_trip|].
    split; [by rewrite Ur|]. split.
    { change (hooks (remove_hook (next_handle m) (unhook_all added.*1 m3)) = hooks m).
      eapply hooks_back; [exact Hold|exact Hfresh|exact Hh3]. }
    split; [by rewrite Utr|]. by split.
Qed.

Lemma X3_witness :
  let run := __call__ (impl := Mamba.adapter Toy.libs)
               (Mamba._forward (PStr "out")) (PStr "in") Toy.graph7 [] None
               true [] in
  ∃ m', local_model (self (run Toy.custom_world).2) = Some m' ∧
        hooks m' = hooks Toy.custom ∧ training m' = false.
Proof.
  intros run. subst run.
  destruct (X3_returning_run_gives_the_model_back (impl := Mamba.adapter Toy.libs)
              (Mamba._forward (PStr "out")) (PStr "in") Toy.graph7 [] None
              true [] Toy.custom_world Toy.custom (PStr "out"))
    as (m' & Hl & _ & _ & _ & Hh & Ht & _).
  - vm_compute. reflexivity.
  - vm_compute. reflexivity.
  - vm_compute. constructor.
  - vm_compute. reflexivity.
  - exists m'. split; [exact Hl|]. split; [exact Hh|exact Ht].
Defined.

(** X4: when [graph.compile] raises in a run on a dispatched instance,
    [__call__] raises that error and the local model is exactly what it
    was before the run: the edits applied on entry are reverted, no hook is
    left, the training flag is untouched; the step counters and torch's
    inference mode are unchanged, too. *)
Theorem X4_failed_compile_changes_nothing {impl : Adapter}
    fn inputs g a edits_ inference k w lm o x :
  let run := __call__ fn inputs g a edits_ inference k in
  dispatched (self w) = true →
  local_model (self w) = Some lm →
  EvCompile (gid g) o (Raised x) ∈ trace_of run w →
  (run w).1 = Raised x ∧
  local_model (self (run w).2) = Some lm ∧
  steps (run w).2 = steps w ∧
  inference_mode (run w).2 = inference_mode w ∧
  edits (self (run w).2) = edits (self w).
Proof.
  intros run Hd Hm0 Hin. subst run.
  assert (∀ l, Forall (λ e, ∀ o x, e ≠ EvCompile (gid g) o (Raised x)) l →
               EvCompile (gid g) o (Raised x) ∉ l) as Hno.
  { intros l Hl. eapply (not_in_by_forall _ _ _ Hl). by intros Hn; eapply Hn. }
  call_split fn inputs g a edits_ inference k w.
  - exfalso. revert Hin. apply Hno. rewrite Hd in Hload.
    destruct Hload as [_ ->]. by ev_forall.
  - exfalso. revert Hin. apply Hno. rewrite Htrace, Heq. cbn [fst snd].
    destruct Hloads as [->|(r' & a0 & k0 & ->)]; by ev_forall.
  - rewrite Hd in Hload. destruct Hload as [-> ->].
    rewrite Hm in Hm0. injection Hm0 as <-.
    rewrite Heq in Hres, Hlocal, Htrace, Hsteps.
    cbn [fst snd] in Hres, Hlocal, Htrace, Hsteps.
    rewrite Htrace, Hcomp in Hin. cbn [app] in Hin.
    apply in_marked in Hin; [| by ev_forall | by ev_forall].
    injection Hin as _ ->.
    split; [exact Hres|]. split; [|by split].
    rewrite Hlocal. f_equal.
    rewrite (edits_round_trip _ _ _ Happ). apply set_tree_id.
  - exfalso. revert Hin. apply Hno. rewrite Htrace, Heq. cbn [fst snd].
    rewrite Hcomp.
    destruct Hloads as [->|(r' & a0 & k0 & ->)]; by ev_forall.
  - exfalso. revert Hin. apply Hno. rewrite Htrace.
    pose proof (play_events_impl
                  (λ e, ∀ o x, e ≠ EvCompile (gid g) o (Raised x))
                  (fn inputs a k) m3 (steps w)) as Hp.
    destruct (play (fn inputs a k) m3 (steps w)).1.1 as [out'|e] eqn:Ep;
      rewrite Heq; cbn [fst snd]; rewrite Hcomp;
      destruct Hloads as [->|(r' & a0 & k0 & ->)]; ev_forall; try done;
      by apply Hp.
Qed.

Lemma X4_witness :
  let run := __call__ (impl := Mamba.adapter Toy.libs)
               (Mamba._forward (PStr "out")) (PStr "in") Toy.graph8 [] None
               true [] in
  (run Toy.custom_world).1
    = Raised (UnresolvedDependencyError "backbone.layers.9") ∧
  local_model (self (run Toy.custom_world).2) = Some Toy.custom.
Proof.
  intros run. subst run.
  destruct (X4_failed_compile_changes_nothing (impl := Mamba.adapter Toy.libs)
              (Mamba._forward (PStr "out")) (PStr "in") Toy.graph8 [] None
              true [] Toy.custom_world Toy.custom 100
              (UnresolvedDependencyError "backbone.layers.9"))
    as (Hr & Hl & _).
  - vm_compute. reflexivity.
  - vm_compute. reflexivity.
  - vm_compute. find_in.
  - split; [exact Hr|exact Hl].
Defined.

(** X5: when [_load_local] raises in a run on an instance that is not
    dispatched, [__call__] raises the loader's error before any edit is
    applied or the graph is compiled: the load is the only event of the
    run, and every field of the instance is as before, so it is still not
    dispatched and the next run tries to load again. *)
Theorem X5_failed_load_propagates {impl : Adapter}
    fn inputs g a edits_ inference k w e :
  let run := __call__ fn inputs g a edits_ inference k in
  dispatched (self w) = false →
  _load_local (repoid_path_clsname (self w)) (args (self w)) (kwargs (self w))
              (enter_ns (alteration_of w) (namespace w)) (attrs (self w))
    = Raised e →
  (run w).1 = Raised e ∧
  self (run w).2 = self w ∧
  trace_of run w = [EvLoadLocal (repoid_path_clsname (self w)) (args (self w))
                                (kwargs (self w))].
Proof.
  intros run Hd Hl. subst run.
  assert (E : __call__ fn inputs g a edits_ inference k w
              = (Raised e, load_failed w)).
  { unfold __call__, mbind, M_bind, bind, gets. cbv beta iota. rewrite Hd.
    rewrite load_local_model_eq, Hl. reflexivity. }
  rewrite E. cbn [fst snd]. split; [done|]. split; [done|].
  apply trace_of_app. by rewrite E.
Qed.

Lemma X5_witness :
  let run := __call__ (impl := Mamba.adapter ToyMore.offline_libs)
               (Mamba._forward (PStr "out")) (PStr "in") Toy.graph7 [] None
               true [] in
  (run Toy.lazy_world).1 = Raised (RuntimeError "no weights") ∧
  self (run Toy.lazy_world).2 = self Toy.lazy_world.
Proof.
  intros run. subst run.
  destruct (X5_failed_load_propagates (impl := Mamba.adapter ToyMore.offline_libs)
              (Mamba._forward (PStr "out")) (PStr "in") Toy.graph7 [] None
              true [] Toy.lazy_world (RuntimeError "no weights"))
    as (Hr & Hs & _).
  - vm_compute. reflexivity.
  - vm_compute. reflexivity.
  - split; [exact Hr|exact Hs].
Defined.

(* ===================================================================== *)
(** ** Construction and [modulize]                                       *)
(* ===================================================================== *)

(** X7: constructing an instance from an existing torch module never
    calls [_load_meta]: the class name of the module becomes
    [repoid_path_clsname], the instance is a dispatched custom model whose
    local model is the module, the meta model has the module's tree, no
    edit is stored, the meta run is the only thing that happens, and the
    constructor returns or raises as the meta run on that tree does.  The
    alteration registered under the class name, if [alter] is set, is
    entered and exited around the copy. *)
Theorem X7_construction_from_a_module {impl : Adapter}
    (m : TorchModule) a alter_ tok k w0 :
  let r := __init__ (inr m) a alter_ tok k w0 in
  let alt := if alter_
             then default [] (REPOID_TO_ALTERATION w0 !! class_name m)
             else [] in
  let ns' := exit_ns alt (enter_ns alt (namespace w0)) in
  self r.2 = mkModel (class_name m) a k alter_ true true (Some m)
                     (mkAttrs tok None) [] (tree m) ∧
  r.1 = (_run_meta (PStr "_") (tree m) ns').1 ∧
  namespace r.2 = (_run_meta (PStr "_") (tree m) ns').2 ∧
  trace_of (__init__ (inr m) a alter_ tok k) w0 = [EvRunMeta (PStr "_")].
Proof.
  intros r alt ns'. subst r.
  assert (E : ∃ res ns2,
    _run_meta (PStr "_") (tree m) ns' = (res, ns2) ∧
    __init__ (inr m) a alter_ tok k w0
      = (res, mkWorld (mkModel (class_name m) a k alter_ true true (Some m)
                               (mkAttrs tok None) [] (tree m))
                      ns2 (REPOID_TO_ALTERATION w0) (inference_mode w0)
                      (steps w0) (next_oid w0)
                      (log w0 ++ [EvRunMeta (PStr "_")]))).
  { unfold __init__, mbind, M_bind, bind, modify, upd_self. cbv beta iota.
    unfold modify. cbv beta iota.
    rewrite with_alteration_eq.
    unfold alteration_of, gets, the_local, mbind, M_bind, bind, modify.
    cbv beta iota.
    cbn [self set_self set_namespace custom_model set_dispatch local_model alter
         repoid_path_clsname REPOID_TO_ALTERATION namespace set_meta_model].
    fold alt. fold ns'. unfold emit, modify, on_namespace, zoom. cbv beta iota.
    cbn [self set_self set_namespace set_log namespace meta_model set_meta_model
         set_dispatch log].
    destruct (_run_meta (PStr "_") (tree m) ns') as [res ns2].
    by exists res, ns2. }
  destruct E as (res & ns2 & E1 & E2). rewrite E2, E1. cbn [fst snd self namespace].
  split; [done|]. split; [done|]. split; [done|].
  apply trace_of_app. by rewrite E2.
Qed.

(** Construction from a repository id, as one equation. *)
Lemma init_from_repo_eq {impl : Adapter} (s : string) a (alter_ : bool) tok k
    (w0 : World) :
  let alt : Patcher := if alter_
             then default [] (REPOID_TO_ALTERATION w0 !! s)
             else [] in
  let ns1 := enter_ns alt (namespace w0) in
  __init__ (inl s) a alter_ tok k w0 =
    match _load_meta s a k ns1 (mkAttrs tok None) with
    | Raised e =>
        (@Raised unit e,
         mkWorld (mkModel s a k alter_ false false None (mkAttrs tok None) []
                          (mkTree ∅ ∅))
                 (exit_ns alt ns1) (REPOID_TO_ALTERATION w0) (inference_mode w0)
                 (steps w0) (next_oid w0) (log w0))
    | Ok ta =>
        ((_run_meta (PStr "_") ta.1 (exit_ns alt ns1)).1,
         mkWorld (mkModel s a k alter_ false false None ta.2 [] ta.1)
                 (_run_meta (PStr "_") ta.1 (exit_ns alt ns1)).2
                 (REPOID_TO_ALTERATION w0) (inference_mode w0)
                 (steps w0) (next_oid w0) (log w0 ++ [EvRunMeta (PStr "_")]))
    end.
Proof.
  intros alt ns1.
  unfold __init__, mbind, M_bind, bind, modify, upd_self. cbv beta iota.
  unfold mret, M_ret, ret. cbv beta iota.
  rewrite with_alteration_eq.
  unfold alteration_of, gets, lift_result, mbind, M_bind, bind, modify.
  cbv beta iota.
  cbn [self set_self set_namespace custom_model alter attrs
       repoid_path_clsname REPOID_TO_ALTERATION namespace set_meta_model].
  fold alt. fold ns1.
  destruct (_load_meta s a k ns1 (mkAttrs tok None)) as [[t at_]|e];
    cbv beta iota; [|reflexivity].
  unfold emit, modify, on_namespace, zoom. cbv beta iota.
  cbn [self set_self set_namespace set_log namespace meta_model set_meta_model
       set_attrs log fst snd].
  by destruct (_run_meta (PStr "_") t (exit_ns alt ns1)) as [res ns2].
Qed.

(** X8: constructing an instance from a repository id loads the meta model
    under the alteration registered for that id (when [alter] is set).
    When [_load_meta] raises, the constructor raises that error, no meta
    run happens, and the alteration has been exited.  When it returns, the
    instance is not dispatched, has no local model and no stored edit, its
    meta model and attributes are the loaded ones, the meta run happens
    once after the alteration has been exited, and the constructor returns
    or raises as the meta run does. *)
Theorem X8_construction_from_a_repo_id {impl : Adapter}
    (s : string) a alter_ tok k w0 :
  let r := __init__ (inl s) a alter_ tok k w0 in
  let alt := if alter_
             then default [] (REPOID_TO_ALTERATION w0 !! s)
             else [] in
  let ns1 := enter_ns alt (namespace w0) in
  match _load_meta s a k ns1 (mkAttrs tok None) with
  | Raised e =>
      r.1 = Raised e ∧
      trace_of (__init__ (inl s) a alter_ tok k) w0 = [] ∧
      namespace r.2 = exit_ns alt ns1
  | Ok ta =>
      self r.2 = mkModel s a k alter_ false false None ta.2 [] ta.1 ∧
      r.1 = (_run_meta (PStr "_") ta.1 (exit_ns alt ns1)).1 ∧
      namespace r.2 = (_run_meta (PStr "_") ta.1 (exit_ns alt ns1)).2 ∧
      trace_of (__init__ (inl s) a alter_ tok k) w0 = [EvRunMeta (PStr "_")]
  end.
Proof.
  intros r alt ns1. subst r.
  pose proof (init_from_repo_eq s a alter_ tok k w0) as E. cbv zeta in E.
  fold alt in E. fold ns1 in E.
  destruct (_load_meta s a k ns1 (mkAttrs tok None)) as [[t at_]|e];
    rewrite E; cbn [fst snd self namespace].
  - split; [done|]. split; [done|]. split; [done|].
    apply trace_of_app. by rewrite E.
  - split; [done|]. split; [|done].
    apply trace_of_app. rewrite E. cbn [snd log]. by rewrite app_nil_r.
Qed.

(** X6: [modulize] is not atomic.  When the wrapper can be inserted but
    [node_name] names no node of the module's graph, [modulize] raises
    [KeyError(node_name)] from [graph.nodes[node_name]] after the wrapper
    edit has been applied to the meta model: the wrapper stays in the meta
    model, while no edit is appended to the stored list, so later runs do
    not insert it into the local model. *)
Theorem X6_modulize_missing_node_leaves_wrapper
    module node_name_ module_name w t1 :
  edit (wrapper_edit module module_name) (meta_model (self w)) = Ok t1 →
  node_name_ ∉ node_name <$> nodes (graph module) →
  node_name_ ≠ node_name (create_node (graph module) GetAttr module_name []).2 →
  let r := modulize module node_name_ module_name w in
  r.1 = Raised (KeyError node_name_) ∧
  meta_model (self r.2) = t1 ∧
  in_place (wrapper_edit module module_name) (meta_model (self r.2)) ∧
  edits (self r.2) = edits (self w) ∧
  local_model (self r.2) = local_model (self w).
Proof.
  intros He Hn Hfresh r. subst r.
  assert (Hget : nodes_getitem (create_node (graph module) GetAttr module_name []).1
                   node_name_ = Raised (KeyError node_name_)).
  { unfold nodes_getitem.
    destruct (List.find _ _) as [d|] eqn:E; [exfalso|done].
    apply find_some in E as [Hin Hd]. apply bool_decide_eq_true in Hd.
    cbn [create_node fst nodes] in Hin. apply in_app_or in Hin as [Hin|[<-|[]]].
    - apply Hn. apply list_elem_of_fmap. exists d. split; [done|].
      by apply list_elem_of_In.
    - by apply Hfresh. }
  unfold modulize, mbind, M_bind, bind, gets, lift_result, upd_self, modify.
  cbv beta iota. unfold wrapper_edit in He. rewrite He. cbv beta iota.
  rewrite Hget. cbn [fst snd].
  split; [done|]. destruct w as [s ns al im st no lg]. destruct s.
  cbn [self set_self set_meta_model meta_model edits local_model].
  split; [done|]. split; [|done].
  by eapply (edit_in_place (wrapper_edit module module_name)).
Qed.

Lemma X6_witness :
  (modulize Toy.layer0 "nope" "probe" Toy.custom_world).1
    = Raised (KeyError "nope") ∧
  in_place (wrapper_edit Toy.layer0 "probe")
           (meta_model (self (modulize Toy.layer0 "nope" "probe"
                                Toy.custom_world).2)) ∧
  edits (self (modulize Toy.layer0 "nope" "probe" Toy.custom_world).2)
    = edits (self Toy.custom_world).
Proof.
  destruct (edit (wrapper_edit Toy.layer0 "probe")
              (meta_model (self Toy.custom_world))) as [t1|x] eqn:E;
    [|vm_compute in E; discriminate].
  destruct (X6_modulize_missing_node_leaves_wrapper Toy.layer0 "nope" "probe"
              Toy.custom_world t1 E) as (Hr & _ & Hp & He & _).
  - vm_compute. intros H. apply list_elem_of_In in H. cbn in H.
    destruct H as [H|[]]. discriminate.
  - vm_compute. discriminate.
  - split; [exact Hr|]. split; [exact Hp|exact He].
Defined.

(* ===================================================================== *)
(** ** Meta model and local model of a Mamba instance                    *)
(* ===================================================================== *)

Lemma enter_ns_pointwise ps : ∀ ns ns' : Namespace,
  (∀ key0, Forall (λ p, (parent p, key p) ≠ key0) ps → ns key0 = ns' key0) →
  ∀ key0, enter_ns ps ns key0 = enter_ns ps ns' key0.
Proof.
  induction ps as [|p ps IH]; intros ns ns' H key0.
  - apply H. constructor.
  - unfold enter_ns. cbn [foldl]. apply IH. intros key1 Hps.
    destruct (decide ((parent p, key p) = key1)) as [<-|Hne].
    + by rewrite !fn_lookup_insert.
    + rewrite !fn_lookup_insert_ne by done. apply H. by constructor.
Qed.

(** Entering an alteration again after it has been exited gives the
    bindings of the first time. *)
Lemma enter_exit_enter ps (ns ns2 : Namespace) :
  (∀ key0, ns2 key0 = exit_ns ps (enter_ns ps ns) key0) →
  ∀ key0, enter_ns ps ns2 key0 = enter_ns ps ns key0.
Proof.
  intros H. apply enter_ns_pointwise. intros key0 Hps.
  by rewrite H, exit_ns_avoid, enter_ns_avoid.
Qed.

Lemma run_meta_scoped libs inputs t (ns : Namespace) key0 :
  (Mamba._run_meta libs inputs t ns).2 key0 = ns key0.
Proof.
  unfold Mamba._run_meta, mbind, M_bind, bind, lift_result.
  destruct (Mamba._prepare_inputs libs inputs) as [prepared|e]; [|done].
  apply scan_scoped.
Qed.

(** A run on an instance that is not dispatched, as one equation. *)
Lemma call_undispatched_eq {impl : Adapter} fn inputs g a edits_ inference k w :
  dispatched (self w) = false →
  __call__ fn inputs g a edits_ inference k w =
    match _load_local (repoid_path_clsname (self w)) (args (self w))
            (kwargs (self w)) (enter_ns (alteration_of w) (namespace w))
            (attrs (self w)) with
    | Ok b =>
        let '(r, m', evs, st') :=
          edited_result fn inputs g a
            (match edits_ with None => edits (self w) | Some es => es end)
            inference k (freeze (new_module (next_oid w) b)) (steps w) in
        (r, after m' evs st' (inference_mode w) (loaded b w))
    | Raised e => (Raised e, load_failed w)
    end.
Proof.
  intros Hd. unfold __call__, mbind, M_bind, bind, gets. cbv beta iota.
  rewrite Hd. rewrite load_local_model_eq.
  destruct (_load_local _ _ _ _ _) as [b|e]; cbv beta iota; [|done].
  by rewrite (with_editor_eq _ _ _ _ _ _ _ (loaded b w)
                (freeze (new_module (next_oid w) b)) eq_refl).
Qed.

(** The local model loaded for an instance made from a repository id has
    the module tree of the meta model. *)
Lemma loaded_model_has_meta_topology
    libs (s : string) a (alter_ : bool) tok k (w0 : World)
    fn inputs g a2 inference k2 :
  reads_bindings libs →
  let r := AbstractModel.__init__ (impl := Mamba.adapter libs)
             (inl s) a alter_ tok k w0 in
  r.1 = Ok tt →
  Forall (fn_sees (λ t, t = meta_model (self r.2)))
         (trace_of (__call__ (impl := Mamba.adapter libs)
                      fn inputs g a2 None inference k2) r.2).
Proof.
  intros Hext r Hok. subst r.
  pose proof (init_from_repo_eq (impl := Mamba.adapter libs) s a alter_ tok k w0)
    as E. cbv zeta in E.
  set (alt := if alter_ then default [] (REPOID_TO_ALTERATION w0 !! s) else [])
    in *.
  set (ns1 := enter_ns alt (namespace w0)) in *.
  change (@_load_meta (Mamba.adapter libs)) with (Mamba._load_meta libs) in E.
  change (@_run_meta (Mamba.adapter libs)) with (Mamba._run_meta libs) in E.
  unfold Mamba._load_meta in E. cbn [tokenizer] in E.
  match type of E with
  | _ = match (match ?t with Ok _ => _ | Raised _ => _ end) with _ => _ end =>
      destruct t as [tok2|e]
  end; [|by rewrite E in Hok].
  destruct (Mamba.load_config_hf libs s) as [c|e]; [|by rewrite E in Hok].
  cbn [fst snd] in E. rewrite E. cbn [snd self meta_model]. clear Hok.
  set (w1 := mkWorld _ _ _ _ _ _ _) in *.
  assert (Hd : dispatched (self w1) = false) by done.
  rewrite (trace_of_app _ w1
             (match Mamba.load_state_dict_hf libs s k with
              | Ok _ =>
                  EvLoadLocal s a k ::
                  (edited_result fn inputs g a2 [] inference k2
                     (freeze (new_module (next_oid w1)
                        (mkBuilt "MambaLMHeadModel"
                           (Mamba.MambaLMHeadModel libs c k
                              (enter_ns (alteration_of w1) (namespace w1))).1
                           (Mamba.MambaLMHeadModel libs c k
                              (enter_ns (alteration_of w1) (namespace w1))).2
                           true)))
                     (steps w1)).1.2
              | Raised _ => [EvLoadLocal s a k]
              end)).
  2:{ rewrite (call_undispatched_eq _ _ _ _ _ _ _ _ Hd).
      change (@_load_local (Mamba.adapter libs)) with (Mamba._load_local libs).
      unfold Mamba._load_local. cbn [attrs self w1 config kwargs args
                                     repoid_path_clsname edits].
      destruct (Mamba.load_state_dict_hf libs s k) as [sd|e]; [|done].
      destruct (edited_result _ _ _ _ _ _ _ _ _) as [[[r m'] evs] st'].
      unfold after, loaded. cbn [fst snd log]. by rewrite <- app_assoc. }
  assert (Ht : (Mamba.MambaLMHeadModel libs c k
                  (enter_ns (alteration_of w1) (namespace w1))).1
               = (Mamba.MambaLMHeadModel libs c k ns1).1).
  { f_equal. apply Hext. intros key0. apply enter_exit_enter. intros key1.
    apply run_meta_scoped. }
  destruct (Mamba.load_state_dict_hf libs s k) as [sd|e];
    [|by repeat constructor].
  constructor; [done|].
  set (m := freeze (new_module _ _)).
  assert (Htm : tree m = (Mamba.MambaLMHeadModel libs c k ns1).1)
    by (rewrite <- Ht; reflexivity).
  clearbody m.
  destruct (edited_shape fn inputs g a2 [] inference k2 m (steps w1))
    as [(e & t1 & applied & Happ & Heq)
       |(t1 & Happ &
         [(e & Hcomp & Heq)
         |(Hcomp & m3 & added & dn & Ht3 & Ho3 & Hr3 & Htr3 & Hh3 & Hadd & Hpre & Hfresh &
           [(e & Heq) | (Hdone & Heq)])])];
    cbv zeta in Heq.
  - done.
  - rewrite Heq. cbn [fst snd]. by ev_forall.
  - rewrite Heq. cbn [fst snd]. by ev_forall.
  - cbn [apply_edits] in Happ. injection Happ as <-.
    pose proof (play_events_impl
                  (fn_sees (λ t, t = (Mamba.MambaLMHeadModel libs c k ns1).1))
                  (fn inputs a2 k2) m3 (steps w1)) as Hp.
    destruct (play (fn inputs a2 k2) m3 (steps w1)).1.1 as [out|e] eqn:Ep;
      rewrite Heq; cbn [fst snd]; ev_forall; try done;
      try (by apply Hp); cbn [fn_sees]; congruence.
Qed.



(* ===================================================================== *)
(** ** Runs after a failed run                                            *)
(* ===================================================================== *)

Lemma increments_after_registration g (m m3 : TorchModule)
    (added : list (nat * Hook)) (dn : list string) :
  hooks m3 = hooks m ++ (next_handle m, increment_hook_of g) :: added →
  added.*2 = dn ≫= (λ p, [input_hook p (gid g); output_hook p (gid g)]) →
  increments_of (gid g) m3 = S (increments_of (gid g) m).
Proof.
  intros Hh Hadd. unfold increments_of. rewrite Hh.
  change ((next_handle m, increment_hook_of g) :: added)
    with ([(next_handle m, increment_hook_of g)] ++ added).
  rewrite !increment_calls_app.
  rewrite (proj2 (increment_calls_zero (gid g) added))
    by by eapply hook_pairs_no_increment.
  unfold increment_calls at 2. cbn. rewrite bool_decide_eq_true_2 by done.
  cbn. lia.
Qed.



(** X11: after a run on a dispatched instance that raises once the user
    function has been called, the local model is the one from before the
    run (same object, module tree and [requires_grad] flags) except for
    its hook table, which is the old table followed by the increment hook
    of the failed run; so the model then carries one more increment
    callback for this graph than before. *)
Theorem X11_failed_run_leaves_exactly_the_increment_hook {impl : Adapter}
    fn inputs g a edits_ inference k w lm e i a' k' mm im :
  let run := __call__ fn inputs g a edits_ inference k in
  dispatched (self w) = true →
  local_model (self w) = Some lm →
  Forall (λ ih, ih.1 < next_handle lm) (hooks lm) →
  (run w).1 = Raised e →
  EvFn i a' k' mm im ∈ trace_of run w →
  ∃ m', local_model (self (run w).2) = Some m' ∧
        oid m' = oid lm ∧ tree m' = tree lm ∧
        requires_grad m' = requires_grad lm ∧
        hooks m' = hooks lm ++ [(next_handle lm, increment_hook_of g)] ∧
        increments_of (gid g) m' = S (increments_of (gid g) lm).
Proof.
  intros run Hd Hm0 Hold Hraised Hfn. subst run.
  assert (∀ l, Forall (λ ev, ∀ i a' k' mm im, ev ≠ EvFn i a' k' mm im) l →
               EvFn i a' k' mm im ∉ l) as Hno.
  { intros l Hl. eapply (not_in_by_forall _ _ _ Hl). by intros Hn; eapply Hn. }
  call_split fn inputs g a edits_ inference k w.
  - exfalso. revert Hfn. apply Hno. rewrite Hd in Hload.
    destruct Hload as [_ ->]. by ev_forall.
  - exfalso. revert Hfn. apply Hno. rewrite Htrace, Heq. cbn [fst snd].
    destruct Hloads as [->|(r' & a0 & k0 & ->)]; by ev_forall.
  - exfalso. revert Hfn. apply Hno. rewrite Htrace, Heq. cbn [fst snd].
    destruct Hloads as [->|(r' & a0 & k0 & ->)]; by ev_forall.
  - exfalso. revert Hfn. apply Hno. rewrite Htrace, Heq. cbn [fst snd].
    destruct Hloads as [->|(r' & a0 & k0 & ->)]; by ev_forall.
  - rewrite Hd in Hload. destruct Hload as [-> ->].
    rewrite Hm in Hm0. injection Hm0 as <-.
    destruct (play (fn inputs a k) m3 (steps w)).1.1 as [out|e'] eqn:Hp;
      rewrite Heq in Hres, Hlocal; cbn [fst snd] in Hres, Hlocal; [congruence|].
    destruct (unhook_all_spec added.*1 m3) as (Ut & Uo & Ur & Utr & Uh).
    assert (Hhooks : hooks (unhook_all added.*1 m3)
                     = hooks m ++ [(next_handle m, increment_hook_of g)]).
    { rewrite Uh, Hh3.
      assert (Hout : ∀ j, j ∈ added.*1 → next_handle m < j).
      { intros j Hj. apply list_elem_of_fmap in Hj as (ih & -> & Hj).
        rewrite Forall_forall in Hfresh. by apply Hfresh. }
      rewrite filter_app, filter_cons.
      rewrite (filter_keeps _ (hooks m)).
      2:{ eapply Forall_impl; [exact Hold|]. intros ih Hlt Hi.
          apply Hout in Hi. cbn beta in Hlt. lia. }
      rewrite (filter_drops _ added).
      2:{ apply Forall_forall. intros ih Hi Hn. apply Hn.
          apply list_elem_of_fmap. by exists ih. }
      by rewrite decide_True by (intros Hi%Hout; cbn in Hi; lia). }
    eexists. split; [exact Hlocal|].
    cbn [oid tree requires_grad hooks set_tree].
    split; [by rewrite Uo|]. split; [by eapply edits_round_trip|].
    split; [by rewrite Ur|]. split; [exact Hhooks|].
    unfold increments_of. cbn [hooks set_tree]. rewrite Hhooks.
    rewrite increment_calls_app. unfold increment_calls at 2. cbn.
    rewrite bool_decide_eq_true_2 by done. cbn. lia.
Qed.

Lemma X11_witness :
  ∃ m', local_model (self ToyMore.after_failed_run) = Some m' ∧
        hooks m' = [(0, increment_hook_of Toy.graph7)] ∧
        increments_of 7 m' = 1.
Proof.
  edestruct (X11_failed_run_leaves_exactly_the_increment_hook
              (impl := Mamba.adapter Toy.libs) Toy.failing_fn (PStr "in")
              Toy.graph7 [] None true [] Toy.custom_world Toy.custom
              (UserException 1))
    as (m' & Hl & _ & _ & _ & Hh & Hi).
  - vm_compute. reflexivity.
  - vm_compute. reflexivity.
  - vm_compute. constructor.
  - vm_compute. reflexivity.
  - vm_compute. find_in.
  - exists m'. split; [exact Hl|]. split; [exact Hh|exact Hi].
Defined.

(* ===================================================================== *)
(** ** Alterations                                                        *)
(* ===================================================================== *)

Lemma exit_ns_restores (ns : Namespace) key0 qs : ∀ ns1 : Namespace,
  Forall (λ p, orig p = ns (parent p, key p)) qs →
  ns1 key0 = ns key0 ∨ Exists (λ p, (parent p, key p) = key0) qs →
  exit_ns qs ns1 key0 = ns key0.
Proof.
  induction qs as [|q qs IH]; intros ns1 Hq H.
  - destruct H as [H|H]; [done|]. by apply Exists_nil in H.
  - apply Forall_cons in Hq as [Hq Hqs]. unfold exit_ns. cbn [foldl].
    apply IH; [done|].
    destruct (decide ((parent q, key q) = key0)) as [<-|Hne].
    + left. by rewrite fn_lookup_insert.
    + rewrite fn_lookup_insert_ne by done.
      destruct H as [H|H]; [by left|].
      apply Exists_cons in H as [H|H]; [done|by right].
Qed.

(** Exiting a patcher that was entered puts back every binding, when its
    patches were built against the bindings in force. *)
Lemma exit_enter_restores ps (ns : Namespace) :
  Forall (λ p, orig p = ns (parent p, key p)) ps →
  ∀ key0, exit_ns ps (enter_ns ps ns) key0 = ns key0.
Proof.
  intros Hps key0.
  destruct (decide (Exists (λ p, (parent p, key p) = key0) ps)) as [Hex|Hnx].
  - apply exit_ns_restores; [done|by right].
  - apply not_Exists_Forall in Hnx; [|intros p; apply _].
    assert (Hav : Forall (λ p, (parent p, key p) ≠ key0) ps).
    { eapply Forall_impl; [exact Hnx|]. by intros p Hp. }
    rewrite exit_ns_avoid by done. by apply enter_ns_avoid.
Qed.

(** X12: the alteration is scoped to the load.  In a run on an instance
    that is not dispatched, the patches of the alteration registered for
    the repository id are in force while [_load_local] runs and are undone
    when the load ends, whether it returned or raised: if every patch of
    the alteration was built against the current bindings, every binding
    after the run is what it was before the run. *)
Theorem X12_alteration_is_scoped_to_the_load {impl : Adapter}
    fn inputs g a edits_ inference k w :
  dispatched (self w) = false →
  Forall (λ p, orig p = namespace w (parent p, key p)) (alteration_of w) →
  ∀ key0,
    namespace (__call__ fn inputs g a edits_ inference k w).2 key0
      = namespace w key0.
Proof.
  intros Hd Hps key0. rewrite (call_undispatched_eq _ _ _ _ _ _ _ _ Hd).
  destruct (_load_local _ _ _ _ _) as [b|e].
  - destruct (edited_result _ _ _ _ _ _ _ _ _) as [[[r m'] evs] st'].
    cbn [snd after loaded namespace]. by apply exit_enter_restores.
  - cbn [snd load_failed namespace]. by apply exit_enter_restores.
Qed.

Lemma X12_witness :
  namespace (__call__ (impl := Mamba.adapter Toy.libs)
               (Mamba._forward (PStr "out")) (PStr "in") Toy.graph7 [] None
               true [] ToyMore.altered_world).2
            ("mamba_ssm.ops", "selective_scan_fn")
    = "original selective_scan_fn".
Proof.
  rewrite (X12_alteration_is_scoped_to_the_load (impl := Mamba.adapter Toy.libs)
             (Mamba._forward (PStr "out")) (PStr "in") Toy.graph7 [] None
             true [] ToyMore.altered_world).
  - vm_compute. reflexivity.
  - vm_compute. reflexivity.
  - vm_compute. repeat constructor.
Defined.
